(** * Leakwatch: message classification and deduplication pipeline

    A shallow embedding of the decision logic of
    [fetch_secure_session_improved.py] (classes [BreachEntry], [Config],
    [SecureSessionManager], [MessageParser], [DataManager],
    [TelegramFetcher], [DataProcessor] and [main]) and
    [fetch_entire_history.py] (class [FullHistoryFetcher] and [main]),
    with the parts of the Python runtime they call: [str] methods,
    [re.match], [base64.b64decode], [hashlib.sha256], [json.loads] and
    [json.dumps].

    Python values are modelled as follows.
    - A [str] is the list of its Unicode code points ([pystr]).
    - An exception is a constructor of [exn]; a function that can raise
      returns a [result].
    - A [dict] is the list of its items in insertion order, keys unique.
    - [str.lower] depends on the Unicode character database; it is an
      interface ([StrLower]) with the ASCII instance [ascii_lower].
    - How deep a value the interpreter's stack lets [json.loads] read and
      [json.dumps] write are interfaces too ([RecursionLimit],
      [EncoderStack]). *)

From Stdlib Require Import NArith ZArith List Lia Bool Ascii String Sorted.
From stdpp Require Import base list strings gmap.

Set Warnings "-register-all,-abstract-large-number".
Local Open Scope N_scope.

(** ** Exceptions and results *)

Inductive exn : Type :=
| AttributeError
| TypeError
| UnicodeEncodeError
| JSONDecodeError
| RecursionError
| ValueError
| FloodWaitError
| SessionPasswordNeededError
| AuthKeyUnregisteredError
| OtherException.

Inductive result (A : Type) : Type :=
| Ok (a : A)
| Raise (e : exn).
Arguments Ok {A} a.
Arguments Raise {A} e.

#[global] Instance result_ret : MRet result := @Ok.
#[global] Instance result_bind : MBind result :=
  λ A B f m, match m with Ok a => f a | Raise e => Raise e end.

(** ** Python strings *)

Definition pystr : Type := list N.

(** The code points of an ASCII literal. *)
Fixpoint py (s : string) : pystr :=
  match s with
  | EmptyString => []
  | String a s' => N_of_ascii a :: py s'
  end.

Fixpoint str_eqb (a b : pystr) : bool :=
  match a, b with
  | [], [] => true
  | x :: a', y :: b' => (x =? y) && str_eqb a' b'
  | _, _ => false
  end.

(** [a < b] on strings: by code points, a proper prefix first. *)
Fixpoint str_ltb (a b : pystr) : bool :=
  match a, b with
  | _, [] => false
  | [], _ :: _ => true
  | x :: a', y :: b' => (x <? y) || ((x =? y) && str_ltb a' b')
  end.

(** [s.startswith(p)]. *)
Fixpoint startswith (p s : pystr) : bool :=
  match p, s with
  | [], _ => true
  | x :: p', y :: s' => (x =? y) && startswith p' s'
  | _ :: _, [] => false
  end.

(** [sub in s]: [sub] occurs in [s] as a contiguous substring. *)
Fixpoint contains (sub s : pystr) : bool :=
  startswith sub s ||
  match s with
  | [] => false
  | _ :: s' => contains sub s'
  end.

(** [s.replace(old, new)] for a non-empty [old]: occurrences are replaced
    from the left and do not overlap. [skip] counts the characters of the
    occurrence just replaced that are still to be passed over. *)
Fixpoint replace_from (old new : pystr) (skip : nat) (s : pystr) : pystr :=
  match s with
  | [] => []
  | c :: s' =>
      match skip with
      | S k => replace_from old new k s'
      | O =>
          if startswith old s
          then new ++ replace_from old new (length old - 1)%nat s'
          else c :: replace_from old new 0%nat s'
      end
  end.

Definition replace (old new s : pystr) : pystr := replace_from old new 0%nat s.

(** [str.isspace] on one character: the characters [str.strip()] removes. *)
Definition is_space (c : N) : bool :=
  ((0x09 <=? c) && (c <=? 0x0D)) || ((0x1C <=? c) && (c <=? 0x20))
  || (c =? 0x85) || (c =? 0xA0) || (c =? 0x1680)
  || ((0x2000 <=? c) && (c <=? 0x200A))
  || (c =? 0x2028) || (c =? 0x2029) || (c =? 0x202F) || (c =? 0x205F)
  || (c =? 0x3000).

Fixpoint lstrip (s : pystr) : pystr :=
  match s with
  | [] => []
  | c :: s' => if is_space c then lstrip s' else s
  end.

Definition rstrip (s : pystr) : pystr := rev (lstrip (rev s)).

(** [s.strip()]. *)
Definition strip (s : pystr) : pystr := rstrip (lstrip s).

(** [re.sub('[' + chars + ']', '', s)]: every character of the class is
    deleted. *)
Definition re_sub_class (chars : pystr) (s : pystr) : pystr :=
  List.filter (λ c, negb (existsb (N.eqb c) chars)) s.

(** [s[:n]]. *)
Definition slice_to (n : nat) (s : pystr) : pystr := take n s.

(** [str.lower] as an interface, and its restriction to ASCII. *)
Class StrLower : Type := str_lower : pystr → pystr.

Definition ascii_lower_char (c : N) : N :=
  if (0x41 <=? c) && (c <=? 0x5A) then c + 0x20 else c.

Definition ascii_lower : StrLower := map ascii_lower_char.

(** [s.encode()]: UTF-8; a surrogate code point cannot be encoded. *)
Definition utf8_char (c : N) : result (list N) :=
  if c <? 0x80 then Ok [c]
  else if c <? 0x800 then Ok [0xC0 + c / 0x40; 0x80 + c mod 0x40]
  else if (0xD800 <=? c) && (c <? 0xE000) then Raise UnicodeEncodeError
  else if c <? 0x10000 then
    Ok [0xE0 + c / 0x1000; 0x80 + (c / 0x40) mod 0x40; 0x80 + c mod 0x40]
  else
    Ok [0xF0 + c / 0x40000; 0x80 + (c / 0x1000) mod 0x40;
        0x80 + (c / 0x40) mod 0x40; 0x80 + c mod 0x40].

Fixpoint encode (s : pystr) : result (list N) :=
  match s with
  | [] => Ok []
  | c :: s' => bs ← utf8_char c; rest ← encode s'; Ok (bs ++ rest)
  end.

(** [str.isdigit] as an interface, and its restriction to ASCII. *)
Class StrIsDigit : Type := str_isdigit : pystr → bool.

Definition ascii_isdigit : StrIsDigit :=
  λ s, match s with
       | [] => false
       | _ :: _ => forallb (λ c, (0x30 <=? c) && (c <=? 0x39)) s
       end.

(** ** The two regular expressions

    Both are anchored and end in [$], which matches at the end of the
    text and also just before a newline that ends it. Their classes hold
    no newline, so that the longest run of the class is the only candidate
    for a match. *)

(** The longest prefix of characters that satisfy [p], and the rest. *)
Fixpoint span (p : N → bool) (s : pystr) : pystr * pystr :=
  match s with
  | c :: s' => if p c then let r := span p s' in (c :: r.1, r.2) else ([], s)
  | [] => ([], [])
  end.

(** Where [$] matches. *)
Definition at_end (s : pystr) : bool :=
  match s with
  | [] => true
  | [c] => c =? 10
  | _ => false
  end.

Definition in_range (lo hi c : N) : bool := (lo <=? c) && (c <=? hi).

(** The class [a-zA-Z0-9_]. *)
Definition is_word_char (c : N) : bool :=
  in_range 97 122 c || in_range 65 90 c || in_range 48 57 c || (c =? 95).

(** The class [A-Za-z0-9+/]. *)
Definition is_base64_char (c : N) : bool :=
  in_range 65 90 c || in_range 97 122 c || in_range 48 57 c
  || (c =? 43) || (c =? 47).

(** [re.match(r'^[a-zA-Z0-9_]+$', s)] is not [None]. *)
Definition match_word (s : pystr) : bool :=
  let run := span is_word_char s in
  match run.1 with
  | [] => false
  | _ :: _ => at_end run.2
  end.

(** [re.match(r'^[A-Za-z0-9+/]*={0,2}$', s)] is not [None]. *)
Definition match_base64 (s : pystr) : bool :=
  let run := span is_base64_char s in
  match run.2 with
  | a :: b :: rest => if (a =? 61) && (b =? 61) then at_end rest
                      else if a =? 61 then at_end (b :: rest)
                      else at_end run.2
  | [a] => (a =? 61) || at_end [a]
  | [] => true
  end.

(** ** [base64.b64decode]

    [binascii.a2b_base64] without [strict_mode], as CPython 3.11 has it:
    a character outside the alphabet is passed over, and so is a padding
    character that does not complete a group. *)

Definition b64_value (c : N) : option N :=
  if in_range 65 90 c then Some (c - 65)
  else if in_range 97 122 c then Some (c - 71)
  else if in_range 48 57 c then Some (c + 4)
  else if c =? 43 then Some 62
  else if c =? 47 then Some 63
  else None.

(** The loop, on the state [quad_pos], [leftchar], [pads] and the bytes
    decoded so far; [None] is [binascii.Error]. *)
Fixpoint a2b_base64 (s : pystr) (quad_pos : nat) (leftchar : N) (pads : nat)
    (bin_data : list N) : option (list N) :=
  match s with
  | [] =>
      match quad_pos with
      | O => Some bin_data
      | _ => None
      end
  | this_ch :: s' =>
      if this_ch =? 61 then
        if (2 <=? quad_pos)%nat && (4 <=? quad_pos + S pads)%nat
        then Some bin_data
        else a2b_base64 s' quad_pos leftchar
               (if (2 <=? quad_pos)%nat then S pads else pads) bin_data
      else
        match b64_value this_ch with
        | None => a2b_base64 s' quad_pos leftchar pads bin_data
        | Some v =>
            match quad_pos with
            | 0%nat => a2b_base64 s' 1 v 0 bin_data
            | 1%nat =>
                a2b_base64 s' 2 (N.land v 0x0F) 0
                  (bin_data ++ [N.lor (N.shiftl leftchar 2) (N.shiftr v 4)])
            | 2%nat =>
                a2b_base64 s' 3 (N.land v 0x03) 0
                  (bin_data ++ [N.lor (N.shiftl leftchar 4) (N.shiftr v 2)])
            | _ =>
                a2b_base64 s' 0 0 0
                  (bin_data ++ [N.lor (N.shiftl leftchar 6) v])
            end
        end
  end.

(** [base64.b64decode(s)] for a [str]: only ASCII can be decoded. *)
Definition b64decode (s : pystr) : option (list N) :=
  if forallb (λ c, c <? 128) s then a2b_base64 s 0 0 0 [] else None.

(** ** SHA-256 (FIPS 180-4), as [hashlib.sha256(data).hexdigest()] *)

Module Sha256.

Definition mask32 (x : N) : N := N.land x 0xFFFFFFFF.
Definition add32 (x y : N) : N := mask32 (x + y).
Definition rotr (n x : N) : N :=
  N.lor (N.shiftr x n) (mask32 (N.shiftl x (32 - n))).
Definition ch (x y z : N) : N :=
  N.lxor (N.land x y) (N.land (N.lxor x 0xFFFFFFFF) z).
Definition maj (x y z : N) : N :=
  N.lxor (N.lxor (N.land x y) (N.land x z)) (N.land y z).
Definition big_sigma0 (x : N) : N :=
  N.lxor (N.lxor (rotr 2 x) (rotr 13 x)) (rotr 22 x).
Definition big_sigma1 (x : N) : N :=
  N.lxor (N.lxor (rotr 6 x) (rotr 11 x)) (rotr 25 x).
Definition small_sigma0 (x : N) : N :=
  N.lxor (N.lxor (rotr 7 x) (rotr 18 x)) (N.shiftr x 3).
Definition small_sigma1 (x : N) : N :=
  N.lxor (N.lxor (rotr 17 x) (rotr 19 x)) (N.shiftr x 10).

(** The round constants are the first 32 fractional bits of the cube roots
    of the first 64 primes; the initial state, of the square roots of the
    first 8. They are computed from that definition. *)
Definition is_prime (n : N) : bool :=
  (1 <? n) &&
  forallb (λ d, negb (n mod d =? 0)) (map N.of_nat (seq 2 (N.to_nat n - 2))).

Definition primes : list N :=
  Eval vm_compute in take 64 (List.filter is_prime (map N.of_nat (seq 2 400))).

Fixpoint icbrt_from (n : N) (bits : nat) (r : N) : N :=
  match bits with
  | O => r
  | S b =>
      let c := r + N.shiftl 1 (N.of_nat b) in
      icbrt_from n b (if c * c * c <=? n then c else r)
  end.

Definition round_constants : list N :=
  Eval vm_compute in map (λ p, mask32 (icbrt_from (p * 2 ^ 96) 40 0)) primes.

Definition initial_state : list N :=
  Eval vm_compute in map (λ p, mask32 (N.sqrt (p * 2 ^ 64))) (take 8 primes).

Fixpoint be_bytes (n : nat) (x : N) : list N :=
  match n with
  | O => []
  | S k => be_bytes k (x / 256) ++ [x mod 256]
  end.

Definition pad (msg : list N) : list N :=
  let len := N.of_nat (length msg) in
  msg ++ [0x80] ++ repeat 0 (N.to_nat ((119 - len mod 64) mod 64))
      ++ be_bytes 8 (8 * len).

Fixpoint be_words (bs : list N) : list N :=
  match bs with
  | a :: b :: c :: d :: rest =>
      (((a * 256 + b) * 256 + c) * 256 + d) :: be_words rest
  | _ => []
  end.

Fixpoint blocks (n : nat) (ws : list N) : list (list N) :=
  match n with
  | O => []
  | S k => take 16 ws :: blocks k (drop 16 ws)
  end.

Fixpoint schedule (n : nat) (w : list N) : list N :=
  match n with
  | O => w
  | S k =>
      let t := length w in
      let at_ i := nth (t - i)%nat w 0 in
      schedule k
        (w ++ [add32 (add32 (small_sigma1 (at_ 2%nat)) (at_ 7%nat))
                     (add32 (small_sigma0 (at_ 15%nat)) (at_ 16%nat))])
  end.

Definition round (st : list N) (kw : N * N) : list N :=
  match st with
  | [a; b; c; d; e; f; g; h] =>
      let t1 := add32 (add32 (add32 h (big_sigma1 e)) (ch e f g))
                      (add32 kw.1 kw.2) in
      let t2 := add32 (big_sigma0 a) (maj a b c) in
      [add32 t1 t2; a; b; c; add32 d t1; e; f; g]
  | _ => st
  end.

Definition compress (st : list N) (block : list N) : list N :=
  let w := schedule 48 block in
  zip_with add32 st (fold_left round (zip round_constants w) st).

Definition digest_words (msg : list N) : list N :=
  let ws := be_words (pad msg) in
  fold_left compress (blocks (length ws / 16) ws) initial_state.

Definition hex_digit (d : N) : N := if d <? 10 then 48 + d else 87 + d.

Fixpoint hex (n : nat) (x : N) : pystr :=
  match n with
  | O => []
  | S k => hex k (x / 16) ++ [hex_digit (x mod 16)]
  end.

Definition hexdigest (msg : list N) : pystr :=
  concat (map (hex 8) (digest_words msg)).

End Sha256.

(** ** Python values

    The values [json.loads] produces, which are also the values the records
    hold. A float is kept as the text it was read from: the program never
    computes with one. [PNone] is Python's [None]. *)

Inductive pyval : Type :=
| PNone
| PBool (b : bool)
| PInt (n : Z)
| PFloat (lexeme : pystr)
| PStr (s : pystr)
| PList (items : list pyval)
| PDict (items : list (pystr * pyval)).

(** A [dict] with [str] keys: its items in insertion order. *)
Definition dict : Type := list (pystr * pyval).

(** [d.get(k)]; [None] when the key is absent. *)
Fixpoint dict_get (k : pystr) (d : dict) : option pyval :=
  match d with
  | [] => None
  | (k', v) :: d' => if str_eqb k k' then Some v else dict_get k d'
  end.

(** [k in d]. *)
Definition dict_has (k : pystr) (d : dict) : bool :=
  match dict_get k d with Some _ => true | None => false end.

(** [d[k] = v]: an existing key keeps its place, a new key goes last. *)
Fixpoint dict_set (k : pystr) (v : pyval) (d : dict) : dict :=
  match d with
  | [] => [(k, v)]
  | (k', v') :: d' =>
      if str_eqb k k' then (k', v) :: d' else (k', v') :: dict_set k v d'
  end.

(** [dict(pairs)]. *)
Definition dict_of_pairs (pairs : list (pystr * pyval)) : dict :=
  fold_left (λ d kv, dict_set kv.1 kv.2 d) pairs [].

(** ** [json.loads] and [json.dumps] *)

(** The interpreter's bound on nested calls: decoding a document nested
    deeper raises [RecursionError]. *)
Class RecursionLimit : Type := recursion_limit : nat.

(** Whether [json.dumps(v, indent=2)] stays within that bound where the
    program calls it. With an indent the encoder is the one written in
    Python, and how many calls it nests for a value depends on the
    interpreter; [ample_stack] is an interpreter that never runs out. *)
Class EncoderStack : Type := encoder_within_stack : pyval → bool.

Definition ample_stack : EncoderStack := λ _, true.

Module Json.

Definition is_ws (c : N) : bool :=
  (c =? 32) || (c =? 9) || (c =? 10) || (c =? 13).

Fixpoint skip_ws (s : pystr) : pystr :=
  match s with
  | [] => []
  | c :: s' => if is_ws c then skip_ws s' else s
  end.

Definition is_digit (c : N) : bool := (48 <=? c) && (c <=? 57).

Definition hex_value (c : N) : option N :=
  if is_digit c then Some (c - 48)
  else if (97 <=? c) && (c <=? 102) then Some (c - 87)
  else if (65 <=? c) && (c <=? 70) then Some (c - 55)
  else None.

Definition hex4 (a b c d : N) : option N :=
  x ← hex_value a; y ← hex_value b; z ← hex_value c; w ← hex_value d;
  Some (((x * 16 + y) * 16 + z) * 16 + w).

(** The character a one-letter escape stands for. *)
Definition unescape (e : N) : option N :=
  if e =? 34 then Some 34 else if e =? 92 then Some 92
  else if e =? 47 then Some 47 else if e =? 98 then Some 8
  else if e =? 102 then Some 12 else if e =? 110 then Some 10
  else if e =? 114 then Some 13 else if e =? 116 then Some 9
  else None.

Definition is_high_surrogate (u : N) : bool := (0xD800 <=? u) && (u <=? 0xDBFF).
Definition is_low_surrogate (u : N) : bool := (0xDC00 <=? u) && (u <=? 0xDFFF).

(** [scanstring], strict: the text after an opening quote, up to the
    closing one; the decoded string and the text that follows it. *)
Fixpoint scanstring (s : pystr) : result (pystr * pystr) :=
  match s with
  | [] => Raise JSONDecodeError
  | c :: s1 =>
      if c =? 34 then Ok ([], s1)
      else if c <=? 0x1F then Raise JSONDecodeError
      else if negb (c =? 92) then
        r ← scanstring s1; Ok (c :: r.1, r.2)
      else
        match s1 with
        | [] => Raise JSONDecodeError
        | e :: s2 =>
            if negb (e =? 117) then
              match unescape e with
              | Some u => r ← scanstring s2; Ok (u :: r.1, r.2)
              | None => Raise JSONDecodeError
              end
            else
              match s2 with
              | h1 :: h2 :: h3 :: h4 :: s3 =>
                  match hex4 h1 h2 h3 h4 with
                  | None => Raise JSONDecodeError
                  | Some u =>
                      match s3 with
                      | b :: e' :: g1 :: g2 :: g3 :: g4 :: s4 =>
                          match hex4 g1 g2 g3 g4 with
                          | Some u2 =>
                              if is_high_surrogate u && (b =? 92) && (e' =? 117)
                                 && is_low_surrogate u2
                              then
                                r ← scanstring s4;
                                Ok (0x10000 + (u - 0xD800) * 0x400 + (u2 - 0xDC00)
                                      :: r.1, r.2)
                              else r ← scanstring s3; Ok (u :: r.1, r.2)
                          | None => r ← scanstring s3; Ok (u :: r.1, r.2)
                          end
                      | _ => r ← scanstring s3; Ok (u :: r.1, r.2)
                      end
                  end
              | _ => Raise JSONDecodeError
              end
        end
  end.

(** The longest prefix of digits, and the rest. *)
Fixpoint digits (s : pystr) : pystr * pystr :=
  match s with
  | c :: s' =>
      if is_digit c then let rest := digits s' in (c :: rest.1, rest.2)
      else ([], s)
  | [] => ([], [])
  end.

Definition int_of_digits (ds : pystr) : Z :=
  fold_left (λ acc c, (acc * 10 + Z.of_N (c - 48))%Z) ds 0%Z.

(** The parts of a number, each with the text that follows it: an optional
    minus sign; a zero, or a non-zero digit and digits; optionally a point
    and at least one digit; optionally [e] or [E], an optional sign and at
    least one digit. *)
Definition minus_part (s : pystr) : pystr * pystr :=
  match s with
  | c :: s' => if c =? 45 then ([c], s') else ([], s)
  | [] => ([], s)
  end.

Definition int_part (s : pystr) : option (pystr * pystr) :=
  match s with
  | c :: s' =>
      if c =? 48 then Some ([c], s')
      else if is_digit c then Some (c :: (digits s').1, (digits s').2)
      else None
  | [] => None
  end.

Definition frac_part (s : pystr) : pystr * pystr :=
  match s with
  | p :: d :: s' =>
      if (p =? 46) && is_digit d
      then (p :: d :: (digits s').1, (digits s').2)
      else ([], s)
  | _ => ([], s)
  end.

Definition sign_part (s : pystr) : pystr * pystr :=
  match s with
  | c :: s' => if (c =? 43) || (c =? 45) then ([c], s') else ([], s)
  | [] => ([], s)
  end.

Definition exp_part (s : pystr) : pystr * pystr :=
  match s with
  | e :: s' =>
      if (e =? 101) || (e =? 69) then
        match (digits (sign_part s').2).1 with
        | [] => ([], s)
        | ds => (e :: (sign_part s').1 ++ ds, (digits (sign_part s').2).2)
        end
      else ([], s)
  | [] => ([], s)
  end.

(** [sys.get_int_max_str_digits()], as the interpreter starts: [int(s)]
    and [str(n)] raise [ValueError] for a number of more digits. *)
Definition INT_MAX_STR_DIGITS : nat := 4300.

(** A number at the start of [s], as the scanner matches it, and the text
    that follows; [None] when no number starts [s]. It is an [int] when it
    has neither fraction nor exponent, and then [int] refuses one of too
    many digits. *)
Definition match_number (s : pystr) : option (result (pyval * pystr)) :=
  let minus := minus_part s in
  integer ← int_part minus.2;
  let frac := frac_part integer.2 in
  let exp := exp_part frac.2 in
  Some (match frac.1, exp.1 with
        | [], [] =>
            if (INT_MAX_STR_DIGITS <? length integer.1)%nat then Raise ValueError
            else
              let n := int_of_digits integer.1 in
              Ok (PInt (if minus.1 is [] then n else (- n)%Z), exp.2)
        | _, _ => Ok (PFloat (minus.1 ++ integer.1 ++ frac.1 ++ exp.1), exp.2)
        end).

(** [scan_once], with the loops of [JSONArray] and [JSONObject]. [fuel]
    bounds the calls and is never exhausted when it exceeds twice the length
    of the text; [depth] is what is left of the recursion limit. *)
Fixpoint scan_once (fuel depth : nat) (s : pystr) : result (pyval * pystr) :=
  match fuel with
  | O => Raise RecursionError
  | S fuel' =>
      match s with
      | [] => Raise JSONDecodeError
      | c :: s1 =>
          if c =? 34 then r ← scanstring s1; Ok (PStr r.1, r.2)
          else if c =? 123 then
            match depth with
            | O => Raise RecursionError
            | S depth' =>
                match skip_ws s1 with
                | c' :: s2 =>
                    if c' =? 125 then Ok (PDict [], s2)
                    else if c' =? 34 then object_items fuel' depth' s2 []
                    else Raise JSONDecodeError
                | [] => Raise JSONDecodeError
                end
            end
          else if c =? 91 then
            match depth with
            | O => Raise RecursionError
            | S depth' =>
                match skip_ws s1 with
                | c' :: s2 =>
                    if c' =? 93 then Ok (PList [], s2)
                    else array_items fuel' depth' (skip_ws s1) []
                | [] => Raise JSONDecodeError
                end
            end
          else if startswith (py "null") s then Ok (PNone, drop 4 s)
          else if startswith (py "true") s then Ok (PBool true, drop 4 s)
          else if startswith (py "false") s then Ok (PBool false, drop 5 s)
          else
            match match_number s with
            | Some r => r
            | None =>
                if startswith (py "NaN") s then Ok (PFloat (py "NaN"), drop 3 s)
                else if startswith (py "Infinity") s
                then Ok (PFloat (py "Infinity"), drop 8 s)
                else if startswith (py "-Infinity") s
                then Ok (PFloat (py "-Infinity"), drop 9 s)
                else Raise JSONDecodeError
            end
      end
  end
with array_items (fuel depth : nat) (s : pystr) (acc : list pyval)
  : result (pyval * pystr) :=
  match fuel with
  | O => Raise RecursionError
  | S fuel' =>
      r ← scan_once fuel' depth s;
      match skip_ws r.2 with
      | c :: s1 =>
          if c =? 93 then Ok (PList (rev (r.1 :: acc)), s1)
          else if c =? 44 then array_items fuel' depth (skip_ws s1) (r.1 :: acc)
          else Raise JSONDecodeError
      | [] => Raise JSONDecodeError
      end
  end
with object_items (fuel depth : nat) (s : pystr) (acc : list (pystr * pyval))
  : result (pyval * pystr) :=
  match fuel with
  | O => Raise RecursionError
  | S fuel' =>
      k ← scanstring s;
      match skip_ws k.2 with
      | c :: s1 =>
          if c =? 58 then
            r ← scan_once fuel' depth (skip_ws s1);
            match skip_ws r.2 with
            | c' :: s2 =>
                if c' =? 125
                then Ok (PDict (dict_of_pairs (rev ((k.1, r.1) :: acc))), s2)
                else if c' =? 44 then
                  match skip_ws s2 with
                  | q :: s3 =>
                      if q =? 34
                      then object_items fuel' depth s3 ((k.1, r.1) :: acc)
                      else Raise JSONDecodeError
                  | [] => Raise JSONDecodeError
                  end
                else Raise JSONDecodeError
            | [] => Raise JSONDecodeError
            end
          else Raise JSONDecodeError
      | [] => Raise JSONDecodeError
      end
  end.

(** [json.loads(s)] for a [str]: one value, with only whitespace around it. *)
Definition loads `{RecursionLimit} (s : pystr) : result pyval :=
  if startswith [0xFEFF] s then Raise JSONDecodeError
  else
    r ← scan_once (2 * length s + 2) recursion_limit (skip_ws s);
    match skip_ws r.2 with
    | [] => Ok r.1
    | _ :: _ => Raise JSONDecodeError
    end.

(** [json.dumps] as [save_data] calls it: [indent=2, ensure_ascii=False]. *)

Definition escape_char (c : N) : pystr :=
  if c =? 34 then [92; 34] else if c =? 92 then [92; 92]
  else if c =? 10 then [92; 110] else if c =? 13 then [92; 114]
  else if c =? 9 then [92; 116] else if c =? 8 then [92; 98]
  else if c =? 12 then [92; 102]
  else if c <? 0x20 then [92; 117] ++ Sha256.hex 4 c
  else [c].

Definition encode_str (s : pystr) : pystr :=
  [34] ++ concat (map escape_char s) ++ [34].

Fixpoint decimal (fuel : nat) (n : N) : pystr :=
  match fuel with
  | O => []
  | S k => (if n <? 10 then [] else decimal k (n / 10)) ++ [48 + n mod 10]
  end.

(** The digits of [abs(n)]. *)
Definition int_digits (n : Z) : pystr :=
  decimal (S (N.to_nat (N.size (Z.abs_N n)))) (Z.abs_N n).

Definition encode_int (n : Z) : pystr :=
  (if (n <? 0)%Z then [45] else []) ++ int_digits n.

Definition newline_indent (level : nat) : pystr :=
  10 :: repeat 32 (2 * level).

Fixpoint join (sep : pystr) (parts : list pystr) : pystr :=
  match parts with
  | [] => []
  | [a] => a
  | a :: rest => a ++ sep ++ join sep rest
  end.

(** The text of a value that stands [level] containers deep; [None] where
    the encoder returns no text in the model. That is for a float, whose
    text is outside the model, and for an [int] of more digits than
    [INT_MAX_STR_DIGITS], for which it raises [ValueError]. *)
Fixpoint encode_at (level : nat) (v : pyval) : option pystr :=
  match v with
  | PNone => Some (py "null")
  | PBool true => Some (py "true")
  | PBool false => Some (py "false")
  | PInt n =>
      if (INT_MAX_STR_DIGITS <? length (int_digits n))%nat then None
      else Some (encode_int n)
  | PFloat _ => None
  | PStr s => Some (encode_str s)
  | PList [] => Some (py "[]")
  | PList items =>
      parts ←
        (fix each (l : list pyval) : option (list pystr) :=
           match l with
           | [] => Some []
           | x :: l' =>
               a ← encode_at (S level) x; b ← each l'; Some (a :: b)
           end) items;
      Some ([91] ++ newline_indent (S level)
              ++ join (44 :: newline_indent (S level)) parts
              ++ newline_indent level ++ [93])
  | PDict [] => Some (py "{}")
  | PDict items =>
      parts ←
        (fix each (l : list (pystr * pyval)) : option (list pystr) :=
           match l with
           | [] => Some []
           | (k, x) :: l' =>
               a ← encode_at (S level) x; b ← each l';
               Some ((encode_str k ++ py ": " ++ a) :: b)
           end) items;
      Some ([123] ++ newline_indent (S level)
              ++ join (44 :: newline_indent (S level)) parts
              ++ newline_indent level ++ [125])
  end.

Definition dumps (v : pyval) : option pystr := encode_at 0 v.

(** An [int] of the value has too many digits: [json.dumps] raises
    [ValueError]. *)
Fixpoint int_too_long (v : pyval) : bool :=
  match v with
  | PInt n => (INT_MAX_STR_DIGITS <? length (int_digits n))%nat
  | PList items => existsb int_too_long items
  | PDict items => existsb (λ kv, int_too_long kv.2) items
  | _ => false
  end.

(** [json.dumps(v, indent=2, ensure_ascii=False)] raises, [RecursionError]
    or [ValueError]. *)
Definition dumps_raises `{EncoderStack} (v : pyval) : bool :=
  negb (encoder_within_stack v) || int_too_long v.

End Json.

(** ** Truth values

    [bool(v)], as [if v:] and [v and w] test a value. *)

(** The value of an exponent's text: [e] or [E], a sign, digits. *)
Definition exponent_value (exp : pystr) : Z :=
  match exp with
  | [] => 0%Z
  | _ :: rest =>
      let sign := Json.sign_part rest in
      let n := Json.int_of_digits sign.2 in
      match sign.1 with
      | c :: _ => if c =? 45 then (- n)%Z else n
      | [] => n
      end
  end.

(** Whether the [float] read from a number's text is zero. The text is a
    decimal [mantissa * 10 ^ exponent], which is rounded to the nearest
    double: to zero exactly when it is at most [2 ^ -1075], half the least
    positive double. [NaN] and the infinities are not numbers' texts and
    are not zero. *)
Definition float_is_zero (lexeme : pystr) : bool :=
  match Json.int_part (Json.minus_part lexeme).2 with
  | None => false
  | Some integer =>
      let frac := Json.frac_part integer.2 in
      let exp := Json.exp_part frac.2 in
      let mantissa := Z.to_N (Json.int_of_digits (integer.1 ++ drop 1 frac.1)) in
      let exponent :=
        (exponent_value exp.1 - Z.of_nat (length (drop 1 frac.1)))%Z in
      (mantissa =? 0)
      || ((exponent <? 0)%Z && (mantissa * 2 ^ 1075 <=? 10 ^ Z.to_N (- exponent)))
  end.

Definition truthy (v : pyval) : bool :=
  match v with
  | PNone => false
  | PBool b => b
  | PInt n => negb (n =? 0)%Z
  | PFloat lexeme => negb (float_is_zero lexeme)
  | PStr s => if s is [] then false else true
  | PList items => if items is [] then false else true
  | PDict items => if items is [] then false else true
  end.

(** [x == y] for a [str] [x]: a [str] equals no value of another type. *)
Definition eq_str (x : pystr) (v : pyval) : bool :=
  match v with PStr s => str_eqb x s | _ => false end.

(** ** What the two scripts share

    [MAX_CONTENT_LENGTH], [MAX_SOURCE_LENGTH], [ALLOWED_BREACH_TYPES] and
    [clean_text] have the same text in both files. *)

Definition MAX_CONTENT_LENGTH : nat := 2000.
Definition MAX_SOURCE_LENGTH : nat := 500.

Definition ALLOWED_BREACH_TYPES : list pystr :=
  [py "Data leak"; py "Security breach"; py "Privacy violation";
   py "Ransomware"; py "Malware"; py "Phishing"; py "DDoS"; py "Other"].

(** The watermark's diamond is U+1F539. *)
Definition watermarks : list pystr :=
  [py "**" ++ [0x1F539] ++ py " ****t.me/breachdetector**** "
     ++ [0x1F539] ++ py "**";
   py "t.me/breachdetector";
   py "**" ++ [0x1F539];
   [0x1F539] ++ py "**"].

Definition clean_text (text : pyval) : pystr :=
  match text with
  | PStr text =>
      let clean_text := fold_left (λ acc watermark, replace watermark [] acc)
                                  watermarks text in
      (* the two-character sequences backslash-n and backslash-quote *)
      let clean_text := replace [92; 34] [34] (replace [92; 110] [32] clean_text) in
      (* the class of <, >, double quote and apostrophe *)
      let clean_text := re_sub_class [60; 62; 34; 39] clean_text in
      strip clean_text
  | _ => []
  end.

(** [sum(1 for indicator in indicators if indicator in content_lower)]. *)
Definition indicator_score (indicators : list pystr) (content_lower : pystr)
  : nat :=
  length (List.filter (λ indicator, contains indicator content_lower) indicators).

(** The body of [is_legitimate_breach] and of [is_relevant_breach], which
    differ in their keyword lists only. *)
Definition relevance `{StrLower} (breach spam : list pystr) (content : pystr)
  : bool :=
  match content with
  | [] => false
  | _ :: _ =>
      let content_lower := str_lower content in
      let spam_score := indicator_score spam content_lower in
      let breach_score := indicator_score breach content_lower in
      (spam_score <? breach_score)%nat && (0 <? breach_score)%nat
  end.

(** [if len(s) > n: s = s[:n]]. *)
Definition truncate (n : nat) (s : pystr) : pystr :=
  if (n <? length s)%nat then slice_to n s else s.

(** The three [if key not in parsed] assignments of both parsers. *)
Definition ensure_fields (clean_text : pystr) (parsed : dict) : dict :=
  let parsed :=
    if dict_has (py "Content") parsed then parsed
    else dict_set (py "Content") (PStr clean_text) parsed in
  let parsed :=
    if dict_has (py "Source") parsed then parsed
    else dict_set (py "Source") (PStr (py "Unknown")) parsed in
  if dict_has (py "Type") parsed then parsed
  else dict_set (py "Type") (PStr (py "Data leak")) parsed.

(** [for key, value in parsed.items()]: each turn may assign [parsed[key]]
    and reads no other entry. *)
Definition for_items (f : pystr → pyval → pyval) (parsed : dict) : dict :=
  map (λ kv, (kv.1, f kv.1 kv.2)) parsed.

(** [for x in xs] over a body that updates a state and may raise. *)
Fixpoint for_each {S A : Type} (body : S → A → result S) (xs : list A) (st : S)
  : result S :=
  match xs with
  | [] => Ok st
  | x :: xs' => st' ← body st x; for_each body xs' st'
  end.

(** ** fetch_secure_session_improved.py *)

Module SecureSession.

(** *** BreachEntry

    The dataclass with its fields as annotated; [timestamp], a
    [datetime], is only stored. *)

Module BreachEntry.

Record t : Type := Build {
  source : pystr;
  content : pystr;
  author : pystr;
  detection_date : pystr;
  breach_type : pystr;
  message_id : option Z;
  timestamp : option Z;
  hash_id : option pystr;
}.

Definition validate_and_sanitize (self : t) : t :=
  {| source := truncate MAX_SOURCE_LENGTH (source self);
     content := truncate MAX_CONTENT_LENGTH (content self);
     author := slice_to 100 (re_sub_class [60; 62; 34; 39] (author self));
     detection_date := detection_date self;
     breach_type :=
       if existsb (str_eqb (breach_type self)) ALLOWED_BREACH_TYPES
       then breach_type self else py "Other";
     message_id := message_id self;
     timestamp := timestamp self;
     hash_id := hash_id self |}.

(** [hashlib.sha256(self.content.encode()).hexdigest()[:16]]. *)
Definition content_hash (content : pystr) : result pystr :=
  bytes ← encode content; Ok (slice_to 16 (Sha256.hexdigest bytes)).

(** [__post_init__]: the entry as the constructor leaves it. *)
Definition post_init (self : t) : result t :=
  hash_id ←
    match hash_id self with
    | Some (c :: h) => Ok (c :: h)
    | _ =>
        content_hash ← content_hash (content self);
        Ok (source self ++ py "_" ++ content_hash)
    end;
  Ok (validate_and_sanitize
        {| source := source self; content := content self; author := author self;
           detection_date := detection_date self;
           breach_type := breach_type self; message_id := message_id self;
           timestamp := timestamp self; hash_id := Some hash_id |}).

End BreachEntry.

(** *** Config

    The settings that [validate] and the fetcher read; each is what
    [os.getenv] returned, [None] for a variable that is not set. *)

Record config : Type := Config {
  api_id : option pystr;
  api_hash : option pystr;
  session_base64 : option pystr;
  channel : pystr;
  retry_attempts : Z;
}.

Definition validate `{StrIsDigit} (self : config) : bool :=
  match api_id self, api_hash self with
  | Some (c :: id), Some (h :: hash) =>
      if negb (str_isdigit (c :: id)) then false
      else if negb (length (h :: hash) =? 32)%nat then false
      else match_word (channel self)
  | _, _ => false
  end.

(** *** SecureSessionManager *)

(** [create_session_file]: the bytes written to the session file, which
    gets mode [0o600], and their checksum; [None] when the function
    returns [False], having written nothing. *)
Definition create_session_file (session_base64 : option pystr)
  : option (list N * pystr) :=
  match session_base64 with
  | Some (c :: s) =>
      if match_base64 (c :: s) then
        session_data ← b64decode (c :: s);
        Some (session_data, Sha256.hexdigest session_data)
      else None
  | _ => None
  end.

(** *** MessageParser *)

(** One turn of the loop over the items in [parse_message_content]. *)
Definition limit_field (key : pystr) (value : pyval) : pyval :=
  match value with
  | PStr value =>
      if str_eqb key (py "Content") && (MAX_CONTENT_LENGTH <? length value)%nat
      then PStr (slice_to MAX_CONTENT_LENGTH value)
      else if str_eqb key (py "Source") && (MAX_SOURCE_LENGTH <? length value)%nat
      then PStr (slice_to MAX_SOURCE_LENGTH value)
      else PStr value
  | _ => value
  end.

Definition plain_text_record (clean_text : pystr) : dict :=
  [(py "Content", PStr clean_text); (py "Source", PStr (py "Unknown"));
   (py "Type", PStr (py "Data leak"))].

(** [for attempt in range(attempts)] and the [return] after the loop. A
    [JSONDecodeError] leaves the loop; any other exception leaves the
    function. *)
Fixpoint parse_attempts `{RecursionLimit} (attempts : nat) (clean_text : pystr)
  : result pyval :=
  match attempts with
  | O => Ok (PDict (plain_text_record clean_text))
  | S attempts' =>
      match Json.loads clean_text with
      | Raise JSONDecodeError => Ok (PDict (plain_text_record clean_text))
      | Raise e => Raise e
      | Ok (PStr parsed) => parse_attempts attempts' parsed
      | Ok (PDict parsed) =>
          Ok (PDict (for_items limit_field (ensure_fields clean_text parsed)))
      | Ok parsed => Ok parsed
      end
  end.

(** [PNone] is the [None] the function returns. *)
Definition parse_message_content `{RecursionLimit} (message_text : pyval)
  : pyval :=
  match message_text with
  | PStr _ =>
      let clean_text := truncate MAX_CONTENT_LENGTH (clean_text message_text) in
      match parse_attempts 2 clean_text with
      | Ok parsed => parsed
      | Raise _ => PNone
      end
  | _ => PNone
  end.

(** The two assignments of [_fetch_messages] that complete a record. *)
Definition with_metadata (parsed_content : dict) (message_id : Z)
    (date_isoformat : pystr) : dict :=
  dict_set (py "timestamp") (PStr date_isoformat)
    (dict_set (py "message_id") (PInt message_id) parsed_content).

(** *** DataProcessor *)

Definition BREACH_INDICATORS : list pystr :=
  [py "leak"; py "breach"; py "hack"; py "compromise"; py "exposed";
   py "stolen"; py "database"; py "credentials"; py "password"; py "email";
   py "personal data"; py "user data"; py "customer data";
   py "financial data"; py "credit card"; py "ssn"; py "social security"].

Definition SPAM_INDICATORS : list pystr :=
  [py "buy"; py "sell"; py "offer"; py "discount"; py "promotion";
   py "service"; py "tool"; py "software"; py "review"; py "rating";
   py "backlink"; py "seo"; py "marketing"; py "advertisement";
   py "sponsored"; py "deal"; py "sale"; py "free trial"].

Definition is_legitimate_breach `{StrLower} (content : pystr) : bool :=
  relevance BREACH_INDICATORS SPAM_INDICATORS content.

(** [msg.get('Content', '').strip()]: only a [str] has [strip]. *)
Definition stripped_content (msg : dict) : result pystr :=
  match dict_get (py "Content") msg with
  | None => Ok (strip [])
  | Some (PStr content) => Ok (strip content)
  | Some _ => Raise AttributeError
  end.

(** [hashlib.sha256(content.encode()).hexdigest()[:16]]. *)
Definition content_hash (content : pystr) : result pystr :=
  bytes ← encode content; Ok (slice_to 16 (Sha256.hexdigest bytes)).

(** The body of both loops of [deduplicate_messages], on the state
    [(seen_hashes, unique_messages)]. *)
Definition dedup_step `{StrLower} (st : gset pystr * list dict) (msg : dict)
  : result (gset pystr * list dict) :=
  content ← stripped_content msg;
  match content with
  | [] => Ok st
  | _ :: _ =>
      if is_legitimate_breach content then
        h ← content_hash content;
        if decide (h ∈ st.1) then Ok st
        else Ok ({[h]} ∪ st.1, st.2 ++ [msg])
      else Ok st
  end.

Definition deduplicate_messages `{StrLower} (existing new : list dict)
  : result (list dict) :=
  st ← for_each dedup_step existing (∅, []);
  st ← for_each dedup_step new st;
  Ok st.2.

Definition validate_message_structure `{StrLower} (message : dict)
  : result bool :=
  if negb (dict_has (py "Content") message) then Ok false
  else
    content ← stripped_content message;
    match content with
    | [] => Ok false
    | _ :: _ =>
        if (MAX_CONTENT_LENGTH <? length content)%nat then Ok false
        else Ok (is_legitimate_breach content)
    end.

(** *** DataManager *)

Definition MAX_MESSAGES : nat := 10000.

(** [save_data]: the list that it serializes, which is [messages] cut to
    the cap. *)
Definition save_data (messages : list dict) : list dict :=
  if (MAX_MESSAGES <? length messages)%nat then take MAX_MESSAGES messages
  else messages.

(** [main], from the fetched batch on: the list that [data.json] is to
    hold after the run, given the list it held before. That is the list
    that [save_data] serializes; nothing is written when the batch is
    empty. *)
Definition update_store `{StrLower} (existing_messages new_messages : list dict)
  : result (list dict) :=
  match new_messages with
  | [] => Ok existing_messages
  | _ :: _ =>
      all_messages ← deduplicate_messages existing_messages new_messages;
      Ok (save_data all_messages)
  end.

(** [load_existing_data], on the text of [data.json], or [None] when there
    is no such file: whatever the text decodes to, provided it has a
    length for the log line; the empty list after any exception. The file
    is taken as the text it holds, written and read as UTF-8. *)
Definition has_len (v : pyval) : bool :=
  match v with PStr _ | PList _ | PDict _ => true | _ => false end.

Definition load_existing_data `{RecursionLimit} (data_file : option pystr)
  : pyval :=
  match data_file with
  | None => PList []
  | Some content =>
      match Json.loads content with
      | Ok data => if has_len data then data else PList []
      | Raise _ => PList []
      end
  end.

(** What [data.json] holds after [save_data] has been given [messages],
    already cut to the cap. The file is opened for writing, which empties
    it, before the text is made and written as UTF-8. [json.dumps] may
    raise, and so does the write of a text that UTF-8 cannot encode;
    [save_data] catches the exception and the file stays empty. [None]: a
    float among the values, whose text is outside the model. *)
Definition written_text `{EncoderStack} (messages : list dict) : option pystr :=
  let data := PList (map PDict messages) in
  if Json.dumps_raises data then Some []
  else
    text ← Json.dumps data;
    Some (if encode text is Ok _ then text else []).

(** *** TelegramFetcher *)

(** [validate_message_structure] on whatever [parse_message_content]
    returned. [field in message] is a key test on a [dict], an element
    test on a [list] and a substring test on a [str], and raises on a value
    that is no container; [message.get] exists on a [dict] only. *)
Definition validate_value `{StrLower} (message : pyval) : result bool :=
  match message with
  | PDict message => validate_message_structure message
  | PList items =>
      if existsb (eq_str (py "Content")) items then Raise AttributeError
      else Ok false
  | PStr s => if contains (py "Content") s then Raise AttributeError else Ok false
  | PNone | PBool _ | PInt _ | PFloat _ => Raise TypeError
  end.

(** What the loop reads of a Telegram message: its text, which may be
    [None], its id, and [message.date.isoformat()]. *)
Record message : Type := Message {
  text : option pystr;
  id : Z;
  date_isoformat : pystr;
}.

(** The body of the loop over [client.iter_messages] in [_fetch_messages],
    on the state [all_messages]. *)
Definition fetch_step `{StrLower} `{RecursionLimit}
    (all_messages : list dict) (message : message) : result (list dict) :=
  match text message with
  | None | Some [] => Ok all_messages
  | Some message_text =>
      let parsed_content := parse_message_content (PStr message_text) in
      if truthy parsed_content then
        valid ← validate_value parsed_content;
        if valid : bool then
          match parsed_content with
          | PDict parsed =>
              Ok (all_messages
                    ++ [with_metadata parsed (id message) (date_isoformat message)])
          | _ => Raise TypeError
          end
        else Ok all_messages
      else Ok all_messages
  end.

(** [_fetch_messages] once the client is connected and the channel found,
    on the messages that [iter_messages] yields: an exception in the loop
    is caught by [except Exception], which returns the empty list. *)
Definition fetched_messages `{StrLower} `{RecursionLimit}
    (messages : list message) : list dict :=
  match for_each fetch_step messages [] with
  | Ok all_messages => all_messages
  | Raise _ => []
  end.

(** What the Telegram client does during one call of [_fetch_messages]:
    the outcome of each of its calls, and the messages that
    [iter_messages] yields before the iteration ends, well or with an
    exception. *)
Record attempt : Type := Attempt {
  client : result unit;
  connected : result unit;
  authorized : result bool;
  entity : result unit;
  yielded : list message;
  iteration : result unit;
  disconnected : result unit;
}.

(** The [try] block of [_fetch_messages]: [Ok] is a [return]. *)
Definition fetch_attempt `{StrLower} `{RecursionLimit}
    (is_github_actions : bool) (self : config) (world : attempt)
  : result (list dict) :=
  if is_github_actions
     && (if create_session_file (session_base64 self) is None then true else false)
  then Ok []
  else
    _ ← client world;
    _ ← connected world;
    authorized ← (if is_github_actions then authorized world else Ok true);
    if negb authorized then Ok []
    else
      match entity world with
      | Raise _ => Ok []
      | Ok _ =>
          all_messages ← for_each fetch_step (yielded world) [];
          _ ← iteration world;
          _ ← disconnected world;
          Ok all_messages
      end.

(** [_fetch_messages]: each of the three [except] clauses returns the
    empty list. *)
Definition _fetch_messages `{StrLower} `{RecursionLimit}
    (is_github_actions : bool) (self : config) (world : attempt)
  : result (list dict) :=
  if is_github_actions
     && (if session_base64 self is Some (_ :: _) then false else true)
  then Ok []
  else
    match fetch_attempt is_github_actions self world with
    | Ok all_messages => Ok all_messages
    | Raise _ => Ok []
    end.

(** [fetch_messages_with_retry]: the loop over [range(retry_attempts)],
    from the turn [attempt] on with [turns] turns left; [worlds] tells
    what the client does in each turn. *)
Fixpoint retry_loop `{StrLower} `{RecursionLimit}
    (is_github_actions : bool) (self : config) (worlds : nat → attempt)
    (turns attempt : nat) : list dict :=
  match turns with
  | O => []
  | S turns' =>
      match _fetch_messages is_github_actions self (worlds attempt) with
      | Ok all_messages => all_messages
      | Raise FloodWaitError =>
          retry_loop is_github_actions self worlds turns' (S attempt)
      | Raise _ =>
          match turns' with
          | O => []
          | S _ => retry_loop is_github_actions self worlds turns' (S attempt)
          end
      end
  end.

Definition fetch_messages_with_retry `{StrLower} `{RecursionLimit}
    (is_github_actions : bool) (self : config) (worlds : nat → attempt)
  : list dict :=
  retry_loop is_github_actions self worlds (Z.to_nat (retry_attempts self)) 0.

(** [main], from the messages of the channel on. *)
Definition run `{StrLower} `{RecursionLimit}
    (existing_messages : list dict) (messages : list message)
  : result (list dict) :=
  update_store existing_messages (fetched_messages messages).

(** [for msg in existing] on what [load_existing_data] returned: the items
    of a [list], the keys of a [dict], the characters of a [str]. *)
Definition iterate (v : pyval) : result (list pyval) :=
  match v with
  | PList items => Ok items
  | PDict items => Ok (map (λ kv, PStr kv.1) items)
  | PStr s => Ok (map (λ c, PStr [c]) s)
  | _ => Raise TypeError
  end.

(** The first loop of [deduplicate_messages] on such items: only a [dict]
    has [get]. *)
Definition dedup_value_step `{StrLower} (st : gset pystr * list dict)
    (msg : pyval) : result (gset pystr * list dict) :=
  match msg with
  | PDict msg => dedup_step st msg
  | _ => Raise AttributeError
  end.

(** [main], from the text of [data.json] and the messages of the channel,
    up to the write: the list that [save_data] serializes, [None] when
    [save_data] is not called. What the file holds afterwards is
    [written_text] of that list. *)
Definition main `{StrLower} `{RecursionLimit}
    (data_file : option pystr) (messages : list message)
  : result (option (list dict)) :=
  match fetched_messages messages with
  | [] => Ok None
  | new_messages =>
      existing_messages ← iterate (load_existing_data data_file);
      st ← for_each dedup_value_step existing_messages (∅, []);
      st ← for_each dedup_step new_messages st;
      Ok (Some (save_data st.2))
  end.

End SecureSession.

(** ** fetch_entire_history.py *)

Module EntireHistory.

Definition BREACH_INDICATORS : list pystr :=
  [py "leak"; py "breach"; py "hack"; py "compromise"; py "exposed";
   py "stolen"; py "database"; py "credentials"; py "password"; py "email";
   py "personal data"; py "user data"; py "customer data";
   py "financial data"; py "credit card"; py "ssn"; py "social security";
   py "dump"; py "database"; py "records"; py "accounts"; py "users";
   py "customers"; py "financial"; py "banking"; py "payment";
   py "transaction"; py "identity"; py "personal"; py "address"; py "phone";
   py "dob"; py "date of birth"; py "national id"; py "passport"].

Definition SPAM_INDICATORS : list pystr :=
  [py "buy"; py "sell"; py "offer"; py "discount"; py "promotion";
   py "service"; py "tool"; py "software"; py "review"; py "rating";
   py "backlink"; py "seo"; py "marketing"; py "advertisement";
   py "sponsored"; py "deal"; py "sale"; py "free trial"; py "subscribe";
   py "join"; py "telegram.me"; py "t.me"; py "channel"; py "group";
   py "bot"; py "premium"].

Definition is_relevant_breach `{StrLower} (content : pystr) : bool :=
  relevance BREACH_INDICATORS SPAM_INDICATORS content.

(** One turn of the loop over the items in [parse_json_message], which
    also checks the breach type. *)
Definition limit_field (key : pystr) (value : pyval) : pyval :=
  match value with
  | PStr value =>
      if str_eqb key (py "Content") && (MAX_CONTENT_LENGTH <? length value)%nat
      then PStr (slice_to MAX_CONTENT_LENGTH value)
      else if str_eqb key (py "Source") && (MAX_SOURCE_LENGTH <? length value)%nat
      then PStr (slice_to MAX_SOURCE_LENGTH value)
      else if str_eqb key (py "Type") then
        if existsb (str_eqb value) ALLOWED_BREACH_TYPES then PStr value
        else PStr (py "Other")
      else PStr value
  | _ => value
  end.

(** The relevance test that ends the [dict] branch. A [Content] that is
    not a [str] is either falsy, hence not relevant, or has no [lower],
    which raises inside the [try]: [None] both times. *)
Definition relevant_or_none `{StrLower} (parsed : dict) : pyval :=
  match dict_get (py "Content") parsed with
  | Some (PStr content) =>
      if is_relevant_breach content then PDict parsed else PNone
  | _ => PNone
  end.

Fixpoint parse_attempts `{StrLower} `{RecursionLimit}
    (attempts : nat) (clean_text : pystr) : result pyval :=
  match attempts with
  | O => Ok PNone
  | S attempts' =>
      match Json.loads clean_text with
      | Raise JSONDecodeError => Ok PNone
      | Raise e => Raise e
      | Ok (PStr parsed) => parse_attempts attempts' parsed
      | Ok (PDict parsed) =>
          Ok (relevant_or_none
                (for_items limit_field (ensure_fields clean_text parsed)))
      | Ok _ => Ok PNone
      end
  end.

Definition parse_json_message `{StrLower} `{RecursionLimit}
    (message_text : pyval) : pyval :=
  match message_text with
  | PStr _ =>
      let clean_text := truncate MAX_CONTENT_LENGTH (clean_text message_text) in
      match parse_attempts 2 clean_text with
      | Ok parsed => parsed
      | Raise _ => PNone
      end
  | _ => PNone
  end.

(** The loop of [is_json_message]: a value that is neither a [dict] nor a
    [str] leaves [clean_text] as it is for the next turn. *)
Fixpoint is_json_attempts `{RecursionLimit} (attempts : nat) (clean_text : pystr)
  : result bool :=
  match attempts with
  | O => Ok false
  | S attempts' =>
      match Json.loads clean_text with
      | Raise JSONDecodeError => Ok false
      | Raise e => Raise e
      | Ok (PDict _) => Ok true
      | Ok (PStr parsed) => is_json_attempts attempts' parsed
      | Ok _ => is_json_attempts attempts' clean_text
      end
  end.

Definition is_json_message `{RecursionLimit} (text : pyval) : bool :=
  match is_json_attempts 2 (clean_text text) with
  | Ok answer => answer
  | Raise _ => false
  end.

(** [parsed_content.get('Content', '').encode()], hashed. *)
Definition hash_id_of (parsed_content : dict) : result pystr :=
  match dict_get (py "Content") parsed_content with
  | None => SecureSession.content_hash []
  | Some (PStr content) => SecureSession.content_hash content
  | Some _ => Raise AttributeError
  end.

(** The body of the loop over [client.iter_messages] in
    [fetch_entire_history], on the state [all_messages]. *)
Definition fetch_step `{StrLower} `{RecursionLimit}
    (all_messages : list dict) (message : SecureSession.message)
  : result (list dict) :=
  match SecureSession.text message with
  | None | Some [] => Ok all_messages
  | Some message_text =>
      if is_json_message (PStr message_text) then
        let parsed_content := parse_json_message (PStr message_text) in
        if truthy parsed_content then
          match parsed_content with
          | PDict parsed =>
              let parsed :=
                dict_set (py "timestamp")
                  (PStr (SecureSession.date_isoformat message))
                  (dict_set (py "message_id") (PInt (SecureSession.id message))
                     parsed) in
              hash_id ← hash_id_of parsed;
              Ok (all_messages ++ [dict_set (py "hash_id") (PStr hash_id) parsed])
          | _ => Raise TypeError
          end
        else Ok all_messages
      else Ok all_messages
  end.

(** [fetch_entire_history] once the client is connected and the channel
    found, on the messages that [iter_messages] yields. *)
Definition fetched_messages `{StrLower} `{RecursionLimit}
    (messages : list SecureSession.message) : list dict :=
  match for_each fetch_step messages [] with
  | Ok all_messages => all_messages
  | Raise _ => []
  end.

(** [create_session_file], which keeps no checksum. *)
Definition create_session_file (session_base64 : option pystr)
  : option (list N) :=
  match session_base64 with
  | Some (c :: s) => if match_base64 (c :: s) then b64decode (c :: s) else None
  | _ => None
  end.

(** What a set of hash ids holds: a [str], or a number, as which [True]
    is 1. *)
Definition hash_key : Type := pystr + Z.

(** What [save_data] makes of [msg.get('hash_id')]: the key under which
    the message is filed, [Ok None] for a falsy value, and [TypeError] for
    a list or dict that is not empty, which cannot be looked up in a set.
    The outer [None]: a float that is not zero, whose equality with other
    numbers is outside the model. *)
Definition hash_id_key (msg : dict) : option (result (option hash_key)) :=
  match dict_get (py "hash_id") msg with
  | None | Some PNone => Some (Ok None)
  | Some (PBool b) => Some (Ok (if b then Some (inr 1%Z) else None))
  | Some (PInt n) => Some (Ok (if (n =? 0)%Z then None else Some (inr n)))
  | Some (PFloat lexeme) => if float_is_zero lexeme then Some (Ok None) else None
  | Some (PStr h) => Some (Ok (if h is [] then None else Some (inl h)))
  | Some (PList items) => Some (if items is [] then Ok None else Raise TypeError)
  | Some (PDict items) => Some (if items is [] then Ok None else Raise TypeError)
  end.

(** The first loop of [save_data], on [(seen_hashes, unique_messages)]. *)
Fixpoint unique_by_hash_id (messages : list dict) (seen_hashes : gset hash_key)
    (unique_messages : list dict) : option (result (list dict)) :=
  match messages with
  | [] => Some (Ok unique_messages)
  | msg :: messages' =>
      match hash_id_key msg with
      | None => None
      | Some (Raise e) => Some (Raise e)
      | Some (Ok None) => unique_by_hash_id messages' seen_hashes unique_messages
      | Some (Ok (Some hash_id)) =>
          if decide (hash_id ∈ seen_hashes)
          then unique_by_hash_id messages' seen_hashes unique_messages
          else unique_by_hash_id messages' ({[hash_id]} ∪ seen_hashes)
                 (unique_messages ++ [msg])
      end
  end.

(** [x.get('timestamp', '')]. *)
Definition timestamp_of (msg : dict) : pyval :=
  default (PStr []) (dict_get (py "timestamp") msg).

(** The keys that [<] compares with one another: strings, and numbers, as
    which [True] and [False] are 1 and 0. *)
Definition str_key (v : pyval) : option pystr :=
  match v with PStr s => Some s | _ => None end.

Definition int_key (v : pyval) : option Z :=
  match v with
  | PInt n => Some n
  | PBool b => Some (if b then 1 else 0)%Z
  | _ => None
  end.

(** Keys whose order is outside the model: a float, and a list, which is
    compared item by item. *)
Definition unmodelled_key (v : pyval) : bool :=
  match v with PFloat _ | PList _ => true | _ => false end.

(** The messages with their keys, when [key] reads every one. *)
Definition keyed {K : Type} (key : pyval → option K) (messages : list dict)
  : option (list (K * dict)) :=
  mapM (λ msg, k ← key (timestamp_of msg); Some (k, msg)) messages.

(** [list.sort(key=..., reverse=True)] on keys that [ltb] orders: greatest
    key first, messages of equal keys in the order they had. *)
Fixpoint insert_newest {K : Type} (ltb : K → K → bool) (x : K * dict)
    (sorted : list (K * dict)) : list (K * dict) :=
  match sorted with
  | [] => [x]
  | y :: sorted' =>
      if ltb y.1 x.1 then x :: sorted else y :: insert_newest ltb x sorted'
  end.

Definition sort_newest_first {K : Type} (ltb : K → K → bool)
    (keyed : list (K * dict)) : list (K * dict) :=
  fold_left (λ sorted x, insert_newest ltb x sorted) keyed [].

(** [unique_messages.sort(key=lambda x: x.get('timestamp', ''),
    reverse=True)]. One message, or none, is compared with nothing.
    Strings are compared with strings and numbers with numbers; [<] raises
    [TypeError] between a string and a number and on [None] or a [dict],
    and no sort of several messages ends without comparing each of them
    with another and, where there are keys of two kinds, two keys of
    different kinds. [None]: a float or a list among the keys of several
    messages, outside the model. *)
Definition sort_by_timestamp (unique_messages : list dict)
  : option (result (list dict)) :=
  match unique_messages with
  | [] | [_] => Some (Ok unique_messages)
  | _ =>
      if existsb (λ msg, unmodelled_key (timestamp_of msg)) unique_messages
      then None
      else
        match keyed str_key unique_messages, keyed int_key unique_messages with
        | Some keyed, _ => Some (Ok (map snd (sort_newest_first str_ltb keyed)))
        | None, Some keyed => Some (Ok (map snd (sort_newest_first Z.ltb keyed)))
        | None, None => Some (Raise TypeError)
        end
  end.

(** [save_data], up to the writes: the list that is handed to [json.dump],
    for [data.json] and for the backup, or the exception that is caught
    and logged before a file is opened. The outer [None]: a value outside
    the model, as said at [hash_id_key] and [sort_by_timestamp]. *)
Definition save_data (messages : list dict) : option (result (list dict)) :=
  match unique_by_hash_id messages ∅ [] with
  | None => None
  | Some (Raise e) => Some (Raise e)
  | Some (Ok unique_messages) => sort_by_timestamp unique_messages
  end.

(** [main], from the messages of the channel on: what [save_data] does,
    [None] when it is not called. *)
Definition main `{StrLower} `{RecursionLimit}
    (messages : list SecureSession.message)
  : option (option (result (list dict))) :=
  match fetched_messages messages with
  | [] => None
  | new_messages => Some (save_data new_messages)
  end.

End EntireHistory.

(** * Specification vocabulary *)

(** [sub] occurs in [s]: what [contains] decides. *)
Definition occurs_in (sub s : pystr) : Prop := ∃ before after, s = before ++ sub ++ after.

(** Neither a [str] nor a [dict] with a key. *)
Definition keyless (v : pyval) : Prop :=
  match v with
  | PStr _ => False
  | PDict (_ :: _) => False
  | _ => True
  end.

Definition is_dict (v : pyval) : bool :=
  match v with PDict _ => true | _ => false end.

(** The characters of a JSON text that is an empty object. *)
Definition brace_or_ws (c : N) : Prop := Json.is_ws c = true ∨ c = 123 ∨ c = 125.

(** A keyword that begins with a small letter. *)
Definition starts_lower (k : pystr) : bool :=
  match k with a :: _ => (97 <=? a) && (a <=? 122) | [] => false end.

(** ** The merge as a selection

    Of a list of items filed under optional keys, the first item of each
    key that is not yet in [seen]; items without a key are passed over. *)

Section FirstSeen.
Context {A K : Type} `{Countable K} (key : A → option K).

Fixpoint first_seen (seen : gset K) (xs : list A) : list A :=
  match xs with
  | [] => []
  | x :: xs' =>
      match key x with
      | Some h =>
          if decide (h ∈ seen) then first_seen seen xs'
          else x :: first_seen ({[h]} ∪ seen) xs'
      | None => first_seen seen xs'
      end
  end.

Definition keyset (xs : list A) : gset K := list_to_set (omap key xs).

(** For each item, whether [first_seen] keeps it. *)
Fixpoint first_seen_flags (seen : gset K) (xs : list A) : list bool :=
  match xs with
  | [] => []
  | x :: xs' =>
      match key x with
      | Some h =>
          if decide (h ∈ seen) then false :: first_seen_flags seen xs'
          else true :: first_seen_flags ({[h]} ∪ seen) xs'
      | None => false :: first_seen_flags seen xs'
      end
  end.

End FirstSeen.

(** The hash under which [deduplicate_messages] files a record: [None]
    when it passes the record over, a raise when its loop body raises. *)
Definition merge_key `{StrLower} (msg : dict) : result (option pystr) :=
  content ← SecureSession.stripped_content msg;
  match content with
  | [] => Ok None
  | _ :: _ =>
      if SecureSession.is_legitimate_breach content
      then h ← SecureSession.content_hash content; Ok (Some h)
      else Ok None
  end.

(** The same, a record that raises having no key. *)
Definition key_of `{StrLower} (msg : dict) : option pystr :=
  match merge_key msg with Ok k => k | Raise _ => None end.

(** What the first record that raises raises. *)
Fixpoint first_raise `{StrLower} (msgs : list dict) : option exn :=
  match msgs with
  | [] => None
  | msg :: rest =>
      match merge_key msg with
      | Raise e => Some e
      | Ok _ => first_raise rest
      end
  end.

(** The content hash of a record: of its stripped [Content]. *)
Definition record_hash (msg : dict) : result pystr :=
  content ← SecureSession.stripped_content msg; SecureSession.content_hash content.

(** The record passes the test of the merge: its stripped [Content] is
    not empty and is classified as a breach. *)
Definition passes_filter `{StrLower} (msg : dict) : Prop :=
  ∃ content, SecureSession.stripped_content msg = Ok content ∧ content ≠ []
             ∧ SecureSession.is_legitimate_breach content = true.

(** The record's [Content], when it has one, is a [str] that UTF-8 can
    encode: a record of text, as the data model has it. *)
Definition text_record (msg : dict) : Prop :=
  match dict_get (py "Content") msg with
  | None => True
  | Some (PStr content) => ∃ bytes, encode content = Ok bytes
  | Some _ => False
  end.

(** [n] keywords of the list occur in the text, a keyword that the list
    names twice counting twice. *)
Inductive keyword_count (text : pystr) : list pystr → nat → Prop :=
| count_nil : keyword_count text [] 0
| count_hit keyword keywords n :
    occurs_in keyword text → keyword_count text keywords n →
    keyword_count text (keyword :: keywords) (S n)
| count_miss keyword keywords n :
    ¬ occurs_in keyword text → keyword_count text keywords n →
    keyword_count text (keyword :: keywords) n.

(** [if k not in d: d[k] = v]. *)
Definition set_default (k : pystr) (v : pyval) (d : dict) : dict :=
  if dict_has k d then d else dict_set k v d.

(** The record's breach type is one of the allowed ones. *)
Definition type_allowed (record : dict) : Prop :=
  ∃ t, dict_get (py "Type") record = Some (PStr t) ∧ t ∈ ALLOWED_BREACH_TYPES.

(** The record has a [Content] that is not empty once stripped. *)
Definition has_content (msg : dict) : Prop :=
  ∃ content, SecureSession.stripped_content msg = Ok content ∧ content ≠ [].

(** The keyword neither starts nor ends with a character that [strip]
    removes. *)
Definition trimmed (keyword : pystr) : bool :=
  match keyword, rev keyword with
  | a :: _, b :: _ => negb (is_space a) && negb (is_space b)
  | _, _ => false
  end.

(** The store is in stable relevance state: every record has a [Content]
    that is not empty once stripped and that the classifier accepts, every
    record has a content hash, and no two records share theirs. *)
Definition stable `{StrLower} (store : list dict) : Prop :=
  Forall (λ msg, ∃ content h,
            dict_get (py "Content") msg = Some (PStr content)
            ∧ strip content ≠ []
            ∧ SecureSession.is_legitimate_breach content = true
            ∧ record_hash msg = Ok h) store
  ∧ NoDup (record_hash <$> store).

(** The hashes of the two batches are disjoint from each other and from
    those of the store. *)
Definition disjoint_hashes (store batch1 batch2 : list dict) : Prop :=
  (∀ x y, x ∈ batch1 → y ∈ batch2 → record_hash x ≠ record_hash y)
  ∧ (∀ x y, x ∈ batch1 ++ batch2 → y ∈ store → record_hash x ≠ record_hash y).

(** The loop of [deduplicate_messages], noting at each record whether
    [unique_messages] grew. *)
Fixpoint kept_flags `{StrLower} (msgs : list dict) (st : gset pystr * list dict)
  : result (list bool) :=
  match msgs with
  | [] => Ok []
  | msg :: rest =>
      st' ← SecureSession.dedup_step st msg;
      flags ← kept_flags rest st';
      Ok ((length st.2 <? length st'.2)%nat :: flags)
  end.

(** The items at the positions that are flagged. *)
Fixpoint select {A : Type} (flags : list bool) (xs : list A) : list A :=
  match flags, xs with
  | true :: flags', x :: xs' => x :: select flags' xs'
  | false :: flags', _ :: xs' => select flags' xs'
  | _, _ => []
  end.

(** The two records have the same [Content], or both have none. *)
Definition same_content (a b : dict) : Prop :=
  dict_get (py "Content") a = dict_get (py "Content") b.

(** ** Sample data *)

Definition leak_a : dict :=
  [(py "Content", PStr (py "Database leak one")); (py "Source", PStr (py "a"))].
Definition leak_b : dict :=
  [(py "Content", PStr (py "  Database leak one ")); (py "Source", PStr (py "b"))].
Definition dump_c : dict := [(py "Content", PStr (py "password dump"))].
Definition chat_d : dict := [(py "Content", PStr (py "hello"))].
Definition breach_e : dict :=
  [(py "Content", PStr (py "Security breach at a bank"));
   (py "Source", PStr (py "e"))].
Definition hack_f : dict :=
  [(py "Content", PStr (py "Forum hack, stolen credentials"))].
Definition leak_a_resourced : dict :=
  [(py "Source", PStr (py "elsewhere")); (py "Type", PStr (py "Malware"));
   (py "Content", PStr (py "Database leak one")); (py "message_id", PInt 7)].

Definition scenario_content : pystr :=
  py "Database breach exposed 10000 user credentials".

(** A literal between double quotes. *)
Definition quoted (s : string) : pystr := [34] ++ py s ++ [34].

(** The raw text of the structured-input scenario. *)
Definition scenario_raw : pystr :=
  py "{" ++ quoted "Source" ++ py ": " ++ quoted "test.com" ++ py ", "
    ++ quoted "Content" ++ py ": "
    ++ quoted "Database breach exposed 10000 user credentials" ++ py ", "
    ++ quoted "Type" ++ py ": " ++ quoted "Data leak" ++ py "}".

Definition scenario_cleaned : pystr :=
  py "{Source: test.com, Content: Database breach exposed 10000 user credentials, Type: Data leak}".

(** A message whose [Type] is not an allowed breach type, and what
    [clean_text] makes of it. *)
Definition bogus_raw : pystr :=
  py "{" ++ quoted "Content" ++ py ": "
    ++ quoted "Database breach exposed 10000 user credentials" ++ py ", "
    ++ quoted "Type" ++ py ": " ++ quoted "Bogus" ++ py "}".

Definition bogus_cleaned : pystr :=
  py "{Content: Database breach exposed 10000 user credentials, Type: Bogus}".

(** The plain-text scenario, and its record. *)
Definition plain_raw : pystr := py "Hacked database leaked 50000 passwords".

Definition plain_record : dict :=
  [(py "Content", PStr plain_raw); (py "Source", PStr (py "Unknown"));
   (py "Type", PStr (py "Data leak"))].

Definition plain_serialized : pystr :=
  py "{" ++ [10] ++ py "  " ++ quoted "Content" ++ py ": "
    ++ quoted "Hacked database leaked 50000 passwords" ++ py "," ++ [10]
    ++ py "  " ++ quoted "Source" ++ py ": " ++ quoted "Unknown" ++ py "," ++ [10]
    ++ py "  " ++ quoted "Type" ++ py ": " ++ quoted "Data leak" ++ [10] ++ py "}".

Definition plain_reparsed_content : pystr :=
  py "{" ++ [10] ++ py "  Content: Hacked database leaked 50000 passwords," ++ [10]
    ++ py "  Source: Unknown," ++ [10] ++ py "  Type: Data leak" ++ [10] ++ py "}".

(** One step of the decoder, its helpers left folded. *)
Ltac unfold_scan :=
  cbn -[startswith Json.match_number py drop Json.skip_ws Json.scanstring
        dict_of_pairs rev length].

(** The lengths of the texts that [skip_ws] was applied to, by the lemma
    that bounds them. *)
Ltac note_skips bound :=
  repeat match goal with
  | H : Json.skip_ws ?x = _ |- _ =>
      lazymatch goal with
      | _ : (length (Json.skip_ws x) ≤ length x)%nat |- _ => fail
      | _ => pose proof (bound x)
      end
  | |- context [Json.skip_ws ?x] =>
      lazymatch goal with
      | _ : (length (Json.skip_ws x) ≤ length x)%nat |- _ => fail
      | _ => pose proof (bound x)
      end
  end;
  repeat match goal with
  | H : Json.skip_ws ?x = _, H' : context [length (Json.skip_ws ?x)] |- _ =>
      rewrite H in H'
  end.

(** Comparisons of two literal keys are computed. *)
Ltac eval_keys :=
  repeat match goal with
  | |- context [str_eqb (py ?a) (py ?b)] =>
      let v := eval vm_compute in (str_eqb (py a) (py b)) in
      change (str_eqb (py a) (py b)) with v
  end;
  cbv beta iota.

(** ** Vocabulary of the pipeline

    What the properties of the fetch loop, the store, the session file
    and the history script are stated with. *)

(** *** JSON texts *)

(** A text that does not go on with the number before it. *)
Definition number_end (rest : pystr) : Prop :=
  match rest with
  | [] => True
  | c :: _ => Json.is_digit c = false ∧ c ≠ 46 ∧ c ≠ 101 ∧ c ≠ 69
  end.

(** The size of a value, which bounds the fuel that reading its text takes. *)
Fixpoint weight (v : pyval) : nat :=
  match v with
  | PList items => S (list_sum (map (λ x, S (weight x)) items))
  | PDict items => S (list_sum (map (λ kv, S (weight kv.2)) items))
  | _ => 1
  end.

(** How deep the lists and dicts of a value nest. *)
Fixpoint height (v : pyval) : nat :=
  match v with
  | PList items => S (foldr Nat.max 0%nat (map height items))
  | PDict items => S (foldr Nat.max 0%nat (map (λ kv, height kv.2) items))
  | _ => 0
  end.

(** The keys of every dict in a value are distinct, as those of a Python
    [dict] are. *)
Fixpoint well_formed (v : pyval) : Prop :=
  match v with
  | PList items => foldr and True (map well_formed items)
  | PDict items =>
      NoDup (map fst items) ∧ foldr and True (map (λ kv, well_formed kv.2) items)
  | _ => True
  end.

(** The text of one item of a dict. *)
Definition encode_pair (level : nat) (kv : pystr * pyval) : option pystr :=
  a ← Json.encode_at level kv.2; Some (Json.encode_str kv.1 ++ py ": " ++ a).

(** The text of a list or dict that is not empty, from the texts of its
    items. *)
Definition container (level : nat) (open close : N) (parts : list pystr) : pystr :=
  [open] ++ Json.newline_indent (S level)
    ++ Json.join (44 :: Json.newline_indent (S level)) parts
    ++ Json.newline_indent level ++ [close].

(** What follows an item of a container: a comma and the next items, or
    the closing bracket. *)
Definition following (level : nat) (close : N) (parts : list pystr) (rest : pystr)
  : pystr :=
  match parts with
  | [] => Json.newline_indent level ++ close :: rest
  | _ :: _ =>
      44 :: Json.newline_indent (S level)
        ++ Json.join (44 :: Json.newline_indent (S level)) parts
        ++ Json.newline_indent level ++ close :: rest
  end.

(** No value's text starts with one of these. *)
Definition starts_value (c : N) : Prop :=
  Json.is_ws c = false ∧ c ≠ 93 ∧ c ≠ 125 ∧ c ≠ 44 ∧ c ≠ 58 ∧ c ≠ 0xFEFF.

(** A value whose dicts have distinct keys and that nests no deeper than [depth]. *)
Definition bounded (depth : nat) (v : pyval) : Prop :=
  well_formed v ∧ (height v ≤ depth)%nat.

(** *** Messages and records *)

(** A number or a truth value. *)
Definition is_scalar (v : pyval) : bool :=
  match v with PBool _ | PInt _ | PFloat _ => true | _ => false end.

(** The record that the loop of [_fetch_messages] appends for a message
    with the text [t]. *)
Definition fetched_record (m : SecureSession.message) (t : pystr) : dict :=
  [(py "Content", PStr (truncate MAX_CONTENT_LENGTH (clean_text (PStr t))));
   (py "Source", PStr (py "Unknown"));
   (py "Type", PStr (py "Data leak"));
   (py "message_id", PInt (SecureSession.id m));
   (py "timestamp", PStr (SecureSession.date_isoformat m))].

(** Characters that [clean_text] passes over. *)
Definition numeral_char (c : N) : Prop := c = 45 ∨ 48 ≤ c ≤ 57.

(** [a < b] for two keys of a sort, where [<] is modelled and does not
    raise. *)
Definition key_ltb (a b : pyval) : bool :=
  match EntireHistory.str_key a, EntireHistory.str_key b with
  | Some s, Some t => str_ltb s t
  | _, _ =>
      match EntireHistory.int_key a, EntireHistory.int_key b with
      | Some m, Some n => (m <? n)%Z
      | _, _ => false
      end
  end.

(** [b] may stand after [a] in a list sorted newest first: its timestamp
    is not the greater one. *)
Definition not_older (a b : dict) : Prop :=
  key_ltb (EntireHistory.timestamp_of a) (EntireHistory.timestamp_of b) = false.

(** *** Base64 *)

(** The base64 alphabet (RFC 4648). *)
Definition b64_char (v : N) : N :=
  if v <? 26 then 65 + v else if v <? 52 then 71 + v
  else if v <? 62 then v - 4 else if v =? 62 then 43 else 47.

(** The standard encoding of bytes, padded, as [base64.b64encode] gives it. *)
Fixpoint b64encode (data : list N) : pystr :=
  match data with
  | b1 :: b2 :: b3 :: rest =>
      [b64_char (b1 / 4); b64_char ((b1 mod 4) * 16 + b2 / 16);
       b64_char ((b2 mod 16) * 4 + b3 / 64); b64_char (b3 mod 64)]
        ++ b64encode rest
  | [b1; b2] =>
      [b64_char (b1 / 4); b64_char ((b1 mod 4) * 16 + b2 / 16);
       b64_char ((b2 mod 16) * 4); 61]
  | [b1] => [b64_char (b1 / 4); b64_char ((b1 mod 4) * 16); 61; 61]
  | [] => []
  end.

(** The numbers below [n]. *)
Definition below (n : nat) : list N := map N.of_nat (seq 0 n).

(** ** Sample data of the pipeline *)

(** Messages of the channel: a breach report, one whose text is a number,
    and one whose text is a pair of braces. *)
Definition leak_message : SecureSession.message :=
  SecureSession.Message (Some plain_raw) 41 (py "2024-01-01T10:00:00+00:00").

Definition number_message : SecureSession.message :=
  SecureSession.Message (Some (py "123")) 42 (py "2024-01-02T10:00:00+00:00").

Definition braces_message : SecureSession.message :=
  SecureSession.Message (Some (py "{ }")) 43 (py "2024-01-03T10:00:00+00:00").

(** The text of a store of two records. *)
Definition sample_store_text : pystr :=
  Eval vm_compute in
    default [] (@SecureSession.written_text ample_stack
                  [plain_record; leak_a_resourced]).

(** What a first run that fetches [leak_message] stores, and the text it
    writes. *)
Definition sample_run_stored : list dict :=
  Eval vm_compute in
    match @SecureSession.main ascii_lower 1000%nat None [leak_message] with
    | Ok (Some stored) => stored
    | _ => []
    end.

Definition sample_run_text : pystr :=
  Eval vm_compute in
    default [] (@SecureSession.written_text ample_stack sample_run_stored).

(** Two texts of [data.json]: a store whose one record has a lone
    surrogate for a [Source], written as an escape, and an object with an
    [int] of 4301 digits. *)
Definition surrogate_file : pystr :=
  py "[{" ++ quoted "Content" ++ py ": " ++ quoted "Database leak one" ++ py ", "
    ++ quoted "Source" ++ py ": " ++ [34; 92] ++ py "ud800" ++ [34] ++ py "}]".

Definition long_int_file : pystr :=
  py "{" ++ quoted "n" ++ py ": " ++ repeat 49 4301 ++ py "}".

(** An entry as it is given to the constructor of [BreachEntry], and as the
    constructor leaves it. *)
Definition sample_entry : SecureSession.BreachEntry.t :=
  SecureSession.BreachEntry.Build (py "forum.example") (py "Database leak one")
    (py "<admin>") (py "2024-01-01T10:00:00") (py "Leak") (Some 41%Z) None None.

Definition sample_entry_built : SecureSession.BreachEntry.t :=
  Eval vm_compute in
    match SecureSession.BreachEntry.post_init sample_entry with
    | Ok entry => entry
    | Raise _ => sample_entry
    end.

(** The bytes of a session, which are those of [test_session_data]. *)
Definition sample_session : list N :=
  [116; 101; 115; 116; 95; 115; 101; 115; 115; 105; 111; 110; 95; 100; 97; 116; 97].

(** Messages as [fetch_entire_history] would return them, and what
    [save_data] makes of them. *)
Definition sample_history : list dict :=
  [[(py "Content", PStr (py "Database leak one"));
    (py "timestamp", PStr (py "2024-01-01T10:00:00+00:00"));
    (py "hash_id", PStr (py "aa"))];
   [(py "Content", PStr (py "password dump"));
    (py "timestamp", PStr (py "2024-03-01T10:00:00+00:00"));
    (py "hash_id", PStr (py "bb"))];
   [(py "Content", PStr (py "Database leak one, again"));
    (py "timestamp", PStr (py "2024-02-01T10:00:00+00:00"));
    (py "hash_id", PStr (py "aa"))];
   [(py "Content", PStr (py "Forum hack"));
    (py "timestamp", PStr (py "2024-04-01T10:00:00+00:00"))];
   [(py "Content", PStr (py "Stolen records"));
    (py "timestamp", PStr (py "2024-02-15T10:00:00+00:00"));
    (py "hash_id", PInt 7)];
   [(py "Content", PStr (py "Stolen records, again"));
    (py "timestamp", PStr (py "2024-05-01T10:00:00+00:00"));
    (py "hash_id", PInt 7)]].

Definition sample_history_saved : list dict :=
  Eval vm_compute in
    match EntireHistory.save_data sample_history with
    | Some (Ok out) => out
    | _ => []
    end.

(** * Facts about the runtime model *)

Set Warnings "-clear-no-such-hyp".

(** ** The runtime model on known values *)

Example sha256_abc :
  Sha256.hexdigest (py "abc")
  = py "ba7816bf8f01cfea414140de5dae2223b00361a396177a9cb410ff61f20015ad".
Proof. vm_compute. reflexivity. Qed.

Example sha256_empty :
  Sha256.hexdigest []
  = py "e3b0c44298fc1c149afbf4c8996fb92427ae41e4649b934ca495991b7852b855".
Proof. vm_compute. reflexivity. Qed.

Example content_hash_sample :
  SecureSession.content_hash (py "Database leak one") = Ok (py "dd4c3165e9e79e48")
  ∧ SecureSession.content_hash [0xE9; 0x1F539] = Ok (py "e33efa1a9c5a510f")
  ∧ SecureSession.content_hash [0xD800] = Raise UnicodeEncodeError.
Proof. repeat split; vm_compute; reflexivity. Qed.

Example replace_sample :
  replace (py "abca") (py "X") (py "abcabca") = py "Xbca"
  ∧ replace (py "aa") (py "b") (py "aaa") = py "ba".
Proof. split; reflexivity. Qed.

Example strip_sample :
  strip ([32; 0x1C; 0x1F] ++ py "a" ++ [0x85; 0xA0; 32; 0x2003; 0x200B; 0x3000])
  = py "a" ++ [0x85; 0xA0; 32; 0x2003; 0x200B].
Proof. reflexivity. Qed.

Example loads_samples :
  @Json.loads 1000%nat (py " [1, 2.5e3 , -0, true,null, [ ], { } ] ")
  = Ok (PList [PInt 1; PFloat (py "2.5e3"); PInt 0; PBool true; PNone;
               PList []; PDict []])
  ∧ @Json.loads 1000%nat
      (py "{" ++ quoted "a" ++ py ":1," ++ quoted "a" ++ py ":2,"
         ++ quoted "b" ++ py ":3}")
    = Ok (PDict [(py "a", PInt 2); (py "b", PInt 3)])
  ∧ @Json.loads 1000%nat (quoted "\ud83d\udd39 a\/b\n") = Ok (PStr ([0x1F539] ++ py " a/b" ++ [10]))
  ∧ @Json.loads 1000%nat (py "[1,]") = Raise JSONDecodeError
  ∧ @Json.loads 1000%nat (py "01") = Raise JSONDecodeError
  ∧ @Json.loads 1000%nat (py "1.") = Raise JSONDecodeError
  ∧ @Json.loads 1000%nat (py "-Infinity") = Ok (PFloat (py "-Infinity"))
  ∧ @Json.loads 1000%nat ([0xFEFF] ++ py "{}") = Raise JSONDecodeError
  ∧ @Json.loads 2%nat (py "[[[1]]]") = Raise RecursionError.
Proof. repeat split; vm_compute; reflexivity. Qed.

Example dumps_sample :
  Json.dumps (PList [PDict leak_a; PInt (-120); PList []; PStr [34; 92; 10; 1]])
  = Some (py "[" ++ [10] ++ py "  {" ++ [10]
            ++ py "    " ++ quoted "Content" ++ py ": " ++ quoted "Database leak one"
            ++ py "," ++ [10]
            ++ py "    " ++ quoted "Source" ++ py ": " ++ quoted "a" ++ [10]
            ++ py "  }," ++ [10] ++ py "  -120," ++ [10] ++ py "  []," ++ [10]
            ++ py "  " ++ [34; 92; 34; 92; 92; 92; 110] ++ py "\u0001" ++ [34; 10]
            ++ py "]").
Proof. vm_compute. reflexivity. Qed.

(** ** Facts about the string operations *)

Lemma str_eqb_eq (a b : pystr) : str_eqb a b = true ↔ a = b.
Proof.
  revert b; induction a as [|x a IH]; intros [|y b]; simpl; try (split; congruence).
  rewrite andb_true_iff, N.eqb_eq, IH. split; [intros [-> ->]; reflexivity|].
  intros [= -> ->]. auto.
Qed.

Lemma str_eqb_refl (a : pystr) : str_eqb a a = true.
Proof. apply str_eqb_eq. reflexivity. Qed.

Lemma startswith_spec (p s : pystr) :
  startswith p s = true ↔ ∃ rest, s = p ++ rest.
Proof.
  revert s; induction p as [|x p IH]; intros s; simpl.
  - split; [eauto|reflexivity].
  - destruct s as [|y s].
    + split; [discriminate|intros [r Hr]; discriminate].
    + rewrite andb_true_iff, N.eqb_eq, IH. split.
      * intros [-> [r ->]]. eauto.
      * intros [r [= -> ->]]. eauto.
Qed.

Lemma contains_spec (sub s : pystr) : contains sub s = true ↔ occurs_in sub s.
Proof.
  unfold occurs_in. induction s as [|c s IH]; simpl.
  - rewrite orb_false_r, startswith_spec. split.
    + intros [r Hr]. exists [], r. exact Hr.
    + intros (b & a & H). destruct b; [eauto|discriminate].
  - rewrite orb_true_iff, startswith_spec, IH. split.
    + intros [[r Hr]|(b & a & ->)].
      * exists [], r. exact Hr.
      * exists (c :: b), a. reflexivity.
    + intros (b & a & H). destruct b as [|c' b].
      * left. eauto.
      * right. injection H as -> ->. eauto.
Qed.

Lemma lstrip_decomp (s : pystr) :
  ∃ ws, s = ws ++ lstrip s ∧ Forall (λ c, is_space c = true) ws.
Proof.
  induction s as [|c s (ws & Hs & Hws)]; simpl.
  - exists []. auto.
  - destruct (is_space c) eqn:Hc.
    + exists (c :: ws). split; [simpl; congruence|constructor; assumption].
    + exists []. auto.
Qed.

Lemma strip_decomp (s : pystr) :
  ∃ l r, s = l ++ strip s ++ r
         ∧ Forall (λ c, is_space c = true) l ∧ Forall (λ c, is_space c = true) r.
Proof.
  unfold strip, rstrip.
  destruct (lstrip_decomp s) as (l & Hs & Hl).
  destruct (lstrip_decomp (rev (lstrip s))) as (r & Hr & Hrs).
  exists l, (rev r). split; [|split; [assumption|apply Forall_rev; assumption]].
  rewrite <- rev_app_distr, <- Hr, rev_involutive. exact Hs.
Qed.

Lemma strip_Forall (P : N → Prop) (s : pystr) : Forall P s → Forall P (strip s).
Proof.
  intros H. destruct (strip_decomp s) as (l & r & Hs & _ & _).
  rewrite Hs in H. rewrite !Forall_app in H. tauto.
Qed.

Lemma truncate_Forall (P : N → Prop) (n : nat) (s : pystr) :
  Forall P s → Forall P (truncate n s).
Proof.
  intros H. unfold truncate, slice_to. destruct (n <? length s)%nat; [|assumption].
  apply Forall_take. assumption.
Qed.

Lemma truncate_length (n : nat) (s : pystr) : (length (truncate n s) ≤ n)%nat.
Proof.
  unfold truncate, slice_to. destruct (Nat.ltb_spec n (length s)).
  - rewrite length_take. lia.
  - lia.
Qed.

Lemma truncate_short (n : nat) (s : pystr) : (length s ≤ n)%nat → truncate n s = s.
Proof.
  intros H. unfold truncate. destruct (Nat.ltb_spec n (length s)); [lia|reflexivity].
Qed.

Lemma re_sub_class_Forall (chars s : pystr) :
  Forall (λ c, c ∉ chars) (re_sub_class chars s).
Proof.
  unfold re_sub_class. apply Forall_forall. intros c Hc.
  apply list_elem_of_In, filter_In in Hc. destruct Hc as [_ Hc].
  apply negb_true_iff in Hc. intros Hin.
  assert (existsb (N.eqb c) chars = true); [|congruence].
  apply existsb_exists. exists c. split; [apply list_elem_of_In; assumption|apply N.eqb_refl].
Qed.

(** [clean_text] leaves no double quote. *)
Lemma clean_text_unquoted (text : pyval) : Forall (λ c, c ≠ 34) (clean_text text).
Proof.
  destruct text; try constructor.
  unfold clean_text. apply strip_Forall.
  eapply Forall_impl; [apply re_sub_class_Forall|].
  intros c Hc ->. apply Hc. set_solver.
Qed.

Lemma skip_ws_Forall (P : N → Prop) (s : pystr) :
  Forall P s → Forall P (Json.skip_ws s).
Proof.
  induction 1 as [|c s Hc Hs IH]; simpl; [constructor|].
  destruct (Json.is_ws c); [assumption|constructor; assumption].
Qed.

Lemma match_number_keyless (s : pystr) (r : pyval * pystr) :
  Json.match_number s = Some (Ok r) → keyless r.1.
Proof.
  unfold Json.match_number.
  destruct (Json.int_part _) as [integer|]; [|discriminate].
  cbn [mbind option_bind]. intros [= Hr]. revert Hr.
  repeat case_match; intros [= <-]; exact I.
Qed.

Lemma array_items_keyless (fuel depth : nat) (s : pystr) (acc : list pyval)
    (r : pyval * pystr) :
  Json.array_items fuel depth s acc = Ok r → keyless r.1.
Proof.
  revert s acc. induction fuel as [|fuel IH]; intros s acc; [discriminate|].
  simpl. destruct (Json.scan_once fuel depth s) as [[v rest]|]; [|discriminate].
  simpl. destruct (Json.skip_ws rest) as [|c s1]; [discriminate|].
  destruct (c =? 93); [intros [= <-]; exact I|].
  destruct (c =? 44); [apply IH|discriminate].
Qed.

Lemma scan_once_unquoted (fuel depth : nat) (s : pystr) (r : pyval * pystr) :
  Forall (λ c, c ≠ 34) s → Json.scan_once fuel depth s = Ok r → keyless r.1.
Proof.
  intros Hs. destruct fuel as [|fuel]; [discriminate|].
  destruct s as [|c s1]; [discriminate|].
  cbn -[startswith Json.match_number py drop].
  apply Forall_cons in Hs as [Hc Hs1].
  destruct (N.eqb_spec c 34); [contradiction|].
  destruct (c =? 123).
  { destruct depth; [discriminate|].
    pose proof (skip_ws_Forall _ _ Hs1) as Hw.
    destruct (Json.skip_ws s1) as [|c' s2]; [discriminate|].
    apply Forall_cons in Hw as [Hc' _].
    destruct (c' =? 125); [intros [= <-]; exact I|].
    destruct (N.eqb_spec c' 34); [contradiction|discriminate]. }
  destruct (c =? 91).
  { destruct depth; [discriminate|].
    destruct (Json.skip_ws s1) as [|c' s2]; [discriminate|].
    destruct (c' =? 93); [intros [= <-]; exact I|].
    apply array_items_keyless. }
  repeat case_match; intros; simplify_eq; try exact I.
  eapply match_number_keyless. eassumption.
Qed.

Lemma loads_unquoted `{RecursionLimit} (s : pystr) (v : pyval) :
  Forall (λ c, c ≠ 34) s → Json.loads s = Ok v → keyless v.
Proof.
  intros Hs. unfold Json.loads.
  destruct (startswith [65279] s); [discriminate|].
  destruct (Json.scan_once _ _ _) as [r|] eqn:Hr; [|discriminate].
  simpl. destruct (Json.skip_ws r.2); [|discriminate].
  intros [= <-]. eapply scan_once_unquoted; [|exact Hr].
  apply skip_ws_Forall. assumption.
Qed.

(** ** Objects of a text without quotes

    A text without a double quote decodes to a [dict] only when it is an
    empty pair of braces, with whitespace at most around and between. *)

Lemma skip_ws_decomp (s : pystr) :
  ∃ ws, s = ws ++ Json.skip_ws s ∧ Forall (λ c, Json.is_ws c = true) ws.
Proof.
  induction s as [|c s (ws & Hs & Hws)]; [exists []; split; [reflexivity|constructor]|].
  simpl. destruct (Json.is_ws c) eqn:Hc.
  - exists (c :: ws). split; [simpl; congruence|constructor; assumption].
  - exists []. split; [reflexivity|constructor].
Qed.

Lemma match_number_not_dict (s : pystr) (r : pyval * pystr) :
  Json.match_number s = Some (Ok r) → is_dict r.1 = false.
Proof.
  unfold Json.match_number.
  destruct (Json.int_part _) as [integer|]; [|discriminate].
  cbn [mbind option_bind]. intros [= Hr]. revert Hr.
  repeat case_match; intros [= <-]; reflexivity.
Qed.

Lemma array_items_not_dict (fuel depth : nat) (s : pystr) (acc : list pyval)
    (r : pyval * pystr) :
  Json.array_items fuel depth s acc = Ok r → is_dict r.1 = false.
Proof.
  revert s acc. induction fuel as [|fuel IH]; intros s acc; [discriminate|].
  simpl. destruct (Json.scan_once fuel depth s) as [[v rest]|]; [|discriminate].
  simpl. destruct (Json.skip_ws rest) as [|c s1]; [discriminate|].
  destruct (c =? 93); [intros [= <-]; reflexivity|].
  destruct (c =? 44); [apply IH|discriminate].
Qed.

Lemma scan_once_empty_dict (fuel depth : nat) (s rest : pystr) (d : dict) :
  Forall (λ c, c ≠ 34) s →
  Json.scan_once fuel depth s = Ok (PDict d, rest) →
  d = [] ∧ ∃ ws, s = 123 :: ws ++ 125 :: rest ∧ Forall (λ c, Json.is_ws c = true) ws.
Proof.
  intros Hs. destruct fuel as [|fuel]; [discriminate|].
  destruct s as [|c s1]; [discriminate|].
  unfold_scan.
  apply Forall_cons in Hs as [Hc Hs1].
  destruct (N.eqb_spec c 34); [contradiction|].
  destruct (N.eqb_spec c 123) as [->|_].
  { destruct depth; [discriminate|].
    pose proof (skip_ws_Forall _ _ Hs1) as Hw.
    destruct (skip_ws_decomp s1) as (ws & Hdec & Hws).
    destruct (Json.skip_ws s1) as [|c' s2]; [discriminate|].
    apply Forall_cons in Hw as [Hc' _].
    destruct (N.eqb_spec c' 125) as [->|_].
    - intros [= <- <-]. split; [reflexivity|]. exists ws. rewrite Hdec at 1. auto.
    - destruct (N.eqb_spec c' 34); [contradiction|discriminate]. }
  destruct (c =? 91).
  { destruct depth; [discriminate|].
    destruct (Json.skip_ws s1) as [|c' s2] eqn:Hsk; [discriminate|].
    destruct (c' =? 93); [discriminate|].
    intros Ha. apply array_items_not_dict in Ha. discriminate. }
  repeat (case_match; try discriminate).
  intros ->. match goal with H : Json.match_number _ = Some (Ok _) |- _ =>
    apply match_number_not_dict in H; discriminate end.
Qed.

Lemma loads_dict_braces `{RecursionLimit} (s : pystr) (d : dict) :
  Forall (λ c, c ≠ 34) s → Json.loads s = Ok (PDict d) →
  d = [] ∧ Forall brace_or_ws s.
Proof.
  intros Hs. unfold Json.loads.
  destruct (startswith [65279] s); [discriminate|].
  destruct (Json.scan_once _ _ _) as [[v rest]|] eqn:Hr; [|discriminate].
  cbn [mbind result_bind fst snd].
  destruct (skip_ws_decomp rest) as (ws3 & Hrest & Hws3).
  destruct (Json.skip_ws rest); [|discriminate].
  intros [= ->].
  apply scan_once_empty_dict in Hr as [-> (ws2 & Hsk & Hws2)];
    [|apply skip_ws_Forall; assumption].
  split; [reflexivity|].
  destruct (skip_ws_decomp s) as (ws1 & Hdec & Hws1).
  rewrite Hdec, Hsk, Hrest, app_nil_r.
  assert (∀ l, Forall (λ c, Json.is_ws c = true) l → Forall brace_or_ws l) as Hw.
  { intros l Hl. eapply Forall_impl; [exact Hl|]. intros c Hc. left. exact Hc. }
  apply Forall_app. split; [auto|].
  constructor; [right; left; reflexivity|].
  apply Forall_app. split; [auto|].
  constructor; [right; right; reflexivity|auto].
Qed.

(** ** The decoder's fuel *)

Lemma skip_ws_length (s : pystr) : (length (Json.skip_ws s) ≤ length s)%nat.
Proof.
  induction s as [|c s IH]; simpl; [lia|].
  destruct (Json.is_ws c); simpl; lia.
Qed.

Lemma scanstring_length (s : pystr) (r : pystr * pystr) :
  Json.scanstring s = Ok r → (length r.2 < length s)%nat.
Proof.
  remember (length s) as n eqn:Hn. revert s r Hn.
  induction (lt_wf n) as [n _ IH]. intros s r -> Hs.
  assert (∀ s' r', (length s' < length s)%nat → Json.scanstring s' = Ok r' →
                   (length r'.2 < length s')%nat) as IH'
    by (intros s' r' Hlt; exact (IH _ Hlt s' r' eq_refl)).
  clear IH. destruct s as [|c s1]; [discriminate|].
  cbn [Json.scanstring] in Hs.
  repeat match type of Hs with
  | (if ?b then _ else _) = _ => destruct b
  | match ?x with _ => _ end = _ => destruct x eqn:?
  | Ok _ = Ok _ => injection Hs as <-
  | Raise _ = Ok _ => discriminate
  | (_ ≫= _) = _ => unfold mbind, result_bind in Hs
  end; cbn [fst snd length] in *; try lia.
  all: match goal with
       | H : Json.scanstring _ = Ok _ |- _ => apply IH' in H
       end; unfold pystr in *; cbn [length] in *; lia.
Qed.

Lemma digits_length (s : pystr) : (length (Json.digits s).2 ≤ length s)%nat.
Proof.
  induction s as [|c s IH]; simpl; [lia|].
  destruct (Json.is_digit c); simpl; lia.
Qed.

Lemma match_number_length (s : pystr) (r : pyval * pystr) :
  Json.match_number s = Some (Ok r) → (length r.2 < length s)%nat.
Proof.
  unfold Json.match_number.
  assert ((length (Json.minus_part s).2 ≤ length s)%nat) as Hminus.
  { unfold Json.minus_part. repeat case_match; simpl; lia. }
  destruct (Json.int_part _) as [integer|] eqn:Hint; [|discriminate].
  cbn [mbind option_bind]. intros [= Hr].
  assert (r.2 = (Json.exp_part (Json.frac_part integer.2).2).2) as ->
    by (revert Hr; repeat case_match; intros [= <-]; reflexivity).
  clear Hr.
  assert ((length integer.2 < length (Json.minus_part s).2)%nat) as Hinteger.
  { revert Hint. unfold Json.int_part.
    destruct (Json.minus_part s).2 as [|c s']; [discriminate|].
    pose proof (digits_length s').
    repeat case_match; intros; simplify_eq; simpl; lia. }
  assert ((length (Json.frac_part integer.2).2 ≤ length integer.2)%nat) as Hfrac.
  { unfold Json.frac_part. destruct integer.2 as [|p [|d s']]; simpl; try lia.
    pose proof (digits_length s'). case_match; simpl; lia. }
  assert (∀ t, (length (Json.exp_part t).2 ≤ length t)%nat) as Hexp.
  { intros t. unfold Json.exp_part. destruct t as [|e t']; simpl; [lia|].
    assert ((length (Json.sign_part t').2 ≤ length t')%nat) as Hsign
      by (unfold Json.sign_part; repeat case_match; simpl; lia).
    pose proof (digits_length (Json.sign_part t').2).
    repeat case_match; simpl; lia. }
  specialize (Hexp (Json.frac_part integer.2).2). lia.
Qed.

Lemma scan_consumes (fuel : nat) :
  ∀ depth s r,
    (Json.scan_once fuel depth s = Ok r → (length r.2 < length s)%nat)
    ∧ (∀ acc, Json.array_items fuel depth s acc = Ok r → (length r.2 < length s)%nat)
    ∧ (∀ acc, Json.object_items fuel depth s acc = Ok r → (length r.2 < length s)%nat).
Proof.
  induction fuel as [|fuel IH]; intros depth s r;
    [repeat split; intros; discriminate|].
  split; [|split].
  - destruct s as [|c s1]; [discriminate|]. unfold_scan.
    destruct (c =? 34).
    { destruct (Json.scanstring s1) as [k|] eqn:Hk; [|discriminate].
      apply scanstring_length in Hk. intros [= <-]. unfold pystr in *. simpl in *. lia. }
    destruct (c =? 123).
    { destruct depth; [discriminate|].
      destruct (Json.skip_ws s1) as [|c' s2] eqn:Hw; [discriminate|]. note_skips skip_ws_length.
      destruct (c' =? 125); [intros [= <-]; simpl in *; lia|].
      destruct (c' =? 34); [|discriminate].
      intros Ho%IH. unfold pystr in *. simpl in *. lia. }
    destruct (c =? 91).
    { destruct depth; [discriminate|].
      destruct (Json.skip_ws s1) as [|c' s2] eqn:Hw; [discriminate|]. note_skips skip_ws_length.
      destruct (c' =? 93); [intros [= <-]; simpl in *; lia|].
      intros Ha%IH. unfold pystr in *. simpl in *. lia. }
    repeat case_match; intros; simplify_eq; cbn [fst snd length drop];
      rewrite ?length_drop; try lia.
    match goal with H : Json.match_number _ = Some (Ok _) |- _ =>
      apply match_number_length in H; unfold pystr in *; simpl in *; lia end.
  - intros acc. unfold_scan.
    destruct (Json.scan_once fuel depth s) as [item|] eqn:Hitem; [|discriminate].
    apply IH in Hitem. unfold_scan.
    destruct (Json.skip_ws item.2) as [|c s1] eqn:Hw; [discriminate|]. note_skips skip_ws_length.
    destruct (c =? 93); [intros [= <-]; unfold pystr in *; simpl in *; lia|].
    destruct (c =? 44); [|discriminate].
    intros Ha%IH. note_skips skip_ws_length. unfold pystr in *. simpl in *. lia.
  - intros acc. unfold_scan.
    destruct (Json.scanstring s) as [k|] eqn:Hk; [|discriminate].
    apply scanstring_length in Hk. unfold_scan.
    destruct (Json.skip_ws k.2) as [|c s1] eqn:Hw; [discriminate|]. note_skips skip_ws_length.
    destruct (c =? 58); [|discriminate].
    destruct (Json.scan_once fuel depth (Json.skip_ws s1)) as [item|] eqn:Hitem;
      [|discriminate].
    apply IH in Hitem. unfold_scan.
    destruct (Json.skip_ws item.2) as [|c' s2] eqn:Hw2; [discriminate|]. note_skips skip_ws_length.
    destruct (c' =? 125); [intros [= <-]; unfold pystr in *; simpl in *; lia|].
    destruct (c' =? 44); [|discriminate].
    destruct (Json.skip_ws s2) as [|q s3] eqn:Hw3; [discriminate|]. note_skips skip_ws_length.
    destruct (q =? 34); [|discriminate].
    intros Ho%IH. unfold pystr in *. simpl in *. lia.
Qed.

(** Past twice the length of the text, more fuel changes nothing. *)
Lemma scan_fuel (fuel : nat) :
  ∀ fuel' depth s,
    ((2 * length s + 2 ≤ fuel)%nat → (2 * length s + 2 ≤ fuel')%nat →
     Json.scan_once fuel depth s = Json.scan_once fuel' depth s)
    ∧ (∀ acc, (2 * length s + 3 ≤ fuel)%nat → (2 * length s + 3 ≤ fuel')%nat →
         Json.array_items fuel depth s acc = Json.array_items fuel' depth s acc)
    ∧ (∀ acc, (2 * length s + 3 ≤ fuel)%nat → (2 * length s + 3 ≤ fuel')%nat →
         Json.object_items fuel depth s acc = Json.object_items fuel' depth s acc).
Proof.
  induction fuel as [|fuel IH]; intros fuel' depth s;
    [repeat split; intros; lia|].
  destruct fuel' as [|fuel']; [repeat split; intros; lia|].
  split; [|split].
  - intros Hf Hf'. destruct s as [|c s1]; [reflexivity|]. unfold_scan.
    destruct (c =? 34); [reflexivity|].
    destruct (c =? 123).
    { destruct depth; [reflexivity|].
      destruct (Json.skip_ws s1) as [|c' s2] eqn:Hw; [reflexivity|]. note_skips skip_ws_length.
      destruct (c' =? 125); [reflexivity|]. destruct (c' =? 34); [|reflexivity].
      apply IH; unfold pystr in *; simpl in *; lia. }
    destruct (c =? 91); [|reflexivity].
    destruct depth; [reflexivity|].
    destruct (Json.skip_ws s1) as [|c' s2] eqn:Hw; [reflexivity|]. note_skips skip_ws_length.
    destruct (c' =? 93); [reflexivity|].
    apply IH; unfold pystr in *; simpl in *; lia.
  - intros acc Hf Hf'. unfold_scan.
    rewrite (proj1 (IH fuel' depth s)) by lia.
    destruct (Json.scan_once fuel' depth s) as [item|] eqn:Hitem; [|reflexivity].
    apply scan_consumes in Hitem. unfold_scan.
    destruct (Json.skip_ws item.2) as [|c s1] eqn:Hw; [reflexivity|]. note_skips skip_ws_length.
    destruct (c =? 93); [reflexivity|]. destruct (c =? 44); [|reflexivity].
    pose proof (skip_ws_length s1).
    apply IH; unfold pystr in *; simpl in *; lia.
  - intros acc Hf Hf'. unfold_scan.
    destruct (Json.scanstring s) as [k|] eqn:Hk; [|reflexivity].
    apply scanstring_length in Hk. unfold_scan.
    destruct (Json.skip_ws k.2) as [|c s1] eqn:Hw; [reflexivity|]. note_skips skip_ws_length.
    destruct (c =? 58); [|reflexivity].
    pose proof (skip_ws_length s1).
    rewrite (proj1 (IH fuel' depth (Json.skip_ws s1)))
      by (unfold pystr in *; simpl in *; lia).
    destruct (Json.scan_once fuel' depth (Json.skip_ws s1)) as [item|] eqn:Hitem;
      [|reflexivity].
    apply scan_consumes in Hitem. unfold_scan.
    destruct (Json.skip_ws item.2) as [|c' s2] eqn:Hw2; [reflexivity|]. note_skips skip_ws_length.
    destruct (c' =? 125); [reflexivity|]. destruct (c' =? 44); [|reflexivity].
    destruct (Json.skip_ws s2) as [|q s3] eqn:Hw3; [reflexivity|]. note_skips skip_ws_length.
    destruct (q =? 34); [|reflexivity].
    apply IH; unfold pystr in *; simpl in *; lia.
Qed.

(** [json.loads] with any larger fuel: the bound in [loads] is enough. *)
Theorem loads_fuel_enough `{RecursionLimit} (s : pystr) (fuel : nat) :
  (2 * length s + 2 ≤ fuel)%nat →
  Json.loads s
  = if startswith [0xFEFF] s then Raise JSONDecodeError
    else
      r ← Json.scan_once fuel recursion_limit (Json.skip_ws s);
      match Json.skip_ws r.2 with
      | [] => Ok r.1
      | _ :: _ => Raise JSONDecodeError
      end.
Proof.
  intros Hfuel. unfold Json.loads. destruct (startswith _ s); [reflexivity|].
  pose proof (skip_ws_length s).
  rewrite (proj1 (scan_fuel (2 * length s + 2) fuel recursion_limit (Json.skip_ws s)))
    by lia.
  reflexivity.
Qed.

(** * Facts about the merge *)

Section FirstSeenFacts.
Context {A K : Type} `{Countable K} (key : A → option K).
Local Abbreviation first_seen := (first_seen key).
Local Abbreviation keyset := (keyset key).

Lemma keyset_cons_Some x h xs : key x = Some h → keyset (x :: xs) = {[h]} ∪ keyset xs.
Proof. unfold keyset. simpl. intros ->. reflexivity. Qed.

Lemma keyset_cons_None x xs : key x = None → keyset (x :: xs) = keyset xs.
Proof. unfold keyset. simpl. intros ->. reflexivity. Qed.

Lemma keyset_app xs ys : keyset (xs ++ ys) = keyset xs ∪ keyset ys.
Proof. unfold keyset. rewrite omap_app, list_to_set_app_L. reflexivity. Qed.

Lemma elem_of_keyset h xs : h ∈ keyset xs ↔ ∃ x, x ∈ xs ∧ key x = Some h.
Proof. unfold keyset. rewrite elem_of_list_to_set, list_elem_of_omap. reflexivity. Qed.

Lemma first_seen_sublist seen xs : first_seen seen xs `sublist_of` xs.
Proof.
  revert seen. induction xs as [|x xs IH]; intros seen; simpl; [constructor|].
  destruct (key x) as [h|]; [destruct (decide (h ∈ seen))|];
    (apply sublist_cons, IH) || (apply sublist_skip, IH).
Qed.

Lemma first_seen_fresh seen xs x :
  x ∈ first_seen seen xs → ∃ h, key x = Some h ∧ h ∉ seen.
Proof.
  revert seen. induction xs as [|y xs IH]; intros seen; simpl; [intros Hx; inversion Hx|].
  destruct (key y) as [h|] eqn:Hy; [destruct (decide (h ∈ seen))|]; try apply IH.
  intros [->|Hx]%elem_of_cons; [eauto|].
  apply IH in Hx as (h' & Hk & Hh'). exists h'. split; [assumption|set_solver].
Qed.

Lemma first_seen_keyset seen xs : keyset (first_seen seen xs) = keyset xs ∖ seen.
Proof.
  revert seen. induction xs as [|y xs IH]; intros seen; simpl.
  - unfold keyset. simpl. set_solver.
  - destruct (key y) as [h|] eqn:Hy; [destruct (decide (h ∈ seen))|].
    + rewrite IH, (keyset_cons_Some y h) by assumption. set_solver.
    + rewrite !(keyset_cons_Some y h), IH by assumption.
      apply set_eq. intros k. destruct (decide (k = h)); set_solver.
    + rewrite IH, keyset_cons_None by assumption. reflexivity.
Qed.

Lemma first_seen_NoDup seen xs : NoDup (omap key (first_seen seen xs)).
Proof.
  revert seen. induction xs as [|y xs IH]; intros seen; simpl; [constructor|].
  destruct (key y) as [h|] eqn:Hy; [destruct (decide (h ∈ seen))|]; try apply IH.
  simpl. rewrite Hy. constructor; [|apply IH].
  intros (x & Hx & Hk)%list_elem_of_omap.
  apply first_seen_fresh in Hx as (h' & Hk' & Hh'). set_solver.
Qed.

Lemma first_seen_app seen xs ys :
  first_seen seen (xs ++ ys)
  = first_seen seen xs ++ first_seen (keyset (first_seen seen xs) ∪ seen) ys.
Proof.
  revert seen. induction xs as [|x xs IH]; intros seen; simpl.
  - f_equal. unfold keyset. simpl. set_solver.
  - destruct (key x) as [h|] eqn:Hx; [destruct (decide (h ∈ seen))|]; try apply IH.
    simpl. f_equal. rewrite IH. do 2 f_equal.
    rewrite (keyset_cons_Some x h) by assumption. set_solver.
Qed.

Lemma first_seen_all seen xs :
  Forall (λ x, is_Some (key x)) xs → NoDup (omap key xs) →
  (∀ h, h ∈ keyset xs → h ∉ seen) → first_seen seen xs = xs.
Proof.
  revert seen. induction xs as [|x xs IH]; intros seen Hall Hnd Hseen; simpl; [reflexivity|].
  apply Forall_cons in Hall as [[h Hx] Hall]. simpl in Hnd. rewrite Hx in *.
  apply NoDup_cons in Hnd as [Hh Hnd].
  destruct (decide (h ∈ seen)) as [Hin|_].
  - exfalso. apply (Hseen h); [|assumption].
    rewrite (keyset_cons_Some x h) by assumption. set_solver.
  - f_equal. apply IH; [assumption..|].
    intros k Hk. specialize (Hseen k).
    rewrite (keyset_cons_Some x h) in Hseen by assumption.
    assert (k ≠ h); [|set_solver].
    intros ->. apply Hh. unfold keyset in Hk. apply elem_of_list_to_set in Hk. assumption.
Qed.

Lemma first_seen_idem seen xs :
  first_seen seen (first_seen seen xs) = first_seen seen xs.
Proof.
  apply first_seen_all.
  - apply Forall_forall. intros x (h & -> & _)%first_seen_fresh. eauto.
  - apply first_seen_NoDup.
  - intros h Hh. rewrite first_seen_keyset in Hh. set_solver.
Qed.

(** The record kept for a hash is the first one that carries it. *)
Lemma first_seen_first seen l1 x l2 h :
  key x = Some h → h ∉ seen → (∀ y, y ∈ l1 → key y ≠ Some h) →
  first_seen seen (l1 ++ x :: l2)
  = first_seen seen l1 ++ x :: first_seen ({[h]} ∪ keyset (first_seen seen l1) ∪ seen) l2.
Proof.
  intros Hx Hh Hl1. rewrite first_seen_app. f_equal. simpl. rewrite Hx.
  destruct (decide _) as [Hin|_].
  - exfalso. apply elem_of_union in Hin as [Hin|Hin]; [|contradiction].
    rewrite first_seen_keyset in Hin. apply elem_of_difference in Hin as [Hin _].
    apply elem_of_keyset in Hin as (y & Hy & Hk). apply (Hl1 y); assumption.
  - f_equal. f_equal. set_solver.
Qed.

Lemma select_first_seen_flags (seen : gset K) (xs : list A) :
  select (first_seen_flags key seen xs) xs = first_seen seen xs.
Proof.
  revert seen. induction xs as [|x xs IH]; intros seen; [reflexivity|].
  simpl. destruct (key x) as [h|]; [destruct (decide (h ∈ seen))|];
    simpl; rewrite IH; reflexivity.
Qed.

End FirstSeenFacts.

Section Merge.
Context `{StrLower}.

Lemma dedup_step_key (st : gset pystr * list dict) (msg : dict) :
  SecureSession.dedup_step st msg
  = match merge_key msg with
    | Raise e => Raise e
    | Ok None => Ok st
    | Ok (Some h) =>
        if decide (h ∈ st.1) then Ok st else Ok ({[h]} ∪ st.1, st.2 ++ [msg])
    end.
Proof.
  unfold SecureSession.dedup_step, merge_key.
  destruct (SecureSession.stripped_content msg) as [[|c content]|e];
    cbn -[SecureSession.is_legitimate_breach SecureSession.content_hash]; try reflexivity.
  destruct (SecureSession.is_legitimate_breach (c :: content)); [|reflexivity].
  destruct (SecureSession.content_hash (c :: content)); reflexivity.
Qed.

Lemma for_each_dedup (msgs : list dict) (seen : gset pystr) (unique : list dict) :
  for_each SecureSession.dedup_step msgs (seen, unique)
  = match first_raise msgs with
    | Some e => Raise e
    | None =>
        Ok (keyset key_of (first_seen key_of seen msgs) ∪ seen,
            unique ++ first_seen key_of seen msgs)
    end.
Proof.
  revert seen unique. induction msgs as [|msg msgs IH]; intros seen unique.
  - simpl. rewrite app_nil_r. do 2 f_equal. unfold keyset. simpl. set_solver.
  - cbn [for_each first_raise first_seen]. rewrite dedup_step_key.
    assert (key_of msg = match merge_key msg with Ok k => k | Raise _ => None end)
      as Hko by reflexivity.
    destruct (merge_key msg) as [[h|]|e] eqn:Hk; rewrite ?Hko;
      cbn [mbind result_bind fst snd]; [|apply IH|reflexivity].
    destruct (decide (h ∈ seen)); cbn [mbind result_bind]; [apply IH|].
    rewrite IH. destruct (first_raise msgs); [reflexivity|].
    rewrite (keyset_cons_Some key_of msg h) by assumption.
    rewrite <- app_assoc. simpl. do 2 f_equal. set_solver.
Qed.

Lemma first_raise_app (xs ys : list dict) :
  first_raise (xs ++ ys)
  = match first_raise xs with Some e => Some e | None => first_raise ys end.
Proof.
  induction xs as [|x xs IH]; simpl; [reflexivity|].
  destruct (merge_key x); [apply IH|reflexivity].
Qed.

Lemma first_raise_None (xs : list dict) :
  first_raise xs = None ↔ Forall (λ x, ∃ k, merge_key x = Ok k) xs.
Proof.
  induction xs as [|x xs IH]; simpl.
  - split; [constructor|reflexivity].
  - rewrite Forall_cons. destruct (merge_key x) as [k|e].
    + rewrite IH. split; [eauto|tauto].
    + split; [discriminate|]. intros [[k Hk] _]. discriminate.
Qed.

Lemma first_raise_sublist (xs ys : list dict) :
  xs `sublist_of` ys → first_raise ys = None → first_raise xs = None.
Proof.
  rewrite !first_raise_None. intros Hsub Hys.
  apply Forall_forall. intros x Hx.
  rewrite Forall_forall in Hys. apply Hys. eapply sublist_subseteq; eassumption.
Qed.

(** The merge keeps, of the existing records followed by the new ones, the
    first record of each hash among those that pass its filter; it raises
    what the first record that raises does. *)
Lemma deduplicate_messages_first_seen (existing new : list dict) :
  SecureSession.deduplicate_messages existing new
  = match first_raise (existing ++ new) with
    | Some e => Raise e
    | None => Ok (first_seen key_of ∅ (existing ++ new))
    end.
Proof.
  unfold SecureSession.deduplicate_messages. rewrite for_each_dedup, first_raise_app.
  destruct (first_raise existing); [reflexivity|]. simpl.
  rewrite for_each_dedup. destruct (first_raise new); [reflexivity|]. simpl.
  rewrite first_seen_app. reflexivity.
Qed.

Lemma merge_key_Some (msg : dict) (h : pystr) :
  merge_key msg = Ok (Some h) ↔ passes_filter msg ∧ record_hash msg = Ok h.
Proof.
  unfold merge_key, passes_filter, record_hash.
  destruct (SecureSession.stripped_content msg) as [content|e];
    cbn -[SecureSession.is_legitimate_breach SecureSession.content_hash].
  - destruct content as [|c content].
    + split; [discriminate|]. intros [(c' & [= <-] & Hne & _) _]. congruence.
    + destruct (SecureSession.is_legitimate_breach (c :: content)) eqn:Hl.
      * destruct (SecureSession.content_hash (c :: content)) as [h'|e];
          cbn -[SecureSession.is_legitimate_breach SecureSession.content_hash].
        -- split; [intros [= ->]; split; [eauto 6|reflexivity]|intros [_ [= ->]]; reflexivity].
        -- split; [discriminate|intros [_ ?]; discriminate].
      * split; [discriminate|]. intros [(c' & [= <-] & _ & Hl') _]. congruence.
  - split; [discriminate|]. intros [_ ?]. discriminate.
Qed.

Lemma key_of_Some (msg : dict) (h : pystr) :
  key_of msg = Some h ↔ passes_filter msg ∧ record_hash msg = Ok h.
Proof.
  rewrite <- merge_key_Some. unfold key_of.
  destruct (merge_key msg) as [k|e]; [|split; discriminate].
  split; congruence.
Qed.

End Merge.

(** ** Records of text never make the merge raise *)

Lemma encode_ok (s : pystr) :
  (∃ bytes, encode s = Ok bytes) ↔ Forall (λ c, ∃ b, utf8_char c = Ok b) s.
Proof.
  induction s as [|c s IH]; simpl.
  - split; [constructor|eauto].
  - rewrite Forall_cons, <- IH. destruct (utf8_char c) as [b|e]; simpl.
    + destruct (encode s) as [bs|e]; simpl.
      * split; eauto.
      * split; [intros [? ?]; discriminate|intros [_ [? ?]]; discriminate].
    + split; [intros [? ?]; discriminate|intros [[? ?] _]; discriminate].
Qed.

Lemma encode_strip (s : pystr) :
  (∃ bytes, encode s = Ok bytes) → ∃ bytes, encode (strip s) = Ok bytes.
Proof. rewrite !encode_ok. apply strip_Forall. Qed.

Section MergeTotal.
Context `{StrLower}.

Lemma text_record_key (msg : dict) : text_record msg → ∃ k, merge_key msg = Ok k.
Proof.
  unfold text_record, merge_key, SecureSession.stripped_content.
  destruct (dict_get (py "Content") msg) as [[]|]; try contradiction.
  - intros Hs. apply encode_strip in Hs as [bytes Hs].
    cbn -[SecureSession.is_legitimate_breach strip].
    destruct (strip s) as [|c content]; [eauto|].
    destruct (SecureSession.is_legitimate_breach (c :: content)); [|eauto].
    unfold SecureSession.content_hash. rewrite Hs. simpl. eauto.
  - intros _. simpl. eauto.
Qed.

Lemma text_records_no_raise (msgs : list dict) :
  Forall text_record msgs → first_raise msgs = None.
Proof.
  intros Hall. apply first_raise_None.
  eapply Forall_impl; [exact Hall|]. apply text_record_key.
Qed.

Lemma record_hash_first_seen (seen : gset pystr) (msgs : list dict) :
  record_hash <$> first_seen key_of seen msgs
  = Ok <$> omap key_of (first_seen key_of seen msgs).
Proof.
  assert (∀ l : list dict, Forall (λ x, ∃ h, key_of x = Some h) l →
            record_hash <$> l = Ok <$> omap key_of l) as Hgen.
  { induction 1 as [|x l [h Hx] _ IH]; simpl; [reflexivity|].
    rewrite Hx. simpl. apply key_of_Some in Hx as [_ ->]. f_equal. exact IH. }
  apply Hgen, Forall_forall. intros x (h & Hx & _)%first_seen_fresh. eauto.
Qed.

End MergeTotal.

(** * Properties of the specification *)

(** C1. For a store and a batch of text records, [deduplicate_messages]
    returns a list: the records kept from the store, in their order,
    followed by the records kept from the batch, in theirs. No two records
    of it share a content hash. A record of the batch whose stripped
    [Content] is that of a record of the store is not kept; and when a
    record of the store that passes the filter shares its hash with a
    record of the batch, a record of the store is the one kept for that
    hash and none of the batch is. *)
Theorem merge_unique_existing_first `{StrLower} (existing new : list dict) :
  Forall text_record existing → Forall text_record new →
  ∃ kept_existing kept_new,
    SecureSession.deduplicate_messages existing new
    = Ok (kept_existing ++ kept_new)
    ∧ SecureSession.deduplicate_messages existing [] = Ok kept_existing
    ∧ kept_existing `sublist_of` existing
    ∧ kept_new `sublist_of` new
    ∧ NoDup (record_hash <$> kept_existing ++ kept_new)
    ∧ Forall (λ msg, ∃ h, record_hash msg = Ok h) (kept_existing ++ kept_new)
    ∧ (∀ e n, e ∈ existing → n ∈ new →
              SecureSession.stripped_content n = SecureSession.stripped_content e →
              n ∉ kept_new)
    ∧ (∀ e n, e ∈ existing → n ∈ new → passes_filter e →
              record_hash n = record_hash e →
              (∃ r, r ∈ kept_existing ∧ record_hash r = record_hash e)
              ∧ ∀ r, r ∈ kept_new → record_hash r ≠ record_hash e).
Proof.
  intros Hex Hnew.
  exists (first_seen key_of ∅ existing).
  exists (first_seen key_of (keyset key_of (first_seen key_of ∅ existing) ∪ ∅) new).
  rewrite !deduplicate_messages_first_seen, app_nil_r, <- first_seen_app.
  rewrite !text_records_no_raise by (try apply Forall_app; auto).
  assert (∀ e h, e ∈ existing → key_of e = Some h →
                 h ∈ keyset key_of (first_seen key_of ∅ existing)) as Hseen.
  { intros e h He Hk. rewrite first_seen_keyset.
    apply elem_of_difference. split; [|set_solver]. apply elem_of_keyset. eauto. }
  split; [reflexivity|]. split; [reflexivity|].
  split; [apply first_seen_sublist|]. split; [apply first_seen_sublist|].
  split.
  { rewrite record_hash_first_seen. apply NoDup_fmap_2; [|apply first_seen_NoDup].
    intros a b [= ->]. reflexivity. }
  split.
  { apply Forall_forall. intros x (h & Hx & _)%first_seen_fresh.
    apply key_of_Some in Hx as [_ Hx]. eauto. }
  split.
  { intros e n He _ Hsame (h & Hkn & Hfresh)%first_seen_fresh.
    apply Hfresh, elem_of_union_l, (Hseen e); [exact He|].
    rewrite <- Hkn. unfold key_of, merge_key. rewrite Hsame. reflexivity. }
  intros e n He _ (content & Hc & Hne & Hl) _.
  assert (∃ h, key_of e = Some h) as [h Hke].
  { destruct (text_record_key e) as [k Hk]; [rewrite Forall_forall in Hex; auto|].
    unfold key_of. rewrite Hk. revert Hk. unfold merge_key. rewrite Hc.
    cbn -[SecureSession.is_legitimate_breach SecureSession.content_hash].
    destruct content; [congruence|]. rewrite Hl.
    destruct (SecureSession.content_hash _); simpl; [intros [= <-]; eauto|discriminate]. }
  pose proof (Hseen e h He Hke) as Hin.
  apply key_of_Some in Hke as [_ Hhe]. rewrite Hhe. split.
  - apply elem_of_keyset in Hin as (r & Hr & Hkr). exists r. split; [assumption|].
    apply key_of_Some in Hkr as [_ ->]. reflexivity.
  - intros r Hr Heq. apply first_seen_fresh in Hr as (h' & Hkr & Hfresh).
    apply key_of_Some in Hkr as [_ Hkr]. rewrite Hkr in Heq. injection Heq as ->.
    apply Hfresh. apply elem_of_union_l. exact Hin.
Qed.

Lemma merge_unique_existing_first_witness :
  ∃ kept_existing kept_new,
    @SecureSession.deduplicate_messages ascii_lower [leak_a; chat_d] [leak_b; dump_c]
    = Ok (kept_existing ++ kept_new)
    ∧ @SecureSession.deduplicate_messages ascii_lower [leak_a; chat_d] []
      = Ok kept_existing
    ∧ kept_existing `sublist_of` [leak_a; chat_d]
    ∧ kept_new `sublist_of` [leak_b; dump_c]
    ∧ NoDup (record_hash <$> kept_existing ++ kept_new)
    ∧ Forall (λ msg, ∃ h, record_hash msg = Ok h) (kept_existing ++ kept_new)
    ∧ (∀ e n, e ∈ [leak_a; chat_d] → n ∈ [leak_b; dump_c] →
              SecureSession.stripped_content n = SecureSession.stripped_content e →
              n ∉ kept_new)
    ∧ (∀ e n, e ∈ [leak_a; chat_d] → n ∈ [leak_b; dump_c] →
              @passes_filter ascii_lower e →
              record_hash n = record_hash e →
              (∃ r, r ∈ kept_existing ∧ record_hash r = record_hash e)
              ∧ ∀ r, r ∈ kept_new → record_hash r ≠ record_hash e).
Proof.
  apply (@merge_unique_existing_first ascii_lower);
    repeat constructor; simpl; eexists; vm_compute; reflexivity.
Defined.

Example merge_keeps_existing_copy :
  @SecureSession.deduplicate_messages ascii_lower [leak_a; chat_d] [leak_b; dump_c]
  = Ok [leak_a; dump_c].
Proof. vm_compute. reflexivity. Qed.

(** ** The classifier *)

Lemma keyword_count_score (keywords : list pystr) (text : pystr) :
  keyword_count text keywords (indicator_score keywords text).
Proof.
  unfold indicator_score. induction keywords as [|k keywords IH]; [constructor|].
  cbn [List.filter]. destruct (contains k text) eqn:Hk.
  - apply count_hit; [apply contains_spec, Hk|exact IH].
  - apply count_miss; [|exact IH]. intros Ho%contains_spec. congruence.
Qed.

Lemma keyword_count_unique (keywords : list pystr) (text : pystr) (n m : nat) :
  keyword_count text keywords n → keyword_count text keywords m → n = m.
Proof.
  intros Hn. revert m. induction Hn as [|k ks n Hk _ IH|k ks n Hk _ IH];
    intros m Hm; inversion Hm; subst; try contradiction; auto.
Qed.

(** C2. With the scores the counts of the entries of the breach and of the
    spam keyword list that occur in the lower-cased content, the classifier
    answers true exactly when the breach score exceeds the spam score and is
    not zero; the empty content is never a breach. Both scripts, each with
    its keyword lists. *)
Theorem classifier_rule `{StrLower} (content : pystr)
    (breach_score spam_score breach_score' spam_score' : nat) :
  str_lower [] = [] →
  keyword_count (str_lower content) SecureSession.BREACH_INDICATORS breach_score →
  keyword_count (str_lower content) SecureSession.SPAM_INDICATORS spam_score →
  keyword_count (str_lower content) EntireHistory.BREACH_INDICATORS breach_score' →
  keyword_count (str_lower content) EntireHistory.SPAM_INDICATORS spam_score' →
  (SecureSession.is_legitimate_breach content = true
   ↔ (spam_score < breach_score)%nat ∧ (0 < breach_score)%nat)
  ∧ (EntireHistory.is_relevant_breach content = true
     ↔ (spam_score' < breach_score')%nat ∧ (0 < breach_score')%nat)
  ∧ SecureSession.is_legitimate_breach [] = false
  ∧ EntireHistory.is_relevant_breach [] = false.
Proof.
  intros Hnil Hb Hs Hb' Hs'.
  assert (∀ breach spam b s,
            indicator_score breach [] = 0%nat →
            keyword_count (str_lower content) breach b →
            keyword_count (str_lower content) spam s →
            (relevance breach spam content = true ↔ (s < b)%nat ∧ (0 < b)%nat))
    as Hrule.
  { intros breach spam b s Hzero Hcb Hcs.
    rewrite (keyword_count_unique _ _ _ _ Hcb (keyword_count_score breach _)).
    rewrite (keyword_count_unique _ _ _ _ Hcs (keyword_count_score spam _)).
    unfold relevance. destruct content as [|c content].
    - rewrite Hnil, Hzero. split; [discriminate|lia].
    - rewrite andb_true_iff, !Nat.ltb_lt. reflexivity. }
  split; [apply Hrule; [reflexivity|assumption..]|].
  split; [apply Hrule; [reflexivity|assumption..]|].
  split; reflexivity.
Qed.

Lemma classifier_rule_witness :
  (@SecureSession.is_legitimate_breach ascii_lower scenario_content = true
   ↔ (0 < 4)%nat ∧ (0 < 4)%nat)
  ∧ (@EntireHistory.is_relevant_breach ascii_lower scenario_content = true
     ↔ (0 < 5)%nat ∧ (0 < 5)%nat)
  ∧ @SecureSession.is_legitimate_breach ascii_lower [] = false
  ∧ @EntireHistory.is_relevant_breach ascii_lower [] = false.
Proof.
  apply (@classifier_rule ascii_lower scenario_content 4 0 5 0);
    [reflexivity|apply keyword_count_score..].
Defined.

(** The history script lists [database] twice, and counts it twice: one
    breach keyword against one spam keyword is a breach there. *)
Example database_counts_twice :
  indicator_score EntireHistory.BREACH_INDICATORS (py "database") = 2%nat
  ∧ indicator_score SecureSession.BREACH_INDICATORS (py "database") = 1%nat
  ∧ indicator_score EntireHistory.SPAM_INDICATORS (py "database sale") = 1%nat
  ∧ @EntireHistory.is_relevant_breach ascii_lower (py "database sale") = true
  ∧ @SecureSession.is_legitimate_breach ascii_lower (py "database sale") = false.
Proof. repeat split; vm_compute; reflexivity. Qed.

(** ** Dictionaries *)

Lemma str_eqb_spec (a b : pystr) : reflect (a = b) (str_eqb a b).
Proof. apply iff_reflect. symmetry. apply str_eqb_eq. Qed.

Lemma dict_get_set (k k' : pystr) (v : pyval) (d : dict) :
  dict_get k (dict_set k' v d) = if str_eqb k k' then Some v else dict_get k d.
Proof.
  induction d as [|[a w] d IH]; simpl.
  - destruct (str_eqb_spec k k'); reflexivity.
  - destruct (str_eqb_spec k' a) as [->|Hne]; simpl.
    + destruct (str_eqb_spec k a); reflexivity.
    + rewrite IH. destruct (str_eqb_spec k a) as [->|Hka].
      * destruct (str_eqb_spec a k'); [congruence|reflexivity].
      * reflexivity.
Qed.

Lemma dict_get_for_items (f : pystr → pyval → pyval) (k : pystr) (d : dict) :
  dict_get k (for_items f d) = f k <$> dict_get k d.
Proof.
  induction d as [|[a w] d IH]; simpl; [reflexivity|].
  destruct (str_eqb_spec k a) as [->|Hne]; [reflexivity|exact IH].
Qed.

Lemma dict_get_set_default (k k' : pystr) (v : pyval) (d : dict) :
  dict_get k (set_default k' v d)
  = if str_eqb k k'
    then match dict_get k d with Some w => Some w | None => Some v end
    else dict_get k d.
Proof.
  unfold set_default, dict_has.
  destruct (str_eqb_spec k k') as [->|Hne].
  - destruct (dict_get k' d) eqn:Hd; [exact Hd|].
    rewrite dict_get_set, str_eqb_refl. reflexivity.
  - destruct (dict_get k' d); [reflexivity|].
    rewrite dict_get_set. destruct (str_eqb_spec k k'); [contradiction|reflexivity].
Qed.

Lemma ensure_fields_defaults (clean_text : pystr) (parsed : dict) :
  ensure_fields clean_text parsed
  = set_default (py "Type") (PStr (py "Data leak"))
      (set_default (py "Source") (PStr (py "Unknown"))
         (set_default (py "Content") (PStr clean_text) parsed)).
Proof. reflexivity. Qed.

(** The breach type after the three defaults. *)
Lemma ensure_fields_type (clean_text : pystr) (parsed : dict) :
  dict_get (py "Type") (ensure_fields clean_text parsed)
  = match dict_get (py "Type") parsed with
    | Some v => Some v
    | None => Some (PStr (py "Data leak"))
    end.
Proof.
  rewrite ensure_fields_defaults, !dict_get_set_default. eval_keys. reflexivity.
Qed.

Lemma ensure_fields_content (clean_text : pystr) (parsed : dict) :
  dict_get (py "Content") (ensure_fields clean_text parsed)
  = match dict_get (py "Content") parsed with
    | Some v => Some v
    | None => Some (PStr clean_text)
    end.
Proof.
  rewrite ensure_fields_defaults, !dict_get_set_default. eval_keys. reflexivity.
Qed.

Lemma plain_record_limited (clean_text : pystr) :
  (length clean_text ≤ MAX_CONTENT_LENGTH)%nat →
  for_items SecureSession.limit_field (ensure_fields clean_text [])
  = SecureSession.plain_text_record clean_text
  ∧ for_items EntireHistory.limit_field (ensure_fields clean_text [])
    = SecureSession.plain_text_record clean_text.
Proof.
  intros Hlen. apply Nat.ltb_ge in Hlen.
  change (ensure_fields clean_text []) with (SecureSession.plain_text_record clean_text).
  unfold for_items, SecureSession.plain_text_record,
    SecureSession.limit_field, EntireHistory.limit_field.
  cbn [map fst snd]. eval_keys. rewrite Hlen. cbn [andb]. cbv beta iota.
  split; reflexivity.
Qed.

(** Every record either parser returns is the plain-text record of the
    cleaned message: [clean_text] deletes every double quote, and a JSON
    text without one has neither a string nor an object with a key. *)
Lemma parse_message_content_record `{RecursionLimit}
    (message_text : pyval) (record : dict) :
  SecureSession.parse_message_content message_text = PDict record →
  record = SecureSession.plain_text_record
             (truncate MAX_CONTENT_LENGTH (clean_text message_text)).
Proof.
  unfold SecureSession.parse_message_content.
  destruct message_text as [| | | |text| |]; try discriminate.
  set (clean := truncate MAX_CONTENT_LENGTH (clean_text (PStr text))).
  assert (Forall (λ c, c ≠ 34) clean) as Hq
    by apply truncate_Forall, clean_text_unquoted.
  cbn [SecureSession.parse_attempts].
  destruct (Json.loads clean) as [v|e] eqn:Hl.
  - apply (loads_unquoted _ _ Hq) in Hl.
    destruct v as [| | | | | |[|item items]]; try contradiction; try discriminate.
    intros [= <-]. apply plain_record_limited, truncate_length.
  - destruct e; try discriminate. intros [= <-]. reflexivity.
Qed.

Lemma parse_json_message_record `{StrLower} `{RecursionLimit}
    (message_text : pyval) (record : dict) :
  EntireHistory.parse_json_message message_text = PDict record →
  record = SecureSession.plain_text_record
             (truncate MAX_CONTENT_LENGTH (clean_text message_text)).
Proof.
  unfold EntireHistory.parse_json_message.
  destruct message_text as [| | | |text| |]; try discriminate.
  set (clean := truncate MAX_CONTENT_LENGTH (clean_text (PStr text))).
  assert (Forall (λ c, c ≠ 34) clean) as Hq
    by apply truncate_Forall, clean_text_unquoted.
  cbn [EntireHistory.parse_attempts].
  destruct (Json.loads clean) as [v|e] eqn:Hl.
  - apply (loads_unquoted _ _ Hq) in Hl.
    destruct v as [| | | | | |[|item items]]; try contradiction; try discriminate.
    destruct (plain_record_limited clean) as [_ ->]; [apply truncate_length|].
    unfold EntireHistory.relevant_or_none.
    repeat case_match; try discriminate. intros [= <-]. reflexivity.
  - destruct e; discriminate.
Qed.

Lemma plain_text_record_type_allowed (clean_text : pystr) :
  type_allowed (SecureSession.plain_text_record clean_text).
Proof. exists (py "Data leak"). split; [reflexivity|apply list_elem_of_here]. Qed.

Lemma with_metadata_type (record : dict) (message_id : Z) (date : pystr) :
  dict_get (py "Type") (SecureSession.with_metadata record message_id date)
  = dict_get (py "Type") record.
Proof.
  unfold SecureSession.with_metadata. rewrite !dict_get_set. eval_keys. reflexivity.
Qed.

Lemma deduplicate_messages_sublist `{StrLower} (existing new out : list dict) :
  SecureSession.deduplicate_messages existing new = Ok out →
  out `sublist_of` existing ++ new.
Proof.
  rewrite deduplicate_messages_first_seen.
  destruct (first_raise (existing ++ new)); [discriminate|].
  intros [= <-]. apply first_seen_sublist.
Qed.

Lemma save_data_sublist (messages : list dict) :
  SecureSession.save_data messages `sublist_of` messages.
Proof.
  unfold SecureSession.save_data.
  destruct (_ <? _)%nat; [apply sublist_take|reflexivity].
Qed.

Lemma existsb_str_eqb (value : pystr) (l : list pystr) :
  existsb (str_eqb value) l = true ↔ value ∈ l.
Proof.
  rewrite existsb_exists. split.
  - intros (x & Hx & ->%str_eqb_eq). apply list_elem_of_In. exact Hx.
  - intros Hin. exists value. split; [apply list_elem_of_In, Hin|apply str_eqb_refl].
Qed.

(** C3, evaluated. The message is a JSON object whose [Type] is [Bogus],
    which is no allowed breach type. No parser makes it [Other]:
    [clean_text] deletes the double quotes before [json.loads] reads the
    text, so [parse_message_content] returns the plain-text record of the
    cleaned text, with [Type] [Data leak], and [parse_json_message]
    returns [None]. On the object itself, the loop over the items of
    [parse_message_content] leaves [Bogus] as it is, where that of
    [parse_json_message] replaces it: only the latter checks the type. *)
Theorem out_of_set_type_not_coerced :
  @Json.loads 1000%nat bogus_raw
  = Ok (PDict [(py "Content", PStr scenario_content);
               (py "Type", PStr (py "Bogus"))])
  ∧ (py "Bogus" ∉ ALLOWED_BREACH_TYPES)
  ∧ clean_text (PStr bogus_raw) = bogus_cleaned
  ∧ @Json.loads 1000%nat bogus_cleaned = Raise JSONDecodeError
  ∧ @SecureSession.parse_message_content 1000%nat (PStr bogus_raw)
    = PDict [(py "Content", PStr bogus_cleaned);
             (py "Source", PStr (py "Unknown"));
             (py "Type", PStr (py "Data leak"))]
  ∧ @EntireHistory.parse_json_message ascii_lower 1000%nat (PStr bogus_raw) = PNone
  ∧ dict_get (py "Type")
      (for_items SecureSession.limit_field
         (ensure_fields bogus_cleaned
            [(py "Content", PStr scenario_content); (py "Type", PStr (py "Bogus"))]))
    = Some (PStr (py "Bogus"))
  ∧ dict_get (py "Type")
      (for_items EntireHistory.limit_field
         (ensure_fields bogus_cleaned
            [(py "Content", PStr scenario_content); (py "Type", PStr (py "Bogus"))]))
    = Some (PStr (py "Other")).
Proof.
  repeat split; try (vm_compute; reflexivity).
  intros Hin%list_elem_of_In. vm_compute in Hin.
  repeat destruct Hin as [Hin|Hin]; try discriminate. exact Hin.
Qed.

(** The records that the parsers do return have a breach type of the
    allowed set. On an object, an absent type becomes [Data leak]; in
    [parse_json_message] a type that is a string outside the set becomes
    [Other]. The metadata added to a record leave its type, and a store
    whose records have allowed types keeps that through an update. *)
Theorem parsed_type_allowed `{StrLower} `{RecursionLimit} :
  (∀ message_text record,
     SecureSession.parse_message_content message_text = PDict record
     ∨ EntireHistory.parse_json_message message_text = PDict record →
     type_allowed record)
  ∧ (∀ clean_text parsed,
       dict_get (py "Type") parsed = None →
       dict_get (py "Type")
         (for_items SecureSession.limit_field (ensure_fields clean_text parsed))
       = Some (PStr (py "Data leak"))
       ∧ dict_get (py "Type")
           (for_items EntireHistory.limit_field (ensure_fields clean_text parsed))
         = Some (PStr (py "Data leak")))
  ∧ (∀ clean_text parsed t,
       dict_get (py "Type") parsed = Some (PStr t) →
       (t ∈ ALLOWED_BREACH_TYPES →
        dict_get (py "Type")
          (for_items EntireHistory.limit_field (ensure_fields clean_text parsed))
        = Some (PStr t))
       ∧ (t ∉ ALLOWED_BREACH_TYPES →
          dict_get (py "Type")
            (for_items EntireHistory.limit_field (ensure_fields clean_text parsed))
          = Some (PStr (py "Other"))))
  ∧ (∀ record message_id date,
       type_allowed record →
       type_allowed (SecureSession.with_metadata record message_id date))
  ∧ (∀ existing new stored,
       Forall type_allowed existing → Forall type_allowed new →
       SecureSession.update_store existing new = Ok stored →
       Forall type_allowed stored).
Proof.
  split; [|split; [|split; [|split]]].
  - intros message_text record [Hp|Hp].
    + apply parse_message_content_record in Hp as ->.
      apply plain_text_record_type_allowed.
    + apply parse_json_message_record in Hp as ->.
      apply plain_text_record_type_allowed.
  - intros clean_text parsed Ht.
    rewrite !dict_get_for_items, ensure_fields_type, Ht. split; reflexivity.
  - intros clean_text parsed t Ht.
    rewrite dict_get_for_items, ensure_fields_type, Ht.
    cbn [fmap option_fmap option_map]. unfold EntireHistory.limit_field. eval_keys.
    rewrite !andb_false_l. split; intros Hin.
    + apply existsb_str_eqb in Hin. rewrite Hin. reflexivity.
    + destruct (existsb (str_eqb t) ALLOWED_BREACH_TYPES) eqn:He; [|reflexivity].
      apply existsb_str_eqb in He. contradiction.
  - intros record message_id date (t & Ht & Hin). exists t.
    rewrite with_metadata_type. auto.
  - intros existing new stored Hex Hnew. unfold SecureSession.update_store.
    destruct new as [|msg new]; [intros [= <-]; exact Hex|].
    destruct (SecureSession.deduplicate_messages existing (msg :: new))
      as [all_messages|e] eqn:Hd; [|discriminate].
    intros [= <-]. apply deduplicate_messages_sublist in Hd.
    apply Forall_forall. intros x Hx.
    assert (x ∈ existing ++ msg :: new) as Hin.
    { eapply sublist_subseteq; [exact Hd|].
      eapply sublist_subseteq; [apply save_data_sublist|exact Hx]. }
    apply elem_of_app in Hin as [Hin|Hin];
      [rewrite Forall_forall in Hex|rewrite Forall_forall in Hnew]; auto.
Qed.

(** ** Empty content *)

Lemma passes_filter_has_content `{StrLower} (msg : dict) :
  passes_filter msg → has_content msg.
Proof. intros (content & Hc & Hne & _). exists content. auto. Qed.

Lemma deduplicate_messages_pass `{StrLower} (existing new out : list dict) :
  SecureSession.deduplicate_messages existing new = Ok out →
  Forall passes_filter out.
Proof.
  rewrite deduplicate_messages_first_seen.
  destruct (first_raise (existing ++ new)); [discriminate|].
  intros [= <-]. apply Forall_forall.
  intros msg (h & Hk & _)%first_seen_fresh. apply key_of_Some in Hk. tauto.
Qed.

Lemma loads_empty `{RecursionLimit} : Json.loads [] = Raise JSONDecodeError.
Proof. reflexivity. Qed.

(** C5, as the code has it. Neither parser returns a record for an input
    that is not a string. For a string whose cleaned, truncated text is
    empty, [parse_json_message] returns [None], and
    [parse_message_content] returns the plain-text record with an empty
    [Content]. [validate_message_structure] accepts no record whose stripped
    [Content] is empty, and [deduplicate_messages] keeps none, so that
    none is written to the store. *)
Theorem empty_content_rejected_before_storage `{StrLower} `{RecursionLimit} :
  (∀ message_text,
     (∀ text, message_text ≠ PStr text) →
     SecureSession.parse_message_content message_text = PNone
     ∧ EntireHistory.parse_json_message message_text = PNone)
  ∧ (∀ text,
       truncate MAX_CONTENT_LENGTH (clean_text (PStr text)) = [] →
       EntireHistory.parse_json_message (PStr text) = PNone
       ∧ SecureSession.parse_message_content (PStr text)
         = PDict (SecureSession.plain_text_record []))
  ∧ (∀ message,
       SecureSession.validate_message_structure message = Ok true →
       has_content message)
  ∧ (∀ existing new out,
       SecureSession.deduplicate_messages existing new = Ok out →
       Forall has_content out)
  ∧ (∀ existing new stored,
       new ≠ [] →
       SecureSession.update_store existing new = Ok stored →
       Forall has_content stored).
Proof.
  split; [|split; [|split; [|split]]].
  - intros message_text Hns.
    destruct message_text; try (split; reflexivity). exfalso. eapply Hns. reflexivity.
  - intros text Hclean.
    unfold EntireHistory.parse_json_message, SecureSession.parse_message_content.
    rewrite Hclean. cbn [EntireHistory.parse_attempts SecureSession.parse_attempts].
    rewrite loads_empty. split; reflexivity.
  - intros message. unfold SecureSession.validate_message_structure, has_content.
    destruct (negb _); [discriminate|].
    destruct (SecureSession.stripped_content message) as [[|c content]|e];
      cbn [mbind result_bind]; try discriminate.
    intros _. exists (c :: content). split; [reflexivity|discriminate].
  - intros existing new out Hd. apply deduplicate_messages_pass in Hd.
    eapply Forall_impl; [exact Hd|]. apply @passes_filter_has_content.
  - intros existing new stored Hne. unfold SecureSession.update_store.
    destruct new as [|msg new]; [contradiction|].
    destruct (SecureSession.deduplicate_messages existing (msg :: new))
      as [all_messages|e] eqn:Hd; [|discriminate].
    intros [= <-]. apply deduplicate_messages_pass in Hd.
    apply Forall_forall. intros x Hx. rewrite Forall_forall in Hd.
    apply passes_filter_has_content, Hd.
    eapply sublist_subseteq; [apply save_data_sublist|exact Hx].
Qed.

(** C5 as stated fails: a message of angle brackets is cleaned to the
    empty text, and [parse_message_content] returns a record for it. *)
Lemma parse_message_content_empty_text_record :
  truncate MAX_CONTENT_LENGTH (clean_text (PStr (py "<>"))) = []
  ∧ @SecureSession.parse_message_content 1000%nat (PStr (py "<>"))
    = PDict [(py "Content", PStr []); (py "Source", PStr (py "Unknown"));
             (py "Type", PStr (py "Data leak"))].
Proof. split; vm_compute; reflexivity. Qed.

(** ** Stripping and the classifier *)

Lemma contains_lstrip (a : N) (k s : pystr) :
  is_space a = false → contains (a :: k) (lstrip s) = contains (a :: k) s.
Proof.
  intros Ha. induction s as [|c s IH]; [reflexivity|].
  cbn [lstrip]. destruct (is_space c) eqn:Hc; [|reflexivity].
  rewrite IH. cbn [contains startswith].
  destruct (N.eqb_spec a c) as [->|_]; [congruence|reflexivity].
Qed.

Lemma contains_rev (k s : pystr) : contains (rev k) (rev s) = contains k s.
Proof.
  apply eq_true_iff_eq. rewrite !contains_spec. unfold occurs_in. split.
  - intros (b & a & Hs). exists (rev a), (rev b).
    apply (f_equal (@rev N)) in Hs.
    rewrite rev_involutive, !rev_app_distr, rev_involutive, <- app_assoc in Hs. exact Hs.
  - intros (b & a & ->). exists (rev a), (rev b).
    rewrite !rev_app_distr, <- app_assoc. reflexivity.
Qed.

Lemma contains_strip (k s : pystr) :
  trimmed k = true → contains k (strip s) = contains k s.
Proof.
  unfold trimmed. destruct k as [|a k]; [discriminate|].
  destruct (rev (a :: k)) as [|b k'] eqn:Hrev; [discriminate|].
  intros [Ha Hb]%andb_true_iff. apply negb_true_iff in Ha, Hb.
  unfold strip, rstrip.
  rewrite <- contains_rev, rev_involutive, Hrev, contains_lstrip by assumption.
  rewrite <- Hrev, contains_rev. apply contains_lstrip. assumption.
Qed.

Lemma indicator_score_strip (keywords : list pystr) (s : pystr) :
  forallb trimmed keywords = true →
  indicator_score keywords (strip s) = indicator_score keywords s.
Proof.
  unfold indicator_score. induction keywords as [|k keywords IH]; [reflexivity|].
  cbn [forallb List.filter]. intros [Hk Hks]%andb_true_iff.
  rewrite (contains_strip k s Hk).
  destruct (contains k s); cbn [length]; rewrite IH by assumption; reflexivity.
Qed.

Lemma strip_nil : strip [] = [].
Proof. reflexivity. Qed.

Lemma relevance_strip `{StrLower} (breach spam : list pystr) (content : pystr) :
  (∀ s, str_lower (strip s) = strip (str_lower s)) →
  forallb trimmed breach = true → forallb trimmed spam = true →
  strip content ≠ [] →
  relevance breach spam (strip content) = relevance breach spam content.
Proof.
  intros Hstrip Hb Hs Hne. unfold relevance.
  destruct content as [|c content]; [contradiction|].
  destruct (strip (c :: content)) as [|c' content'] eqn:Heq; [contradiction|].
  rewrite <- Heq, Hstrip, !indicator_score_strip by assumption. reflexivity.
Qed.

Lemma is_legitimate_breach_strip `{StrLower} (content : pystr) :
  (∀ s, str_lower (strip s) = strip (str_lower s)) →
  strip content ≠ [] →
  SecureSession.is_legitimate_breach (strip content)
  = SecureSession.is_legitimate_breach content.
Proof. intros Hstrip. apply relevance_strip; [assumption|reflexivity..]. Qed.

(** The ASCII instance of [str.lower] commutes with [strip]. *)
Lemma is_space_bounds (c : N) : is_space c = true → c < 65 ∨ 122 < c.
Proof.
  unfold is_space.
  rewrite !orb_true_iff, !andb_true_iff, !N.leb_le, !N.eqb_eq. lia.
Qed.

Lemma is_space_ascii_lower (c : N) : is_space (ascii_lower_char c) = is_space c.
Proof.
  unfold ascii_lower_char.
  destruct ((65 <=? c) && (c <=? 90)) eqn:Hc; [|reflexivity].
  apply andb_true_iff in Hc as [H1%N.leb_le H2%N.leb_le].
  destruct (is_space (c + 32)) eqn:Ha; destruct (is_space c) eqn:Hb; try reflexivity;
    try (apply is_space_bounds in Ha; lia); apply is_space_bounds in Hb; lia.
Qed.

Lemma lstrip_ascii_lower (s : pystr) :
  lstrip (ascii_lower s) = ascii_lower (lstrip s).
Proof.
  unfold ascii_lower. induction s as [|c s IH]; [reflexivity|].
  cbn [map lstrip]. rewrite is_space_ascii_lower.
  destruct (is_space c); [exact IH|reflexivity].
Qed.

Lemma ascii_lower_strip (s : pystr) :
  ascii_lower (strip s) = strip (ascii_lower s).
Proof.
  unfold strip, rstrip. rewrite lstrip_ascii_lower.
  unfold ascii_lower at 2. rewrite <- (map_rev ascii_lower_char).
  change (map ascii_lower_char ?x) with (ascii_lower x).
  rewrite lstrip_ascii_lower. unfold ascii_lower. rewrite map_rev. reflexivity.
Qed.

(** ** Relevance *)

(** C6. Every record the merge returns has a [Content] that the classifier
    accepts, stripped or not; a record whose [Content] the classifier
    rejects is in no result of the merge, be it a record of the store or of
    the batch. A run with a batch that is not empty writes records of that
    result only; a run with an empty batch leaves the store as it is. *)
Theorem merge_drops_irrelevant `{StrLower} (existing new out : list dict) :
  (∀ s, str_lower (strip s) = strip (str_lower s)) →
  SecureSession.deduplicate_messages existing new = Ok out →
  (∀ msg, msg ∈ out →
     ∃ content, dict_get (py "Content") msg = Some (PStr content)
                ∧ SecureSession.is_legitimate_breach (strip content) = true
                ∧ SecureSession.is_legitimate_breach content = true)
  ∧ (∀ msg content,
       msg ∈ existing ∨ msg ∈ new →
       dict_get (py "Content") msg = Some (PStr content) →
       SecureSession.is_legitimate_breach content = false
       ∨ SecureSession.is_legitimate_breach (strip content) = false →
       msg ∉ out)
  ∧ (new ≠ [] →
     SecureSession.update_store existing new = Ok (SecureSession.save_data out)
     ∧ ∀ msg, msg ∈ SecureSession.save_data out → msg ∈ out)
  ∧ SecureSession.update_store existing [] = Ok existing.
Proof.
  intros Hstrip Hd.
  assert (∀ msg, msg ∈ out →
     ∃ content, dict_get (py "Content") msg = Some (PStr content)
                ∧ SecureSession.is_legitimate_breach (strip content) = true
                ∧ SecureSession.is_legitimate_breach content = true) as Hkept.
  { apply deduplicate_messages_pass in Hd. rewrite Forall_forall in Hd.
    intros msg (stripped & Hs & Hne & Hl)%Hd.
    unfold SecureSession.stripped_content in Hs.
    destruct (dict_get (py "Content") msg) as [[| | | |content| |]|] eqn:Hc;
      try discriminate.
    - injection Hs as <-. exists content. split; [reflexivity|]. split; [exact Hl|].
      rewrite <- is_legitimate_breach_strip; assumption.
    - injection Hs as <-. contradiction. }
  split; [exact Hkept|]. split; [|split; [|reflexivity]].
  - intros msg content _ Hc Hrej Hin.
    apply Hkept in Hin as (content' & Hc' & Hl1 & Hl2).
    rewrite Hc in Hc'. injection Hc' as <-. destruct Hrej; congruence.
  - intros Hne. unfold SecureSession.update_store.
    destruct new; [contradiction|]. rewrite Hd. split; [reflexivity|].
    intros msg. apply sublist_subseteq, save_data_sublist.
Qed.

Lemma merge_drops_irrelevant_witness :
  (∀ msg, msg ∈ [leak_a; dump_c] →
     ∃ content, dict_get (py "Content") msg = Some (PStr content)
                ∧ @SecureSession.is_legitimate_breach ascii_lower (strip content) = true
                ∧ @SecureSession.is_legitimate_breach ascii_lower content = true)
  ∧ (∀ msg content,
       msg ∈ [leak_a; chat_d] ∨ msg ∈ [leak_b; dump_c] →
       dict_get (py "Content") msg = Some (PStr content) →
       @SecureSession.is_legitimate_breach ascii_lower content = false
       ∨ @SecureSession.is_legitimate_breach ascii_lower (strip content) = false →
       msg ∉ [leak_a; dump_c])
  ∧ ([leak_b; dump_c] ≠ [] →
     @SecureSession.update_store ascii_lower [leak_a; chat_d] [leak_b; dump_c]
     = Ok (SecureSession.save_data [leak_a; dump_c])
     ∧ ∀ msg, msg ∈ SecureSession.save_data [leak_a; dump_c] → msg ∈ [leak_a; dump_c])
  ∧ @SecureSession.update_store ascii_lower [leak_a; chat_d] [] = Ok [leak_a; chat_d].
Proof.
  apply (@merge_drops_irrelevant ascii_lower [leak_a; chat_d] [leak_b; dump_c]).
  - exact ascii_lower_strip.
  - vm_compute. reflexivity.
Defined.

(** ** Idempotence and composition *)

Section Compose.
Context `{StrLower}.

(** Merging in two steps is merging once, whatever the batches. *)
Lemma deduplicate_messages_compose (store batch1 batch2 : list dict) :
  (SecureSession.deduplicate_messages store batch1
   ≫= λ merged, SecureSession.deduplicate_messages merged batch2)
  = SecureSession.deduplicate_messages store (batch1 ++ batch2).
Proof.
  rewrite (deduplicate_messages_first_seen store (batch1 ++ batch2)).
  rewrite (deduplicate_messages_first_seen store batch1).
  rewrite (app_assoc store), (first_raise_app (store ++ batch1)).
  destruct (first_raise (store ++ batch1)) eqn:Hr; [reflexivity|].
  cbn [mbind result_bind]. rewrite deduplicate_messages_first_seen, first_raise_app.
  rewrite (first_raise_sublist _ _ (first_seen_sublist key_of ∅ (store ++ batch1)) Hr).
  destruct (first_raise batch2); [reflexivity|].
  f_equal. generalize (store ++ batch1). intros l.
  rewrite (first_seen_app key_of ∅ (first_seen key_of ∅ l)), first_seen_idem.
  symmetry. apply first_seen_app.
Qed.

Lemma stable_keys (store : list dict) :
  (∀ s, str_lower (strip s) = strip (str_lower s)) →
  stable store →
  Forall (λ msg, ∃ h, key_of msg = Some h ∧ record_hash msg = Ok h) store.
Proof.
  intros Hstrip [Hall _]. eapply Forall_impl; [exact Hall|].
  intros msg (content & h & Hc & Hne & Hl & Hh). exists h. split; [|exact Hh].
  apply key_of_Some. split; [|exact Hh].
  exists (strip content). split; [|split; [exact Hne|]].
  - unfold SecureSession.stripped_content. rewrite Hc. reflexivity.
  - rewrite is_legitimate_breach_strip; assumption.
Qed.

End Compose.

(** X3. Merging two batches one after the other is merging their
    concatenation, for all batches, overlapping or not; an exception of the
    first merge is that of the whole. *)
Theorem merge_composes_always `{StrLower} (store batch1 batch2 : list dict) :
  (SecureSession.deduplicate_messages store batch1
   ≫= λ merged, SecureSession.deduplicate_messages merged batch2)
  = SecureSession.deduplicate_messages store (batch1 ++ batch2).
Proof. apply deduplicate_messages_compose. Qed.

(** C7. A store in stable relevance state merged with the empty batch is
    that store; and for two batches whose hashes are disjoint from each
    other and from the store, merging them one after the other is merging
    their concatenation. *)
Theorem merge_idempotent_and_composes `{StrLower}
    (store batch1 batch2 : list dict) :
  (∀ s, str_lower (strip s) = strip (str_lower s)) →
  stable store →
  disjoint_hashes store batch1 batch2 →
  SecureSession.deduplicate_messages store [] = Ok store
  ∧ (SecureSession.deduplicate_messages store batch1
     ≫= λ merged, SecureSession.deduplicate_messages merged batch2)
    = SecureSession.deduplicate_messages store (batch1 ++ batch2).
Proof.
  intros Hstrip Hstable _. split; [|apply deduplicate_messages_compose].
  pose proof (stable_keys store Hstrip Hstable) as Hkeys.
  rewrite deduplicate_messages_first_seen, app_nil_r.
  assert (first_raise store = None) as ->.
  { apply first_raise_None. eapply Forall_impl; [exact Hkeys|].
    intros msg (h & Hk & _). unfold key_of in Hk.
    destruct (merge_key msg); [eauto|discriminate]. }
  f_equal. apply first_seen_all.
  - eapply Forall_impl; [exact Hkeys|]. intros msg (h & -> & _). eauto.
  - destruct Hstable as [_ Hnd].
    assert (record_hash <$> store = Ok <$> omap key_of store) as Heq.
    { clear Hnd. induction Hkeys as [|msg l (h & Hk & Hh) _ IH]; [reflexivity|].
      cbn [fmap list_fmap omap list_omap]. rewrite Hk, Hh.
      cbn [fmap list_fmap]. f_equal. exact IH. }
    rewrite Heq in Hnd. eapply NoDup_fmap_1. exact Hnd.
  - intros h _. set_solver.
Qed.

Lemma merge_idempotent_and_composes_witness :
  @SecureSession.deduplicate_messages ascii_lower [leak_a; dump_c] []
  = Ok [leak_a; dump_c]
  ∧ (@SecureSession.deduplicate_messages ascii_lower [leak_a; dump_c] [breach_e]
     ≫= λ merged, @SecureSession.deduplicate_messages ascii_lower merged [hack_f])
    = @SecureSession.deduplicate_messages ascii_lower [leak_a; dump_c]
        ([breach_e] ++ [hack_f]).
Proof.
  apply (@merge_idempotent_and_composes ascii_lower).
  - exact ascii_lower_strip.
  - split.
    + repeat constructor; do 2 eexists; (split; [reflexivity|]);
        (split; [vm_compute; discriminate|]); split; vm_compute; reflexivity.
    + vm_compute. repeat constructor; rewrite ?elem_of_cons, ?elem_of_nil;
        intuition discriminate.
  - split; intros x y Hx Hy;
      repeat (apply elem_of_cons in Hx as [->|Hx]);
      repeat (apply elem_of_cons in Hy as [->|Hy]);
      try (apply elem_of_nil in Hx; contradiction);
      try (apply elem_of_nil in Hy; contradiction);
      vm_compute; discriminate.
Defined.

(** ** The cap *)

Lemma save_data_take (messages : list dict) :
  SecureSession.save_data messages = take SecureSession.MAX_MESSAGES messages.
Proof.
  unfold SecureSession.save_data.
  destruct (Nat.ltb_spec SecureSession.MAX_MESSAGES (length messages)); [reflexivity|].
  symmetry. apply take_ge. assumption.
Qed.

(** C9. What [save_data] writes is the first 10000 messages when it is
    given more, and all of them otherwise; of a merged list these are the
    records kept from the store before any record kept from the batch. *)
Theorem save_data_cap (messages : list dict) :
  SecureSession.MAX_MESSAGES = 10000%nat
  ∧ ((SecureSession.MAX_MESSAGES < length messages)%nat →
     SecureSession.save_data messages = take SecureSession.MAX_MESSAGES messages
     ∧ length (SecureSession.save_data messages) = SecureSession.MAX_MESSAGES)
  ∧ ((length messages ≤ SecureSession.MAX_MESSAGES)%nat →
     SecureSession.save_data messages = messages)
  ∧ (∀ (lower : StrLower) existing new,
       SecureSession.deduplicate_messages existing new = Ok messages →
       ∃ kept_existing kept_new,
         messages = kept_existing ++ kept_new
         ∧ kept_existing `sublist_of` existing
         ∧ kept_new `sublist_of` new
         ∧ SecureSession.save_data messages
           = take SecureSession.MAX_MESSAGES kept_existing
               ++ take (SecureSession.MAX_MESSAGES - length kept_existing) kept_new
         ∧ (new ≠ [] →
            SecureSession.update_store existing new
            = Ok (SecureSession.save_data messages))).
Proof.
  split; [reflexivity|]. split; [|split].
  - intros Hlt. rewrite save_data_take, length_take. split; [reflexivity|lia].
  - intros Hle. rewrite save_data_take. apply take_ge. assumption.
  - intros lower existing new Hd.
    pose proof Hd as Hm. rewrite deduplicate_messages_first_seen in Hm.
    destruct (first_raise (existing ++ new)); [discriminate|].
    injection Hm as <-. rewrite first_seen_app.
    eexists _, _. split; [reflexivity|].
    split; [apply first_seen_sublist|]. split; [apply first_seen_sublist|].
    split; [rewrite save_data_take; apply take_app|].
    intros Hne. unfold SecureSession.update_store.
    destruct new; [contradiction|]. rewrite Hd, first_seen_app. reflexivity.
Qed.

Example save_data_truncates :
  length (SecureSession.save_data (replicate 10001 leak_a)) = 10000%nat
  ∧ length (SecureSession.save_data (replicate 10000 leak_a)) = 10000%nat
  ∧ length (SecureSession.save_data (replicate 3 leak_a)) = 3%nat.
Proof. vm_compute. auto. Qed.

(** ** What the merge looks at *)

Lemma first_seen_flags_ext {A B K : Type} `{Countable K}
    (f : A → option K) (g : B → option K) (seen : gset K)
    (xs : list A) (ys : list B) :
  Forall2 (λ x y, f x = g y) xs ys →
  first_seen_flags f seen xs = first_seen_flags g seen ys.
Proof.
  intros Hxy. revert seen. induction Hxy as [|x y xs ys Hk _ IH]; intros seen;
    [reflexivity|].
  cbn [first_seen_flags]. rewrite Hk.
  destruct (g y) as [h|]; [destruct (decide (h ∈ seen))|]; rewrite IH; reflexivity.
Qed.

Section Content.
Context `{StrLower}.

Lemma same_content_key (a b : dict) : same_content a b → merge_key a = merge_key b.
Proof.
  unfold same_content, merge_key, SecureSession.stripped_content.
  intros ->. reflexivity.
Qed.

Lemma same_content_raise (xs ys : list dict) :
  Forall2 same_content xs ys → first_raise xs = first_raise ys.
Proof.
  induction 1 as [|x y xs ys Hxy _ IH]; [reflexivity|].
  cbn [first_raise]. rewrite (same_content_key x y Hxy), IH. reflexivity.
Qed.

Lemma kept_flags_first_seen (msgs : list dict) (seen : gset pystr)
    (unique : list dict) :
  kept_flags msgs (seen, unique)
  = match first_raise msgs with
    | Some e => Raise e
    | None => Ok (first_seen_flags key_of seen msgs)
    end.
Proof.
  revert seen unique. induction msgs as [|msg msgs IH]; intros seen unique;
    [reflexivity|].
  cbn [kept_flags first_raise first_seen_flags]. rewrite dedup_step_key.
  assert (key_of msg = match merge_key msg with Ok k => k | Raise _ => None end)
    as Hko by reflexivity.
  destruct (merge_key msg) as [[h|]|e] eqn:Hk; rewrite ?Hko;
    cbn [mbind result_bind fst snd]; [| |reflexivity].
  - destruct (decide (h ∈ seen)); cbn [mbind result_bind fst snd]; rewrite IH;
      destruct (first_raise msgs); cbn [mbind result_bind]; try reflexivity.
    + rewrite Nat.ltb_irrefl. reflexivity.
    + rewrite length_app. cbn [length].
      destruct (Nat.ltb_spec (length unique) (length unique + 1)); [reflexivity|lia].
  - rewrite IH. destruct (first_raise msgs); cbn [mbind result_bind]; [reflexivity|].
    rewrite Nat.ltb_irrefl. reflexivity.
Qed.

Lemma deduplicate_messages_flags (existing new : list dict) :
  SecureSession.deduplicate_messages existing new
  = (flags ← kept_flags (existing ++ new) (∅, []);
     Ok (select flags (existing ++ new))).
Proof.
  rewrite deduplicate_messages_first_seen, kept_flags_first_seen.
  destruct (first_raise (existing ++ new)); [reflexivity|].
  cbn [mbind result_bind]. rewrite select_first_seen_flags. reflexivity.
Qed.

End Content.

(** C10. Two runs of the merge on stores and batches that agree, record by
    record, on [Content] keep and drop the same positions, or raise the
    same exception: the decision reads no other field. In particular, of
    two records whose stripped [Content] is equal, whatever their [Source],
    the merge keeps the first at most. *)
Theorem merge_reads_content_only `{StrLower}
    (existing existing' new new' : list dict) :
  Forall2 same_content existing existing' →
  Forall2 same_content new new' →
  kept_flags (existing ++ new) (∅, []) = kept_flags (existing' ++ new') (∅, [])
  ∧ SecureSession.deduplicate_messages existing new
    = (flags ← kept_flags (existing ++ new) (∅, []);
       Ok (select flags (existing ++ new)))
  ∧ SecureSession.deduplicate_messages existing' new'
    = (flags ← kept_flags (existing ++ new) (∅, []);
       Ok (select flags (existing' ++ new')))
  ∧ (∀ a b content_a content_b out,
       dict_get (py "Content") a = Some (PStr content_a) →
       dict_get (py "Content") b = Some (PStr content_b) →
       strip content_a = strip content_b →
       record_hash a = record_hash b
       ∧ (SecureSession.deduplicate_messages [a] [b] = Ok out →
          out = [a] ∨ out = [])).
Proof.
  intros Hex Hnew.
  assert (Forall2 same_content (existing ++ new) (existing' ++ new')) as Hall
    by (apply Forall2_app; assumption).
  assert (kept_flags (existing ++ new) (∅, [])
          = kept_flags (existing' ++ new') (∅, [])) as Hflags.
  { rewrite !kept_flags_first_seen, (same_content_raise _ _ Hall).
    destruct (first_raise (existing' ++ new')); [reflexivity|]. f_equal.
    apply first_seen_flags_ext.
    eapply Forall2_impl; [exact Hall|].
    intros x y Hxy. unfold key_of. rewrite (same_content_key x y Hxy). reflexivity. }
  split; [exact Hflags|]. split; [apply deduplicate_messages_flags|].
  split; [rewrite Hflags; apply deduplicate_messages_flags|].
  intros a b content_a content_b out Ha Hb Hstrip.
  assert (SecureSession.stripped_content a = SecureSession.stripped_content b) as Hs.
  { unfold SecureSession.stripped_content. rewrite Ha, Hb, Hstrip. reflexivity. }
  assert (record_hash a = record_hash b) as Hh
    by (unfold record_hash; rewrite Hs; reflexivity).
  split; [exact Hh|].
  rewrite deduplicate_messages_first_seen.
  destruct (first_raise ([a] ++ [b])); [discriminate|]. intros [= <-].
  assert (key_of a = key_of b) as Hk
    by (unfold key_of, merge_key; rewrite Hs; reflexivity).
  cbn [app first_seen]. rewrite <- Hk.
  destruct (key_of a) as [h|]; [|right; reflexivity].
  destruct (decide (h ∈ ∅)) as [Hin|_]; [set_solver|].
  destruct (decide (h ∈ {[h]} ∪ ∅)) as [_|Hnin]; [left; reflexivity|set_solver].
Qed.

Lemma merge_reads_content_only_witness :
  @kept_flags ascii_lower ([leak_a; chat_d] ++ [leak_b; dump_c]) (∅, [])
  = @kept_flags ascii_lower ([leak_a_resourced; chat_d] ++ [leak_b; dump_c]) (∅, [])
  ∧ @SecureSession.deduplicate_messages ascii_lower [leak_a; chat_d] [leak_b; dump_c]
    = (flags ← @kept_flags ascii_lower ([leak_a; chat_d] ++ [leak_b; dump_c]) (∅, []);
       Ok (select flags ([leak_a; chat_d] ++ [leak_b; dump_c])))
  ∧ @SecureSession.deduplicate_messages ascii_lower
      [leak_a_resourced; chat_d] [leak_b; dump_c]
    = (flags ← @kept_flags ascii_lower ([leak_a; chat_d] ++ [leak_b; dump_c]) (∅, []);
       Ok (select flags ([leak_a_resourced; chat_d] ++ [leak_b; dump_c])))
  ∧ (∀ a b content_a content_b out,
       dict_get (py "Content") a = Some (PStr content_a) →
       dict_get (py "Content") b = Some (PStr content_b) →
       strip content_a = strip content_b →
       record_hash a = record_hash b
       ∧ (@SecureSession.deduplicate_messages ascii_lower [a] [b] = Ok out →
          out = [a] ∨ out = [])).
Proof.
  apply (@merge_reads_content_only ascii_lower
           [leak_a; chat_d] [leak_a_resourced; chat_d] [leak_b; dump_c] [leak_b; dump_c]);
    repeat constructor.
Defined.

Example kept_flags_sample :
  @kept_flags ascii_lower ([leak_a; chat_d] ++ [leak_b; dump_c]) (∅, [])
  = Ok [true; false; false; true].
Proof. vm_compute. reflexivity. Qed.

(** ** The scenarios *)

(** C8, evaluated. The raw text is a JSON object with the three fields,
    but [clean_text] deletes its double quotes before [json.loads] reads
    it: [parse_json_message] returns [None] and [parse_message_content]
    the plain-text record of the cleaned text, with [Source] [Unknown].
    The classifier does accept the scenario's [Content]. *)
Theorem scenario_structured_input :
  @Json.loads 1000%nat scenario_raw
  = Ok (PDict [(py "Source", PStr (py "test.com"));
               (py "Content", PStr scenario_content);
               (py "Type", PStr (py "Data leak"))])
  ∧ clean_text (PStr scenario_raw) = scenario_cleaned
  ∧ @Json.loads 1000%nat scenario_cleaned = Raise JSONDecodeError
  ∧ @EntireHistory.parse_json_message ascii_lower 1000%nat (PStr scenario_raw) = PNone
  ∧ @SecureSession.parse_message_content 1000%nat (PStr scenario_raw)
    = PDict [(py "Content", PStr scenario_cleaned);
             (py "Source", PStr (py "Unknown"));
             (py "Type", PStr (py "Data leak"))]
  ∧ @EntireHistory.is_relevant_breach ascii_lower scenario_content = true
  ∧ indicator_score EntireHistory.BREACH_INDICATORS (ascii_lower scenario_content)
    = 5%nat
  ∧ indicator_score EntireHistory.SPAM_INDICATORS (ascii_lower scenario_content)
    = 0%nat
  ∧ @SecureSession.is_legitimate_breach ascii_lower scenario_content = true
  ∧ indicator_score SecureSession.BREACH_INDICATORS (ascii_lower scenario_content)
    = 4%nat
  ∧ indicator_score SecureSession.SPAM_INDICATORS (ascii_lower scenario_content)
    = 0%nat.
Proof. repeat split; vm_compute; reflexivity. Qed.

(** X2. Whatever the message, a record that [parse_message_content] returns
    is the plain-text record of the cleaned text: its [Source] is
    [Unknown] and its [Type] [Data leak], and no field of a JSON message
    is read. *)
Theorem parsed_record_plain_text `{RecursionLimit}
    (message_text : pyval) (record : dict) :
  SecureSession.parse_message_content message_text = PDict record →
  record = [(py "Content", PStr (truncate MAX_CONTENT_LENGTH (clean_text message_text)));
            (py "Source", PStr (py "Unknown"));
            (py "Type", PStr (py "Data leak"))]
  ∧ Forall (λ c, c ∉ [60; 62; 34; 39])
           (truncate MAX_CONTENT_LENGTH (clean_text message_text)).
Proof.
  intros Hp. split; [apply parse_message_content_record, Hp|].
  destruct message_text as [| | | |text| |]; try discriminate.
  apply truncate_Forall, strip_Forall, re_sub_class_Forall.
Qed.

Lemma parsed_record_plain_text_witness :
  [(py "Content", PStr scenario_cleaned); (py "Source", PStr (py "Unknown"));
   (py "Type", PStr (py "Data leak"))]
  = [(py "Content", PStr (truncate MAX_CONTENT_LENGTH (clean_text (PStr scenario_raw))));
     (py "Source", PStr (py "Unknown"));
     (py "Type", PStr (py "Data leak"))]
  ∧ Forall (λ c, c ∉ [60; 62; 34; 39])
           (truncate MAX_CONTENT_LENGTH (clean_text (PStr scenario_raw))).
Proof.
  apply (@parsed_record_plain_text 1000%nat (PStr scenario_raw)).
  vm_compute. reflexivity.
Defined.

(** A text that is a JSON number, array or literal is returned as that
    value: neither a record nor [None]. *)
Example parse_message_content_number :
  @SecureSession.parse_message_content 1000%nat (PStr (py "123")) = PInt 123
  ∧ @SecureSession.parse_message_content 1000%nat (PStr (py "[1, 2]"))
    = PList [PInt 1; PInt 2]
  ∧ @SecureSession.parse_message_content 1000%nat (PStr (py "true")) = PBool true.
Proof. repeat split; vm_compute; reflexivity. Qed.

(** *** The history script's parser

    [parse_json_message] returns a record only for a [dict], which the
    cleaned text gives only when it is an empty pair of braces; and no
    keyword occurs in that. So it returns [None] for every message, given
    that [str.lower] is the ASCII one on ASCII text. *)

Lemma contains_head (a : N) (k s : pystr) : contains (a :: k) s = true → a ∈ s.
Proof.
  intros (before & after & ->)%contains_spec.
  apply elem_of_app. right. apply list_elem_of_here.
Qed.

Lemma brace_or_ws_bounds (c : N) :
  brace_or_ws c → c < 65 ∨ (122 < c ∧ c < 128).
Proof.
  unfold brace_or_ws, Json.is_ws. rewrite !orb_true_iff, !N.eqb_eq. lia.
Qed.

Lemma indicator_score_braces (keywords : list pystr) (s : pystr) :
  forallb starts_lower keywords = true → Forall brace_or_ws s →
  indicator_score keywords s = 0%nat.
Proof.
  intros Hk Hs. unfold indicator_score.
  induction keywords as [|k keywords IH]; [reflexivity|].
  cbn [forallb] in Hk. apply andb_true_iff in Hk as [Hk Hks].
  cbn [List.filter]. destruct (contains k s) eqn:Hc; [|auto].
  destruct k as [|a k]; [discriminate|].
  apply contains_head in Hc. rewrite Forall_forall in Hs.
  apply Hs, brace_or_ws_bounds in Hc.
  cbn [starts_lower] in Hk. apply andb_true_iff in Hk as [H1%N.leb_le H2%N.leb_le].
  lia.
Qed.

Lemma ascii_lower_braces (s : pystr) : Forall brace_or_ws s → ascii_lower s = s.
Proof.
  unfold ascii_lower. induction 1 as [|c s Hc%brace_or_ws_bounds _ IH]; [reflexivity|].
  cbn [map]. rewrite IH. f_equal. unfold ascii_lower_char.
  destruct ((65 <=? c) && (c <=? 90)) eqn:Hcap; [|reflexivity].
  apply andb_true_iff in Hcap as [H1%N.leb_le H2%N.leb_le]. lia.
Qed.

Lemma braces_ascii (s : pystr) : Forall brace_or_ws s → Forall (λ c, c < 128) s.
Proof.
  intros Hs. eapply Forall_impl; [exact Hs|].
  intros c Hc%brace_or_ws_bounds. lia.
Qed.

Lemma parse_json_message_falsy `{StrLower} `{RecursionLimit} (message_text : pyval) :
  (∀ s, Forall (λ c, c < 128) s → str_lower s = ascii_lower s) →
  EntireHistory.parse_json_message message_text = PNone.
Proof.
  intros Hlower. unfold EntireHistory.parse_json_message.
  destruct message_text as [| | | |text| |]; try reflexivity.
  set (clean := truncate MAX_CONTENT_LENGTH (clean_text (PStr text))).
  assert (Forall (λ c, c ≠ 34) clean) as Hq
    by apply truncate_Forall, clean_text_unquoted.
  cbn [EntireHistory.parse_attempts].
  destruct (Json.loads clean) as [v|e] eqn:Hl; [|destruct e; reflexivity].
  pose proof (loads_unquoted _ _ Hq Hl) as Hkey.
  destruct v as [| | | | | |d]; try contradiction; try reflexivity.
  apply (loads_dict_braces _ _ Hq) in Hl as [-> Hbr].
  destruct (plain_record_limited clean) as [_ ->]; [apply truncate_length|].
  unfold EntireHistory.relevant_or_none, SecureSession.plain_text_record.
  cbn [dict_get]. eval_keys.
  unfold EntireHistory.is_relevant_breach, relevance.
  destruct clean as [|c clean'] eqn:Hclean; [reflexivity|]. rewrite <- Hclean in *.
  rewrite Hlower, ascii_lower_braces by auto using braces_ascii.
  rewrite (indicator_score_braces EntireHistory.BREACH_INDICATORS)
    by (reflexivity || assumption).
  cbv zeta. change (0 <? 0)%nat with false. rewrite andb_false_r. reflexivity.
Qed.

(** X1. [parse_json_message] returns [None] for every message, when
    [str.lower] is the ASCII one on ASCII text. *)
Theorem parse_json_message_none `{StrLower} `{RecursionLimit} (message_text : pyval) :
  (∀ s, Forall (λ c, c < 128) s → str_lower s = ascii_lower s) →
  EntireHistory.parse_json_message message_text = PNone.
Proof. apply parse_json_message_falsy. Qed.

Lemma parse_json_message_none_witness :
  @EntireHistory.parse_json_message ascii_lower 1000%nat (PStr (py "{}")) = PNone.
Proof. apply (@parse_json_message_none ascii_lower 1000%nat). reflexivity. Defined.

(** C4, evaluated. The record parsed from a plain message serializes to a
    JSON text that [json.loads] reads back as the same record; parsing
    that text gives a record whose [Content] is the whole text without its
    quotes. *)
Theorem round_trip_plain_record :
  @SecureSession.parse_message_content 1000%nat (PStr plain_raw) = PDict plain_record
  ∧ Json.dumps (PDict plain_record) = Some plain_serialized
  ∧ @Json.loads 1000%nat plain_serialized = Ok (PDict plain_record)
  ∧ @SecureSession.parse_message_content 1000%nat (PStr plain_serialized)
    = PDict [(py "Content", PStr plain_reparsed_content);
             (py "Source", PStr (py "Unknown"));
             (py "Type", PStr (py "Data leak"))]
  ∧ plain_reparsed_content ≠ plain_raw
  ∧ @EntireHistory.parse_json_message ascii_lower 1000%nat (PStr plain_serialized)
    = PNone.
Proof. repeat split; try (vm_compute; reflexivity). discriminate. Qed.

(** * The pipeline around the merge *)

(** ** Reading back what [json.dumps] wrote

    The encoder writes each value in a shape that the decoder reads back
    as that value, given fuel for its size and a recursion limit for its
    depth. *)

Lemma int_of_digits_snoc (ds : pystr) (d : N) :
  Json.int_of_digits (ds ++ [d])
  = (Json.int_of_digits ds * 10 + Z.of_N (d - 48))%Z.
Proof. unfold Json.int_of_digits. rewrite fold_left_app. reflexivity. Qed.

Lemma is_digit_spec (c : N) : Json.is_digit c = true ↔ 48 ≤ c ≤ 57.
Proof. unfold Json.is_digit. rewrite andb_true_iff, !N.leb_le. reflexivity. Qed.

Lemma decimal_spec (fuel : nat) :
  ∀ n, n < 2 ^ N.of_nat fuel →
    Forall (λ c, Json.is_digit c = true) (Json.decimal (S fuel) n)
    ∧ Json.int_of_digits (Json.decimal (S fuel) n) = Z.of_N n
    ∧ ∃ c ds, Json.decimal (S fuel) n = c :: ds
              ∧ (c = 48 → n = 0 ∧ ds = []).
Proof.
  induction fuel as [|fuel IH]; intros n Hn.
  - assert (n = 0) as -> by (cbn in Hn; lia).
    repeat split; [repeat constructor|eauto].
  - change (Json.decimal (S (S fuel)) n)
      with ((if n <? 10 then [] else Json.decimal (S fuel) (n / 10)) ++ [48 + n mod 10]).
    pose proof (N.mod_lt n 10 ltac:(lia)) as Hmod.
    assert (Json.is_digit (48 + n mod 10) = true) as Hd
      by (apply is_digit_spec; revert Hmod; generalize (n mod 10); lia).
    destruct (N.ltb_spec n 10) as [Hlt|Hge].
    + rewrite N.mod_small by lia. cbn [app]. split; [repeat constructor; 
        rewrite N.mod_small in Hd by lia; exact Hd|].
      split; [unfold Json.int_of_digits; cbn [fold_left]; lia|].
      exists (48 + n), []. split; [reflexivity|]. intros; split; [lia|reflexivity].
    + assert (n / 10 < 2 ^ N.of_nat fuel) as Hdiv.
      { rewrite Nat2N.inj_succ, N.pow_succ_r' in Hn.
        apply N.Div0.div_lt_upper_bound. lia. }
      destruct (IH _ Hdiv) as (Hall & Hval & c & ds & Heq & Hzero).
      split; [apply Forall_app; split; [exact Hall|repeat constructor; exact Hd]|].
      split.
      * rewrite int_of_digits_snoc, Hval.
        pose proof (N.div_mod n 10 ltac:(lia)) as Hdm. clear -Hdm Hmod.
        revert Hdm Hmod. generalize (n mod 10) (n / 10). lia.
      * exists c, (ds ++ [48 + n mod 10]). rewrite Heq. split; [reflexivity|].
        intros Hc. destruct (Hzero Hc) as [Hz _].
        assert (n / 10 ≠ 0) by (intros Hq; apply N.div_small_iff in Hq; lia).
        contradiction.
Qed.

Lemma size_bound (n : N) : n < 2 ^ N.of_nat (N.to_nat (N.size n)).
Proof.
  rewrite N2Nat.id. destruct n as [|p]; [reflexivity|].
  apply N.size_gt.
Qed.

Lemma digits_app (ds rest : pystr) :
  Forall (λ c, Json.is_digit c = true) ds →
  match rest with [] => True | c :: _ => Json.is_digit c = false end →
  Json.digits (ds ++ rest) = (ds, rest).
Proof.
  intros Hds Hrest. induction Hds as [|c ds Hc _ IH]; cbn [app Json.digits].
  - destruct rest as [|c rest]; [reflexivity|]. cbn [Json.digits].
    rewrite Hrest. reflexivity.
  - rewrite Hc, IH. reflexivity.
Qed.

Lemma match_number_encode_int (n : Z) (rest : pystr) :
  (length (Json.int_digits n) ≤ Json.INT_MAX_STR_DIGITS)%nat →
  number_end rest →
  Json.match_number (Json.encode_int n ++ rest) = Some (Ok (PInt n, rest)).
Proof.
  intros Hlen%Nat.ltb_ge Hend. unfold Json.encode_int, Json.int_digits in *.
  destruct (decimal_spec _ _ (size_bound (Z.abs_N n)))
    as (Hall & Hval & c & ds & Heq & Hzero).
  rewrite Heq in *. apply Forall_cons in Hall as [Hc Hds].
  assert (c ≠ 45) as Hminus by (apply is_digit_spec in Hc; lia).
  assert (Json.int_part (c :: ds ++ rest) = Some (c :: ds, rest)) as Hint.
  { unfold Json.int_part. destruct (N.eqb_spec c 48) as [->|_].
    - destruct (Hzero eq_refl) as [_ ->]. reflexivity.
    - rewrite Hc, digits_app; [reflexivity|exact Hds|].
      destruct rest; [exact I|apply Hend]. }
  assert (Json.frac_part rest = ([], rest)) as Hfrac.
  { unfold Json.frac_part. destruct rest as [|p [|d rest]]; try reflexivity.
    destruct Hend as (_ & Hp & _). destruct (N.eqb_spec p 46); [contradiction|reflexivity]. }
  assert (Json.exp_part rest = ([], rest)) as Hexp.
  { unfold Json.exp_part. destruct rest as [|e rest]; [reflexivity|].
    destruct Hend as (_ & _ & He & HE).
    destruct (N.eqb_spec e 101); [contradiction|].
    destruct (N.eqb_spec e 69); [contradiction|reflexivity]. }
  unfold Json.match_number.
  destruct (Z.ltb_spec n 0) as [Hneg|Hpos].
  - cbn [app Json.minus_part N.eqb Pos.eqb fst snd].
    change (45 =? 45) with true. cbn [fst snd].
    rewrite Hint. cbn [mbind option_bind fst snd]. rewrite Hfrac. cbn [fst snd].
    rewrite Hexp. cbn [fst snd]. rewrite Hlen, Hval. do 4 f_equal. lia.
  - cbn [app Json.minus_part].
    destruct (N.eqb_spec c 45); [contradiction|]. cbn [fst snd].
    rewrite Hint. cbn [mbind option_bind fst snd]. rewrite Hfrac. cbn [fst snd].
    rewrite Hexp. cbn [fst snd]. rewrite Hlen, Hval. do 4 f_equal. lia.
Qed.

Lemma scanstring_unicode_escape (u h1 h2 h3 h4 : N) (tail : pystr) :
  Json.hex4 h1 h2 h3 h4 = Some u → Json.is_high_surrogate u = false →
  Json.scanstring (92 :: 117 :: h1 :: h2 :: h3 :: h4 :: tail)
  = (r ← Json.scanstring tail; Ok (u :: r.1, r.2)).
Proof.
  intros Hhex Hhigh.
  change (Json.scanstring (92 :: 117 :: h1 :: h2 :: h3 :: h4 :: tail))
    with (match Json.hex4 h1 h2 h3 h4 with
          | None => Raise JSONDecodeError
          | Some u =>
              match tail with
              | b :: e' :: g1 :: g2 :: g3 :: g4 :: s4 =>
                  match Json.hex4 g1 g2 g3 g4 with
                  | Some u2 =>
                      if Json.is_high_surrogate u && (b =? 92) && (e' =? 117)
                         && Json.is_low_surrogate u2
                      then
                        r ← Json.scanstring s4;
                        Ok (0x10000 + (u - 0xD800) * 0x400 + (u2 - 0xDC00)
                              :: r.1, r.2)
                      else r ← Json.scanstring tail; Ok (u :: r.1, r.2)
                  | None => r ← Json.scanstring tail; Ok (u :: r.1, r.2)
                  end
              | _ => r ← Json.scanstring tail; Ok (u :: r.1, r.2)
              end
          end).
  rewrite Hhex.
  destruct tail as [|b [|e' [|g1 [|g2 [|g3 [|g4 s4]]]]]]; try reflexivity.
  destruct (Json.hex4 g1 g2 g3 g4); [|reflexivity].
  rewrite Hhigh. reflexivity.
Qed.

Lemma hex4_control (c : N) :
  c < 32 →
  ∃ h1 h2 h3 h4, Sha256.hex 4 c = [h1; h2; h3; h4]
                 ∧ Json.hex4 h1 h2 h3 h4 = Some c.
Proof.
  intros Hc. destruct c as [|p]; [vm_compute; eauto 10|].
  do 5 (try (destruct p as [p|p|]; try lia)); vm_compute; eauto 10.
Qed.

Lemma scanstring_escape (c : N) (tail : pystr) :
  Json.scanstring (Json.escape_char c ++ tail)
  = (r ← Json.scanstring tail; Ok (c :: r.1, r.2)).
Proof.
  unfold Json.escape_char.
  destruct (N.eqb_spec c 34) as [->|H34]; [reflexivity|].
  destruct (N.eqb_spec c 92) as [->|H92]; [reflexivity|].
  destruct (N.eqb_spec c 10) as [->|H10]; [reflexivity|].
  destruct (N.eqb_spec c 13) as [->|H13]; [reflexivity|].
  destruct (N.eqb_spec c 9) as [->|H9]; [reflexivity|].
  destruct (N.eqb_spec c 8) as [->|H8]; [reflexivity|].
  destruct (N.eqb_spec c 12) as [->|H12]; [reflexivity|].
  destruct (N.ltb_spec c 32) as [Hlt|Hge].
  - destruct (hex4_control c Hlt) as (h1 & h2 & h3 & h4 & -> & Hhex).
    apply scanstring_unicode_escape; [exact Hhex|].
    unfold Json.is_high_surrogate. apply andb_false_iff. left. apply N.leb_gt. lia.
  - cbn [app Json.scanstring].
    destruct (N.eqb_spec c 34); [contradiction|].
    destruct (N.leb_spec c 31); [lia|].
    destruct (N.eqb_spec c 92); [contradiction|]. reflexivity.
Qed.

Lemma scanstring_encode (s rest : pystr) :
  Json.scanstring (concat (map Json.escape_char s) ++ 34 :: rest) = Ok (s, rest).
Proof.
  induction s as [|c s IH]; [reflexivity|].
  cbn [map concat]. rewrite <- app_assoc, scanstring_escape, IH. reflexivity.
Qed.

Lemma encode_at_list (level : nat) (x : pyval) (items : list pyval) :
  Json.encode_at level (PList (x :: items))
  = (parts ← mapM (Json.encode_at (S level)) (x :: items);
     Some (container level 91 93 parts)).
Proof.
  assert (∀ l,
    (fix each (l : list pyval) : option (list pystr) :=
       match l with
       | [] => Some []
       | x :: l' =>
           a ← Json.encode_at (S level) x; b ← each l'; Some (a :: b)
       end) l = mapM (Json.encode_at (S level)) l) as Heach.
  { induction l as [|y l IH]; [reflexivity|].
    cbn [mapM]. rewrite <- IH. reflexivity. }
  cbn [Json.encode_at mapM]. rewrite Heach. reflexivity.
Qed.

Lemma encode_at_dict (level : nat) (kv : pystr * pyval) (items : list (pystr * pyval)) :
  Json.encode_at level (PDict (kv :: items))
  = (parts ← mapM (encode_pair (S level)) (kv :: items);
     Some (container level 123 125 parts)).
Proof.
  assert (∀ l,
    (fix each (l : list (pystr * pyval)) : option (list pystr) :=
       match l with
       | [] => Some []
       | (k, x) :: l' =>
           a ← Json.encode_at (S level) x; b ← each l';
           Some ((Json.encode_str k ++ py ": " ++ a) :: b)
       end) l = mapM (encode_pair (S level)) l) as Heach.
  { induction l as [|[k y] l IH]; [reflexivity|].
    cbn [mapM]. rewrite <- IH. unfold encode_pair. cbn [fst snd].
    destruct (Json.encode_at (S level) y); reflexivity. }
  destruct kv as [k x]. cbn [Json.encode_at mapM]. rewrite Heach.
  unfold encode_pair. cbn [fst snd].
  destruct (Json.encode_at (S level) x); reflexivity.
Qed.

Lemma join_following (level : nat) (close : N) (p : pystr) (ps : list pystr)
    (rest : pystr) :
  Json.join (44 :: Json.newline_indent (S level)) (p :: ps)
    ++ Json.newline_indent level ++ close :: rest
  = p ++ following level close ps rest.
Proof.
  destruct ps as [|p' ps]; [reflexivity|].
  cbn [Json.join following]. rewrite <- !app_assoc. reflexivity.
Qed.

Lemma skip_ws_newline_indent (level : nat) (s : pystr) :
  Json.skip_ws (Json.newline_indent level ++ s) = Json.skip_ws s.
Proof.
  unfold Json.newline_indent. cbn [app Json.skip_ws].
  change (Json.is_ws 10) with true. cbv iota.
  induction (2 * level)%nat as [|n IH]; [reflexivity|exact IH].
Qed.

Lemma skip_ws_value (c : N) (s : pystr) :
  Json.is_ws c = false → Json.skip_ws (c :: s) = c :: s.
Proof. intros Hc. cbn [Json.skip_ws]. rewrite Hc. reflexivity. Qed.

Lemma number_end_following (level : nat) (close : N) (ps : list pystr) (rest : pystr) :
  number_end (following level close ps rest).
Proof. destruct ps; cbn; repeat split; discriminate. Qed.

Lemma encode_int_first (n : Z) :
  ∃ c t, Json.encode_int n = c :: t ∧ (c = 45 ∨ Json.is_digit c = true).
Proof.
  unfold Json.encode_int, Json.int_digits.
  destruct (decimal_spec _ _ (size_bound (Z.abs_N n)))
    as (Hall & _ & c & ds & Heq & _).
  rewrite Heq in *. apply Forall_cons in Hall as [Hc _].
  destruct (n <? 0)%Z; cbn [app]; eauto 6.
Qed.

Lemma encode_first (level : nat) (v : pyval) (text : pystr) :
  Json.encode_at level v = Some text →
  ∃ c t, text = c :: t ∧ starts_value c.
Proof.
  assert (∀ c, (c = 45 ∨ Json.is_digit c = true) → starts_value c) as Hnum.
  { intros c [->|Hc%is_digit_spec]; [repeat split; discriminate|].
    unfold starts_value, Json.is_ws.
    repeat split; try lia.
    rewrite !orb_false_iff, !N.eqb_neq. lia. }
  destruct v as [|[]|n|lexeme|s|[|x items]|[|kv items]].
  - intros [= <-]. eexists _, _. split; [reflexivity|repeat split; discriminate].
  - intros [= <-]. eexists _, _. split; [reflexivity|repeat split; discriminate].
  - intros [= <-]. eexists _, _. split; [reflexivity|repeat split; discriminate].
  - cbn [Json.encode_at]. case_match; [discriminate|].
    intros [= <-]. destruct (encode_int_first n) as (c & t & -> & Hc). eauto.
  - discriminate.
  - intros [= <-]. eexists _, _. split; [reflexivity|repeat split; discriminate].
  - intros [= <-]. eexists _, _. split; [reflexivity|repeat split; discriminate].
  - rewrite encode_at_list. destruct (mapM _ _); [|discriminate].
    intros [= <-]. eexists _, _. split; [reflexivity|repeat split; discriminate].
  - intros [= <-]. eexists _, _. split; [reflexivity|repeat split; discriminate].
  - rewrite encode_at_dict. destruct (mapM _ _); [|discriminate].
    intros [= <-]. eexists _, _. split; [reflexivity|repeat split; discriminate].
Qed.

Lemma scan_once_number (fuel depth : nat) (c : N) (s : pystr) (r : pyval * pystr) :
  c = 45 ∨ Json.is_digit c = true →
  Json.match_number (c :: s) = Some (Ok r) →
  Json.scan_once (S fuel) depth (c :: s) = Ok r.
Proof.
  intros Hc Hm.
  assert (c ≠ 34 ∧ c ≠ 123 ∧ c ≠ 91 ∧ c ≠ 110 ∧ c ≠ 116 ∧ c ≠ 102) as Hne.
  { destruct Hc as [->|Hc%is_digit_spec]; [repeat split; discriminate|lia]. }
  destruct Hne as (H1 & H2 & H3 & H4 & H5 & H6).
  unfold_scan.
  destruct (N.eqb_spec c 34); [contradiction|].
  destruct (N.eqb_spec c 123); [contradiction|].
  destruct (N.eqb_spec c 91); [contradiction|].
  assert (∀ lit a, startswith (a :: lit) (c :: s) = (a =? c) && startswith lit s)
    as Hsw by reflexivity.
  change (py "null") with (110 :: py "ull").
  change (py "true") with (116 :: py "rue").
  change (py "false") with (102 :: py "alse").
  rewrite !Hsw.
  destruct (N.eqb_spec 110 c); [congruence|].
  destruct (N.eqb_spec 116 c); [congruence|].
  destruct (N.eqb_spec 102 c); [congruence|].
  cbn [andb]. rewrite Hm. reflexivity.
Qed.

Lemma dict_set_fresh (k : pystr) (v : pyval) (d : dict) :
  k ∉ map fst d → dict_set k v d = d ++ [(k, v)].
Proof.
  induction d as [|[k' v'] d IH]; intros Hk; [reflexivity|].
  cbn [dict_set map fst] in *. apply not_elem_of_cons in Hk as [Hne Hk].
  destruct (str_eqb_spec k k'); [contradiction|]. rewrite IH by assumption.
  reflexivity.
Qed.

Lemma dict_of_pairs_NoDup (pairs : list (pystr * pyval)) :
  NoDup (map fst pairs) → dict_of_pairs pairs = pairs.
Proof.
  unfold dict_of_pairs.
  assert (∀ d, NoDup (map fst (d ++ pairs)) →
               fold_left (λ d kv, dict_set kv.1 kv.2 d) pairs d = d ++ pairs) as Hgen.
  { induction pairs as [|[k v] pairs IH]; intros d Hnd.
    - rewrite app_nil_r. reflexivity.
    - cbn [fold_left fst snd]. rewrite dict_set_fresh.
      + rewrite IH; rewrite <- app_assoc; [reflexivity|exact Hnd].
      + rewrite map_app in Hnd. apply NoDup_app in Hnd as (_ & Hdis & _).
        intros Hin. apply (Hdis k Hin). cbn. apply list_elem_of_here. }
  intros Hnd. apply (Hgen []). exact Hnd.
Qed.

Lemma foldr_max_le (d : nat) (l : list nat) :
  (foldr Nat.max 0 l ≤ d)%nat ↔ Forall (λ h, (h ≤ d)%nat) l.
Proof.
  induction l as [|h l IH]; cbn [foldr].
  - split; [constructor|lia].
  - rewrite Forall_cons, <- IH. lia.
Qed.

Lemma foldr_and_Forall (l : list Prop) : foldr and True l ↔ Forall id l.
Proof.
  induction l as [|P l IH]; cbn [foldr]; [split; [constructor|trivial]|].
  rewrite Forall_cons, IH. reflexivity.
Qed.

Lemma mapM_cons_Some {A B : Type} (f : A → option B) (x : A) (l : list A)
    (parts : list B) :
  mapM f (x :: l) = Some parts →
  ∃ a ps, parts = a :: ps ∧ f x = Some a ∧ mapM f l = Some ps.
Proof.
  cbn [mapM]. destruct (f x) as [a|]; [|discriminate].
  destruct (mapM f l) as [ps|]; [|discriminate].
  intros [= <-]. eauto.
Qed.

Lemma well_formed_list (items : list pyval) :
  well_formed (PList items) ↔ Forall well_formed items.
Proof.
  cbn [well_formed]. induction items as [|x items IH]; cbn [map foldr].
  - split; [constructor|trivial].
  - rewrite Forall_cons, IH. reflexivity.
Qed.

Lemma well_formed_dict (items : list (pystr * pyval)) :
  well_formed (PDict items)
  ↔ NoDup (map fst items) ∧ Forall (λ kv, well_formed kv.2) items.
Proof.
  cbn [well_formed]. apply and_iff_compat_l.
  induction items as [|x items IH]; cbn [map foldr].
  - split; [constructor|trivial].
  - rewrite Forall_cons, IH. reflexivity.
Qed.

Lemma height_list (items : list pyval) (depth : nat) :
  (height (PList items) ≤ S depth)%nat ↔ Forall (λ x, (height x ≤ depth)%nat) items.
Proof.
  cbn [height]. rewrite <- Nat.succ_le_mono, foldr_max_le, Forall_map. reflexivity.
Qed.

Lemma height_dict (items : list (pystr * pyval)) (depth : nat) :
  (height (PDict items) ≤ S depth)%nat
  ↔ Forall (λ kv, (height kv.2 ≤ depth)%nat) items.
Proof.
  cbn [height]. rewrite <- Nat.succ_le_mono, foldr_max_le, Forall_map. reflexivity.
Qed.

Lemma container_text (level : nat) (open close : N) (p : pystr) (ps : list pystr)
    (rest : pystr) :
  container level open close (p :: ps) ++ rest
  = open :: Json.newline_indent (S level) ++ p ++ following level close ps rest.
Proof.
  unfold container. rewrite <- !app_assoc. cbn [app]. do 2 f_equal.
  apply join_following.
Qed.

Lemma scan_once_array (fuel depth : nat) (s1 : pystr) :
  Json.scan_once (S fuel) (S depth) (91 :: s1)
  = match Json.skip_ws s1 with
    | c' :: s2 =>
        if c' =? 93 then Ok (PList [], s2)
        else Json.array_items fuel depth (Json.skip_ws s1) []
    | [] => Raise JSONDecodeError
    end.
Proof. reflexivity. Qed.

Lemma scan_once_object (fuel depth : nat) (s1 : pystr) :
  Json.scan_once (S fuel) (S depth) (123 :: s1)
  = match Json.skip_ws s1 with
    | c' :: s2 =>
        if c' =? 125 then Ok (PDict [], s2)
        else if c' =? 34 then Json.object_items fuel depth s2 []
        else Raise JSONDecodeError
    | [] => Raise JSONDecodeError
    end.
Proof. reflexivity. Qed.

Lemma scan_once_string (fuel depth : nat) (s1 : pystr) :
  Json.scan_once (S fuel) depth (34 :: s1)
  = (r ← Json.scanstring s1; Ok (PStr r.1, r.2)).
Proof. reflexivity. Qed.

Lemma array_items_step (fuel depth : nat) (s : pystr) (acc : list pyval) :
  Json.array_items (S fuel) depth s acc
  = (r ← Json.scan_once fuel depth s;
     match Json.skip_ws r.2 with
     | c :: s1 =>
         if c =? 93 then Ok (PList (rev (r.1 :: acc)), s1)
         else if c =? 44
         then Json.array_items fuel depth (Json.skip_ws s1) (r.1 :: acc)
         else Raise JSONDecodeError
     | [] => Raise JSONDecodeError
     end).
Proof. reflexivity. Qed.

Lemma object_items_step (fuel depth : nat) (s : pystr) (acc : list (pystr * pyval)) :
  Json.object_items (S fuel) depth s acc
  = (k ← Json.scanstring s;
     match Json.skip_ws k.2 with
     | c :: s1 =>
         if c =? 58 then
           r ← Json.scan_once fuel depth (Json.skip_ws s1);
           match Json.skip_ws r.2 with
           | c' :: s2 =>
               if c' =? 125
               then Ok (PDict (dict_of_pairs (rev ((k.1, r.1) :: acc))), s2)
               else if c' =? 44 then
                 match Json.skip_ws s2 with
                 | q :: s3 =>
                     if q =? 34
                     then Json.object_items fuel depth s3 ((k.1, r.1) :: acc)
                     else Raise JSONDecodeError
                 | [] => Raise JSONDecodeError
                 end
               else Raise JSONDecodeError
           | [] => Raise JSONDecodeError
           end
         else Raise JSONDecodeError
     | [] => Raise JSONDecodeError
     end).
Proof. reflexivity. Qed.

Lemma skip_ws_following_last (level : nat) (close : N) (rest : pystr) :
  Json.is_ws close = false →
  Json.skip_ws (following level close [] rest) = close :: rest.
Proof.
  intros Hc. cbn [following]. rewrite skip_ws_newline_indent.
  apply skip_ws_value, Hc.
Qed.

Lemma following_next (level : nat) (close : N) (p : pystr) (ps : list pystr)
    (rest : pystr) :
  following level close (p :: ps) rest
  = 44 :: Json.newline_indent (S level) ++ p ++ following level close ps rest.
Proof. cbn [following]. rewrite join_following. reflexivity. Qed.

Lemma encode_str_text (k rest : pystr) :
  Json.encode_str k ++ rest = 34 :: concat (map Json.escape_char k) ++ 34 :: rest.
Proof. unfold Json.encode_str. rewrite <- !app_assoc. reflexivity. Qed.

(** The decoder reads the text of a value back as that value and stops
    where the text ends, with fuel for the weight of the value. *)
Lemma scan_encode (fuel : nat) :
  (∀ v level depth text rest,
     (weight v ≤ fuel)%nat → (height v ≤ depth)%nat → well_formed v →
     Json.encode_at level v = Some text → number_end rest →
     Json.scan_once fuel depth (text ++ rest) = Ok (v, rest))
  ∧ (∀ x items a parts acc level depth rest,
       (list_sum (map (λ x, S (weight x)) (x :: items)) ≤ fuel)%nat →
       Forall (λ x, (height x ≤ depth)%nat) (x :: items) →
       Forall well_formed (x :: items) →
       mapM (Json.encode_at (S level)) (x :: items) = Some (a :: parts) →
       Json.array_items fuel depth (a ++ following level 93 parts rest) acc
       = Ok (PList (rev acc ++ x :: items), rest))
  ∧ (∀ k x items a parts acc level depth rest,
       (list_sum (map (λ kv, S (weight kv.2)) ((k, x) :: items)) ≤ fuel)%nat →
       Forall (λ kv, (height kv.2 ≤ depth)%nat) ((k, x) :: items) →
       Forall (λ kv, well_formed kv.2) ((k, x) :: items) →
       Json.encode_at (S level) x = Some a →
       mapM (encode_pair (S level)) items = Some parts →
       Json.object_items fuel depth
         (concat (map Json.escape_char k) ++ 34 :: 58 :: 32 :: a
            ++ following level 125 parts rest) acc
       = Ok (PDict (dict_of_pairs (rev acc ++ (k, x) :: items)), rest)).
Proof.
  induction fuel as [|fuel (IHscan & IHarray & IHobject)].
  { split; [|split].
    - intros v. destruct v; cbn [weight]; lia.
    - intros. cbn [map list_sum fold_right] in *. lia.
    - intros. cbn [map list_sum fold_right] in *. lia. }
  split; [|split].
  - intros v level depth text rest Hw Hh Hwf Henc Hend.
    destruct v as [|[]|n|lexeme|s|[|x items]|[|[k x] items]].
    + injection Henc as <-. reflexivity.
    + injection Henc as <-. reflexivity.
    + injection Henc as <-. reflexivity.
    + cbn [Json.encode_at] in Henc.
      destruct (Nat.ltb_spec Json.INT_MAX_STR_DIGITS (length (Json.int_digits n)))
        as [|Hlen]; [discriminate|].
      injection Henc as <-.
      destruct (encode_int_first n) as (c & t & Heq & Hc).
      pose proof (match_number_encode_int n rest Hlen Hend) as Hm.
      rewrite Heq in *. apply scan_once_number; assumption.
    + discriminate.
    + injection Henc as <-.
      rewrite encode_str_text, scan_once_string, scanstring_encode. reflexivity.
    + injection Henc as <-. destruct depth as [|depth]; [cbn in Hh; lia|]. reflexivity.
    + rewrite encode_at_list in Henc.
      destruct (mapM _ (x :: items)) as [parts0|] eqn:Hparts; [|discriminate].
      pose proof Hparts as (a & parts & -> & Ha & _)%mapM_cons_Some.
      injection Henc as <-.
      destruct depth as [|depth]; [cbn in Hh; lia|].
      apply height_list in Hh. apply well_formed_list in Hwf.
      cbn [weight] in Hw. apply le_S_n in Hw.
      destruct (encode_first (S level) x a Ha) as (c & t & -> & Hc).
      rewrite container_text, scan_once_array, skip_ws_newline_indent.
      cbn [app]. rewrite skip_ws_value by apply Hc.
      destruct Hc as (_ & Hc93 & _).
      destruct (N.eqb_spec c 93); [contradiction|].
      apply (IHarray x items (c :: t) parts [] level depth rest); assumption.
    + injection Henc as <-. destruct depth as [|depth]; [cbn in Hh; lia|]. reflexivity.
    + rewrite encode_at_dict in Henc.
      destruct (mapM _ ((k, x) :: items)) as [parts0|] eqn:Hparts; [|discriminate].
      apply mapM_cons_Some in Hparts as (p & ps & -> & Hp & Hps).
      injection Henc as <-.
      destruct depth as [|depth]; [cbn in Hh; lia|].
      apply height_dict in Hh. apply well_formed_dict in Hwf as [Hnd Hwf].
      cbn [weight] in Hw. apply le_S_n in Hw.
      unfold encode_pair in Hp. cbn [fst snd] in Hp.
      destruct (Json.encode_at (S level) x) as [a|] eqn:Ha; [|discriminate].
      cbn [mbind option_bind] in Hp.
      assert (p = Json.encode_str k ++ py ": " ++ a) as -> by congruence.
      rewrite container_text, scan_once_object, skip_ws_newline_indent.
      rewrite <- !app_assoc, encode_str_text.
      rewrite skip_ws_value by reflexivity.
      change (34 =? 125) with false. change (34 =? 34) with true. cbv iota.
      change (py ": ") with [58; 32]. cbn [app].
      rewrite (IHobject k x items a ps [] level depth rest); try assumption.
      cbn [rev app]. rewrite dict_of_pairs_NoDup by assumption. reflexivity.
  - intros x items a parts acc level depth rest Hw Hh Hwf Hparts.
    cbn [map list_sum fold_right] in Hw.
    apply Forall_cons in Hh as [Hhx Hh]. apply Forall_cons in Hwf as [Hwx Hwf].
    apply mapM_cons_Some in Hparts as (a' & ps & [= <- <-] & Ha & Hps).
    rewrite array_items_step.
    rewrite (IHscan x (S level) depth a (following level 93 parts rest));
      [|lia|assumption..|apply number_end_following].
    cbn [mbind result_bind fst snd].
    destruct items as [|y items].
    + cbn [mapM] in Hps. injection Hps as <-.
      rewrite skip_ws_following_last by reflexivity.
      change (93 =? 93) with true. cbv iota. reflexivity.
    + pose proof Hps as (b & parts' & -> & Hb & _)%mapM_cons_Some.
      rewrite following_next, skip_ws_value by reflexivity.
      change (44 =? 93) with false. change (44 =? 44) with true. cbv iota.
      rewrite skip_ws_newline_indent.
      destruct (encode_first (S level) y b Hb) as (c & t & -> & Hc).
      cbn [app]. rewrite skip_ws_value by apply Hc.
      change (c :: t ++ ?s) with ((c :: t) ++ s).
      rewrite (IHarray y items (c :: t) parts' (x :: acc) level depth rest);
        [|cbn [map list_sum fold_right] in *; lia|assumption..].
      cbn [rev]. rewrite <- app_assoc. reflexivity.
  - intros k x items a parts acc level depth rest Hw Hh Hwf Ha Hps.
    cbn [map list_sum fold_right snd] in Hw.
    apply Forall_cons in Hh as [Hhx Hh]. apply Forall_cons in Hwf as [Hwx Hwf].
    cbn [snd] in Hhx, Hwx.
    rewrite object_items_step, scanstring_encode.
    cbn [mbind result_bind fst snd].
    rewrite skip_ws_value by reflexivity.
    change (58 =? 58) with true. cbv iota.
    destruct (encode_first (S level) x a Ha) as (c & t & -> & Hc).
    change (Json.skip_ws (32 :: ?s)) with (Json.skip_ws s).
    cbn [app]. rewrite skip_ws_value by apply Hc.
    change (c :: t ++ ?s) with ((c :: t) ++ s).
    rewrite (IHscan x (S level) depth (c :: t) (following level 125 parts rest));
      [|lia|assumption..|apply number_end_following].
    cbn [mbind result_bind fst snd].
    destruct items as [|[k' y] items].
    + cbn [mapM] in Hps. injection Hps as <-.
      rewrite skip_ws_following_last by reflexivity.
      change (125 =? 125) with true. cbv iota.
      cbn [rev]. reflexivity.
    + apply mapM_cons_Some in Hps as (p & ps & -> & Hp & Hps).
      unfold encode_pair in Hp. cbn [fst snd] in Hp.
      destruct (Json.encode_at (S level) y) as [b|] eqn:Hb; [|discriminate].
      cbn [mbind option_bind] in Hp.
      assert (p = Json.encode_str k' ++ py ": " ++ b) as -> by congruence.
      rewrite following_next, skip_ws_value by reflexivity.
      change (44 =? 125) with false. change (44 =? 44) with true. cbv iota.
      rewrite skip_ws_newline_indent, <- !app_assoc, encode_str_text.
      rewrite skip_ws_value by reflexivity.
      change (34 =? 34) with true. cbv iota.
      change (py ": ") with [58; 32]. cbn [app].
      rewrite (IHobject k' y items b ps ((k, x) :: acc) level depth rest);
        [|cbn [map list_sum fold_right snd] in *; lia|assumption..].
      cbn [rev]. rewrite <- app_assoc. reflexivity.
Qed.

(** [json.loads] reads back the value that [json.dumps] wrote, when the
    value nests no deeper than the recursion limit allows. *)
Lemma loads_dumps `{RecursionLimit} (v : pyval) (text : pystr) :
  well_formed v → (height v ≤ recursion_limit)%nat →
  Json.dumps v = Some text →
  Json.loads text = Ok v.
Proof.
  intros Hwf Hh Henc. unfold Json.dumps in Henc.
  destruct (encode_first 0 v text Henc) as (c & t & -> & Hc).
  unfold Json.loads.
  assert (startswith [65279] (c :: t) = false) as ->.
  { cbn [startswith]. destruct Hc as (_ & _ & _ & _ & _ & Hbom).
    destruct (N.eqb_spec 65279 c); [congruence|reflexivity]. }
  rewrite skip_ws_value by apply Hc.
  destruct (scan_fuel (2 * length (c :: t) + 2)
              (2 * length (c :: t) + 2 + weight v) recursion_limit (c :: t))
    as [Hfuel _].
  rewrite Hfuel by (unfold pystr in *; cbn [length]; lia).
  destruct (scan_encode (2 * length (c :: t) + 2 + weight v)) as [Hscan _].
  rewrite <- (app_nil_r (c :: t)) at 2.
  rewrite (Hscan v 0%nat recursion_limit (c :: t) []);
    [reflexivity|lia|assumption..|exact I].
Qed.

(** ** The loop of [_fetch_messages] *)

Section Fetch.
Context `{StrLower} `{RecursionLimit}.

Lemma for_each_app {S A : Type} (body : S → A → result S) (xs ys : list A) (st : S) :
  for_each body (xs ++ ys) st = (for_each body xs st ≫= for_each body ys).
Proof.
  revert st. induction xs as [|x xs IH]; intros st; [reflexivity|].
  cbn [app for_each]. destruct (body st x); [apply IH|reflexivity].
Qed.

Lemma validate_passes (message : dict) :
  SecureSession.validate_message_structure message = Ok true →
  ∃ content, dict_get (py "Content") message = Some (PStr content)
             ∧ strip content ≠ []
             ∧ (length (strip content) ≤ MAX_CONTENT_LENGTH)%nat
             ∧ SecureSession.is_legitimate_breach (strip content) = true.
Proof.
  unfold SecureSession.validate_message_structure, dict_has,
    SecureSession.stripped_content.
  destruct (dict_get (py "Content") message) as [[| | | |content| |]|];
    cbn [negb mbind result_bind]; try discriminate.
  destruct (strip content) as [|c stripped] eqn:Hs; [discriminate|].
  destruct (Nat.ltb_spec MAX_CONTENT_LENGTH (length (c :: stripped)));
    [discriminate|].
  intros [= Hl]. exists content. rewrite Hs. repeat split; auto; discriminate.
Qed.

Lemma fetch_step_cases (all_messages : list dict) (m : SecureSession.message)
    (out : list dict) :
  SecureSession.fetch_step all_messages m = Ok out →
  out = all_messages
  ∨ ∃ t, SecureSession.text m = Some t ∧ t ≠ []
         ∧ SecureSession.validate_message_structure
             (SecureSession.plain_text_record
                (truncate MAX_CONTENT_LENGTH (clean_text (PStr t)))) = Ok true
         ∧ out = all_messages ++ [fetched_record m t].
Proof.
  unfold SecureSession.fetch_step.
  destruct (SecureSession.text m) as [[|c t]|] eqn:Ht;
    [intros [= <-]; left; reflexivity| |intros [= <-]; left; reflexivity].
  destruct (truthy _); [|intros [= <-]; left; reflexivity].
  destruct (SecureSession.validate_value _) as [[]|] eqn:Hv;
    cbn [mbind result_bind]; [|intros [= <-]; left; reflexivity|discriminate].
  destruct (SecureSession.parse_message_content (PStr (c :: t)))
    as [| | | | | |parsed] eqn:Hp; try discriminate.
  intros [= <-]. right. exists (c :: t).
  apply parse_message_content_record in Hp as ->.
  split; [reflexivity|]. split; [discriminate|]. split; [exact Hv|].
  reflexivity.
Qed.

Lemma validate_passes_filter (message : dict) :
  SecureSession.validate_message_structure message = Ok true →
  passes_filter message.
Proof.
  intros (content & Hc & Hne & _ & Hl)%validate_passes.
  exists (strip content). unfold SecureSession.stripped_content. rewrite Hc. auto.
Qed.

Lemma fetched_record_passes (m : SecureSession.message) (t : pystr) :
  SecureSession.validate_message_structure
    (SecureSession.plain_text_record
       (truncate MAX_CONTENT_LENGTH (clean_text (PStr t)))) = Ok true →
  passes_filter (fetched_record m t).
Proof. intros Hv%validate_passes_filter. exact Hv. Qed.

(** The loop appends one record for each message that it keeps. *)
Lemma for_each_fetch_step (messages : list SecureSession.message)
    (all_messages out : list dict) :
  for_each SecureSession.fetch_step messages all_messages = Ok out →
  ∃ kept : list (SecureSession.message * pystr),
    out = all_messages ++ map (λ mt, fetched_record mt.1 mt.2) kept
    ∧ map fst kept `sublist_of` messages
    ∧ Forall (λ mt, SecureSession.text mt.1 = Some mt.2
                    ∧ SecureSession.validate_message_structure
                        (SecureSession.plain_text_record
                           (truncate MAX_CONTENT_LENGTH (clean_text (PStr mt.2))))
                      = Ok true) kept.
Proof.
  revert all_messages. induction messages as [|m messages IH]; intros all_messages.
  - intros [= <-]. exists []. rewrite app_nil_r. repeat split; constructor.
  - cbn [for_each].
    destruct (SecureSession.fetch_step all_messages m) as [st|] eqn:Hstep;
      [|discriminate].
    cbn [mbind result_bind]. intros (kept & -> & Hsub & Hall)%IH.
    apply fetch_step_cases in Hstep as [->|(t & Ht & _ & Hv & ->)].
    + exists kept. split; [reflexivity|]. split; [apply sublist_cons, Hsub|exact Hall].
    + exists ((m, t) :: kept). rewrite <- app_assoc. split; [reflexivity|].
      split; [apply sublist_skip, Hsub|]. constructor; [split; assumption|exact Hall].
Qed.

Lemma fetched_messages_kept (messages : list SecureSession.message) :
  ∃ kept : list (SecureSession.message * pystr),
    SecureSession.fetched_messages messages
    = map (λ mt, fetched_record mt.1 mt.2) kept
    ∧ map fst kept `sublist_of` messages
    ∧ Forall (λ mt,
        SecureSession.text mt.1 = Some mt.2
        ∧ strip (truncate MAX_CONTENT_LENGTH (clean_text (PStr mt.2))) ≠ []
        ∧ SecureSession.is_legitimate_breach
            (strip (truncate MAX_CONTENT_LENGTH (clean_text (PStr mt.2)))) = true
        ∧ (length (truncate MAX_CONTENT_LENGTH (clean_text (PStr mt.2)))
           ≤ MAX_CONTENT_LENGTH)%nat
        ∧ passes_filter (fetched_record mt.1 mt.2)) kept.
Proof.
  unfold SecureSession.fetched_messages.
  destruct (for_each SecureSession.fetch_step messages []) as [out|e] eqn:Hloop.
  - apply for_each_fetch_step in Hloop as (kept & -> & Hsub & Hall).
    exists kept. split; [reflexivity|]. split; [exact Hsub|].
    eapply Forall_impl; [exact Hall|]. intros [m t] [Ht Hv]. cbn [fst snd] in *.
    split; [exact Ht|].
    pose proof (validate_passes _ Hv) as (content & [= <-] & Hne & _ & Hl).
    split; [exact Hne|]. split; [exact Hl|]. split; [apply truncate_length|].
    apply fetched_record_passes, Hv.
  - exists []. repeat split; [apply sublist_nil_l|constructor].
Qed.

Lemma for_each_raise {S A : Type} (body : S → A → result S) (before after : list A)
    (x : A) (st : S) :
  (∀ st', ∃ e, body st' x = Raise e) →
  ∃ e, for_each body (before ++ x :: after) st = Raise e.
Proof.
  intros Hx. rewrite for_each_app.
  destruct (for_each body before st) as [st'|e]; [|eauto].
  cbn [mbind result_bind for_each]. destruct (Hx st') as [e ->]. eauto.
Qed.

End Fetch.

(** X6. What [_fetch_messages] returns is, in the order of the channel, one
    record for each message that it keeps: the plain-text record of the
    cleaned text, cut to 2000 characters, with the id and the date of the
    message. Every message kept has a text whose cleaned content is not
    empty and is a legitimate breach, so every record returned passes the
    filter of the merge. *)
Theorem fetched_messages_validated `{StrLower} `{RecursionLimit}
    (messages : list SecureSession.message) :
  ∃ kept : list (SecureSession.message * pystr),
    SecureSession.fetched_messages messages
    = map (λ mt, fetched_record mt.1 mt.2) kept
    ∧ map fst kept `sublist_of` messages
    ∧ Forall (λ mt,
        SecureSession.text mt.1 = Some mt.2
        ∧ strip (truncate MAX_CONTENT_LENGTH (clean_text (PStr mt.2))) ≠ []
        ∧ SecureSession.is_legitimate_breach
            (strip (truncate MAX_CONTENT_LENGTH (clean_text (PStr mt.2)))) = true
        ∧ (length (truncate MAX_CONTENT_LENGTH (clean_text (PStr mt.2)))
           ≤ MAX_CONTENT_LENGTH)%nat
        ∧ passes_filter (fetched_record mt.1 mt.2)) kept.
Proof. apply fetched_messages_kept. Qed.

(** X7. One message whose text parses to a number other than zero, or to
    [true], makes the loop of [_fetch_messages] raise, and the whole batch
    is lost with it: nothing is fetched, whatever the other messages are,
    and the store stays as it was. *)
Theorem scalar_message_empties_batch `{StrLower} `{RecursionLimit}
    (messages : list SecureSession.message)
    (m : SecureSession.message) (t : pystr) :
  m ∈ messages → SecureSession.text m = Some t → t ≠ [] →
  is_scalar (SecureSession.parse_message_content (PStr t)) = true →
  truthy (SecureSession.parse_message_content (PStr t)) = true →
  SecureSession.fetched_messages messages = []
  ∧ ∀ existing, SecureSession.run existing messages = Ok existing.
Proof.
  intros (before & after & ->)%list_elem_of_split Ht Hne Hscalar Htruthy.
  assert (SecureSession.fetched_messages (before ++ m :: after) = []) as Hnone.
  { unfold SecureSession.fetched_messages.
    destruct (for_each_raise SecureSession.fetch_step before after m []) as [e ->];
      [|reflexivity].
    intros st. unfold SecureSession.fetch_step. rewrite Ht.
    destruct t as [|c t]; [contradiction|]. rewrite Htruthy.
    destruct (SecureSession.parse_message_content (PStr (c :: t)));
      try discriminate; cbn; eauto. }
  split; [exact Hnone|]. intros existing.
  unfold SecureSession.run. rewrite Hnone. reflexivity.
Qed.

Lemma scalar_message_empties_batch_witness :
  @SecureSession.fetched_messages ascii_lower 1000%nat [leak_message; number_message]
  = []
  ∧ ∀ existing,
      @SecureSession.run ascii_lower 1000%nat existing [leak_message; number_message]
      = Ok existing.
Proof.
  apply (@scalar_message_empties_batch ascii_lower 1000%nat
           [leak_message; number_message] number_message (py "123")).
  - apply list_elem_of_further, list_elem_of_here.
  - reflexivity.
  - discriminate.
  - vm_compute. reflexivity.
  - vm_compute. reflexivity.
Defined.

(** ** Messages that are numerals

    [clean_text] leaves a numeral as it is, and [json.loads] reads it as
    an [int], which [parse_message_content] returns. *)

Lemma startswith_head_absent (a : N) (old s : pystr) :
  a ∉ s → startswith (a :: old) s = false.
Proof.
  destruct s as [|c s]; [reflexivity|]. intros Hc%not_elem_of_cons.
  cbn [startswith]. destruct (N.eqb_spec a c); [tauto|reflexivity].
Qed.

Lemma replace_head_absent (a : N) (old new s : pystr) :
  a ∉ s → replace (a :: old) new s = s.
Proof.
  unfold replace. induction s as [|c s IH]; [reflexivity|].
  intros Hc. cbn [replace_from]. rewrite startswith_head_absent by exact Hc.
  apply not_elem_of_cons in Hc as [_ Hc]. rewrite IH by exact Hc. reflexivity.
Qed.

Lemma lstrip_id (c : N) (s : pystr) : is_space c = false → lstrip (c :: s) = c :: s.
Proof. intros Hc. cbn [lstrip]. rewrite Hc. reflexivity. Qed.

Lemma strip_id (s : pystr) : Forall (λ c, is_space c = false) s → strip s = s.
Proof.
  intros Hs. unfold strip, rstrip.
  assert (∀ l, Forall (λ c, is_space c = false) l → lstrip l = l) as Hl.
  { intros l Hall. destruct Hall; [reflexivity|apply lstrip_id; assumption]. }
  rewrite (Hl s Hs), Hl by (apply Forall_rev; exact Hs). apply rev_involutive.
Qed.

Lemma re_sub_class_id (chars s : pystr) :
  Forall (λ c, c ∉ chars) s → re_sub_class chars s = s.
Proof.
  unfold re_sub_class. induction 1 as [|c s Hc _ IH]; [reflexivity|].
  cbn [List.filter]. rewrite IH.
  destruct (existsb (N.eqb c) chars) eqn:He; [|reflexivity].
  apply existsb_exists in He as (x & Hx%list_elem_of_In & ->%N.eqb_eq). contradiction.
Qed.

Lemma clean_text_numeral (s : pystr) :
  Forall numeral_char s → clean_text (PStr s) = s.
Proof.
  intros Hs.
  assert (∀ a, (a < 45 ∨ 57 < a) → a ∉ s) as Habsent.
  { intros a Ha Hin. rewrite Forall_forall in Hs. apply Hs in Hin.
    unfold numeral_char in Hin. lia. }
  unfold clean_text, watermarks. cbn [fold_left app py].
  rewrite !(λ a old new, replace_head_absent a old new s)
    by (apply Habsent; first [left; reflexivity|right; reflexivity]).
  rewrite re_sub_class_id, strip_id; [reflexivity| |].
  - eapply Forall_impl; [exact Hs|]. intros c [->|Hc]; [reflexivity|].
    unfold is_space. rewrite !orb_false_iff, !andb_false_iff, !N.leb_gt, !N.eqb_neq. lia.
  - eapply Forall_impl; [exact Hs|]. intros c Hc.
    rewrite !not_elem_of_cons. unfold numeral_char in Hc.
    repeat split; try lia. apply not_elem_of_nil.
Qed.

Lemma encode_int_numeral (n : Z) : Forall numeral_char (Json.encode_int n).
Proof.
  unfold Json.encode_int.
  destruct (decimal_spec _ _ (size_bound (Z.abs_N n))) as (Hall & _).
  apply Forall_app. split.
  - destruct (n <? 0)%Z; repeat constructor.
  - eapply Forall_impl; [exact Hall|]. intros c Hc%is_digit_spec. right. exact Hc.
Qed.

(** X4. A message whose text is the decimal numeral of an integer is
    parsed to that integer: neither to a record nor to [None]. *)
Theorem parse_message_content_int `{RecursionLimit} (n : Z) :
  (length (Json.encode_int n) ≤ MAX_CONTENT_LENGTH)%nat →
  SecureSession.parse_message_content (PStr (Json.encode_int n)) = PInt n.
Proof.
  intros Hlen. unfold SecureSession.parse_message_content.
  rewrite clean_text_numeral by apply encode_int_numeral.
  rewrite truncate_short by exact Hlen.
  cbn [SecureSession.parse_attempts].
  rewrite (loads_dumps (PInt n) (Json.encode_int n)); [reflexivity|exact I| |].
  - cbn [height]. lia.
  - unfold Json.dumps. cbn [Json.encode_at].
    destruct (Nat.ltb_spec Json.INT_MAX_STR_DIGITS (length (Json.int_digits n)))
      as [Hlong|]; [|reflexivity].
    unfold Json.encode_int in Hlen. rewrite length_app in Hlen.
    unfold Json.INT_MAX_STR_DIGITS, MAX_CONTENT_LENGTH in *. lia.
Qed.

Lemma parse_message_content_int_witness :
  @SecureSession.parse_message_content 1000%nat (PStr (Json.encode_int 123))
  = PInt 123.
Proof.
  apply (@parse_message_content_int 1000%nat 123). vm_compute. lia.
Defined.

(** ** The store on disk

    Every value that the decoder returns has distinct keys and a bounded
    depth, and so have the records that a run stores; so what is written
    is read back. *)

Lemma bounded_list (depth : nat) (items : list pyval) :
  Forall (bounded depth) items → bounded (S depth) (PList items).
Proof.
  intros Hall. split.
  - apply well_formed_list. eapply Forall_impl; [exact Hall|]. intros v [Hv _]. exact Hv.
  - apply height_list. eapply Forall_impl; [exact Hall|]. intros v [_ Hv]. exact Hv.
Qed.

Lemma bounded_dict (depth : nat) (items : list (pystr * pyval)) :
  NoDup (map fst items) → Forall (λ kv, bounded depth kv.2) items →
  bounded (S depth) (PDict items).
Proof.
  intros Hnd Hall. split.
  - apply well_formed_dict. split; [exact Hnd|].
    eapply Forall_impl; [exact Hall|]. intros v [Hv _]. exact Hv.
  - apply height_dict. eapply Forall_impl; [exact Hall|]. intros v [_ Hv]. exact Hv.
Qed.

Lemma dict_set_keys (k : pystr) (v : pyval) (d : dict) :
  map fst (dict_set k v d)
  = if dict_has k d then map fst d else map fst d ++ [k].
Proof.
  unfold dict_has. induction d as [|[k' v'] d IH]; [reflexivity|].
  cbn [dict_set dict_get map fst]. destruct (str_eqb_spec k k') as [->|Hne].
  - reflexivity.
  - cbn [map fst]. rewrite IH. destruct (dict_get k d); reflexivity.
Qed.

Lemma dict_has_keys (k : pystr) (d : dict) :
  dict_has k d = true ↔ k ∈ map fst d.
Proof.
  unfold dict_has. induction d as [|[k' v'] d IH]; cbn [dict_get map fst].
  - split; [discriminate|intros []%elem_of_nil].
  - rewrite elem_of_cons. destruct (str_eqb_spec k k') as [->|Hne].
    + split; [auto|reflexivity].
    + rewrite IH. split; [auto|intros [|]; [contradiction|assumption]].
Qed.

Lemma dict_set_NoDup (k : pystr) (v : pyval) (d : dict) :
  NoDup (map fst d) → NoDup (map fst (dict_set k v d)).
Proof.
  intros Hnd. rewrite dict_set_keys. destruct (dict_has k d) eqn:Hk; [exact Hnd|].
  apply NoDup_app. split; [exact Hnd|]. split; [|apply NoDup_singleton].
  intros x Hx ->%list_elem_of_singleton.
  apply dict_has_keys in Hx. congruence.
Qed.

Lemma dict_set_Forall (P : pyval → Prop) (k : pystr) (v : pyval) (d : dict) :
  P v → Forall (λ kv, P kv.2) d → Forall (λ kv, P kv.2) (dict_set k v d).
Proof.
  intros Hv. induction 1 as [|[k' v'] d Hkv Hd IH]; cbn [dict_set].
  - repeat constructor. exact Hv.
  - destruct (str_eqb k k'); constructor; auto.
Qed.

Lemma dict_of_pairs_bounded (depth : nat) (pairs : list (pystr * pyval)) :
  Forall (λ kv, bounded depth kv.2) pairs →
  bounded (S depth) (PDict (dict_of_pairs pairs)).
Proof.
  intros Hall. unfold dict_of_pairs.
  assert (∀ d, NoDup (map fst d) → Forall (λ kv, bounded depth kv.2) d →
     let d' := fold_left (λ d kv, dict_set kv.1 kv.2 d) pairs d in
     NoDup (map fst d') ∧ Forall (λ kv, bounded depth kv.2) d') as Hgen.
  { induction Hall as [|[k v] pairs Hkv _ IH]; intros d Hnd Hd; [split; assumption|].
    cbn [fold_left fst snd]. apply IH.
    - apply dict_set_NoDup, Hnd.
    - apply (dict_set_Forall (bounded depth)); assumption. }
  destruct (Hgen [] (NoDup_nil_2) (Forall_nil_2 _)) as [Hnd Hd].
  apply bounded_dict; assumption.
Qed.

Lemma match_number_bounded (depth : nat) (s : pystr) (r : pyval * pystr) :
  Json.match_number s = Some (Ok r) → bounded depth r.1.
Proof.
  unfold Json.match_number.
  destruct (Json.int_part _) as [integer|]; [|discriminate].
  cbn [mbind option_bind]. intros [= Hr]. revert Hr.
  repeat case_match; intros [= <-]; (split; [exact I|cbn; lia]).
Qed.

(** What the decoder returns has distinct keys, and nests no deeper than
    the depth it was allowed. *)
Lemma scan_bounded (fuel : nat) :
  ∀ depth s r,
    (Json.scan_once fuel depth s = Ok r → bounded depth r.1)
    ∧ (∀ acc, Forall (bounded depth) acc →
         Json.array_items fuel depth s acc = Ok r → bounded (S depth) r.1)
    ∧ (∀ acc, Forall (λ kv, bounded depth kv.2) acc →
         Json.object_items fuel depth s acc = Ok r → bounded (S depth) r.1).
Proof.
  induction fuel as [|fuel IH]; intros depth s r;
    [repeat split; intros; discriminate|].
  assert (∀ v, height v = 0%nat → well_formed v → bounded depth v) as Hflat
    by (intros v Hv Hwf; split; [exact Hwf|lia]).
  split; [|split].
  - destruct s as [|c s1]; [discriminate|]. unfold_scan.
    destruct (c =? 34).
    { destruct (Json.scanstring s1) as [k|]; [|discriminate].
      intros [= <-]. apply Hflat; [reflexivity|exact I]. }
    destruct (c =? 123).
    { destruct depth; [discriminate|].
      destruct (Json.skip_ws s1) as [|c' s2]; [discriminate|].
      destruct (c' =? 125); [intros [= <-]; apply (bounded_dict depth []); constructor|].
      destruct (c' =? 34); [|discriminate].
      apply IH. constructor. }
    destruct (c =? 91).
    { destruct depth; [discriminate|].
      destruct (Json.skip_ws s1) as [|c' s2]; [discriminate|].
      destruct (c' =? 93); [intros [= <-]; apply bounded_list; constructor|].
      apply IH. constructor. }
    repeat case_match; intros; simplify_eq; cbn [fst];
      try (apply Hflat; [reflexivity|exact I]).
    eapply match_number_bounded. eassumption.
  - intros acc Hacc. unfold_scan.
    destruct (Json.scan_once fuel depth s) as [item|] eqn:Hitem; [|discriminate].
    apply IH in Hitem. unfold_scan.
    destruct (Json.skip_ws item.2) as [|c s1]; [discriminate|].
    destruct (c =? 93).
    { intros [= <-]. apply bounded_list. cbn [rev]. apply Forall_app.
      split; [apply Forall_rev, Hacc|apply Forall_singleton, Hitem]. }
    destruct (c =? 44); [|discriminate].
    apply IH. constructor; assumption.
  - intros acc Hacc. unfold_scan.
    destruct (Json.scanstring s) as [k|]; [|discriminate]. unfold_scan.
    destruct (Json.skip_ws k.2) as [|c s1]; [discriminate|].
    destruct (c =? 58); [|discriminate].
    destruct (Json.scan_once fuel depth (Json.skip_ws s1)) as [item|] eqn:Hitem;
      [|discriminate].
    apply IH in Hitem. unfold_scan.
    destruct (Json.skip_ws item.2) as [|c' s2]; [discriminate|].
    destruct (c' =? 125).
    { intros [= <-]. apply dict_of_pairs_bounded. cbn [rev]. apply Forall_app.
      split; [apply Forall_rev, Hacc|apply Forall_singleton, Hitem]. }
    destruct (c' =? 44); [|discriminate].
    destruct (Json.skip_ws s2) as [|q s3]; [discriminate|].
    destruct (q =? 34); [|discriminate].
    apply IH. constructor; assumption.
Qed.

Lemma loads_bounded `{RecursionLimit} (s : pystr) (v : pyval) :
  Json.loads s = Ok v → bounded recursion_limit v.
Proof.
  unfold Json.loads. destruct (startswith _ s); [discriminate|].
  destruct (Json.scan_once _ _ _) as [r|] eqn:Hr; [|discriminate].
  cbn [mbind result_bind]. destruct (Json.skip_ws r.2); [|discriminate].
  intros [= <-]. eapply scan_bounded, Hr.
Qed.

(** A write that raised has left no text; one that did not has left the
    text of [json.dumps], which is not empty. *)
Lemma written_text_cases `{EncoderStack} (messages : list dict) (text : pystr) :
  SecureSession.written_text messages = Some text →
  (text = []
   ∧ (Json.dumps_raises (PList (map PDict messages)) = true
      ∨ ∃ text' e, Json.dumps (PList (map PDict messages)) = Some text'
                   ∧ encode text' = Raise e))
  ∨ (text ≠ []
     ∧ Json.dumps_raises (PList (map PDict messages)) = false
     ∧ Json.dumps (PList (map PDict messages)) = Some text
     ∧ ∃ bytes, encode text = Ok bytes).
Proof.
  unfold SecureSession.written_text. cbv zeta.
  destruct (Json.dumps_raises _); [intros [= <-]; left; auto|].
  destruct (Json.dumps _) as [text'|] eqn:Hdumps; [|discriminate].
  cbn [mbind option_bind].
  destruct (encode text') as [bytes|e] eqn:Hencode; intros [= <-].
  - right. destruct (encode_first _ _ _ Hdumps) as (c & t & -> & _).
    split; [discriminate|eauto].
  - left. split; [reflexivity|]. right. eauto.
Qed.

Lemma store_read_back `{RecursionLimit} `{EncoderStack}
    (messages : list dict) (text : pystr) :
  (1 ≤ recursion_limit)%nat →
  Forall (λ record, bounded (recursion_limit - 1) (PDict record)) messages →
  SecureSession.written_text messages = Some text →
  SecureSession.load_existing_data (Some text)
  = PList (map PDict (if text is [] then [] else messages)).
Proof.
  intros Hlimit Hall [[-> _]|(Hne & _ & Hdumps & _)]%written_text_cases.
  - unfold SecureSession.load_existing_data. rewrite loads_empty. reflexivity.
  - destruct text as [|c t]; [contradiction|].
    unfold SecureSession.load_existing_data.
    assert (bounded recursion_limit (PList (map PDict messages))) as [Hwf Hh].
    { replace recursion_limit with (S (recursion_limit - 1)) by lia.
      apply bounded_list, Forall_map. exact Hall. }
    rewrite (loads_dumps (PList (map PDict messages)) (c :: t) Hwf Hh Hdumps).
    reflexivity.
Qed.

(** X9. [load_existing_data] reads back what [save_data] left in the file,
    for every list of records that nest less deep than the recursion limit
    and hold no float. When the write went through, that is the list; when
    it raised, for an [int] of too many digits, a string that UTF-8 cannot
    encode or a value too deep for the encoder, the file is empty and is
    read as the empty list. *)
Theorem store_round_trip `{RecursionLimit} `{EncoderStack}
    (messages : list dict) (text : pystr) :
  (1 ≤ recursion_limit)%nat →
  Forall (λ record, bounded (recursion_limit - 1) (PDict record)) messages →
  SecureSession.written_text messages = Some text →
  SecureSession.load_existing_data (Some text)
  = PList (map PDict (if text is [] then [] else messages))
  ∧ (text = []
     ↔ Json.dumps_raises (PList (map PDict messages)) = true
       ∨ ∃ text' e, Json.dumps (PList (map PDict messages)) = Some text'
                    ∧ encode text' = Raise e).
Proof.
  intros Hlimit Hall Htext. split; [apply store_read_back; assumption|].
  apply written_text_cases in Htext
    as [[-> Hfail]|(Hne & Hraises & Hdumps & bytes & Hencode)].
  - split; [intros _; exact Hfail|reflexivity].
  - split; [contradiction|].
    intros [Hr|(text' & e & Hd & He)]; [congruence|].
    rewrite Hdumps in Hd. injection Hd as <-. congruence.
Qed.

Lemma store_round_trip_witness :
  @SecureSession.load_existing_data 1000%nat (Some sample_store_text)
  = PList (map PDict (if sample_store_text is [] then []
                      else [plain_record; leak_a_resourced]))
  ∧ (sample_store_text = []
     ↔ @Json.dumps_raises ample_stack
         (PList (map PDict [plain_record; leak_a_resourced])) = true
       ∨ ∃ text' e,
           Json.dumps (PList (map PDict [plain_record; leak_a_resourced]))
           = Some text'
           ∧ encode text' = Raise e).
Proof.
  apply (@store_round_trip 1000%nat ample_stack [plain_record; leak_a_resourced]
           sample_store_text).
  - vm_compute. lia.
  - apply Forall_forall. intros record Hrecord%list_elem_of_In.
    destruct Hrecord as [<-|[<-|[]]];
      (split; [split; [apply (bool_decide_unpack _); vm_compute; exact I|cbn; tauto]
              |vm_compute; lia]).
  - vm_compute. reflexivity.
Defined.

Lemma Forall_sublist {A : Type} (P : A → Prop) (l k : list A) :
  l `sublist_of` k → Forall P k → Forall P l.
Proof.
  intros Hsub Hk. apply Forall_forall. intros x Hx.
  rewrite Forall_forall in Hk. apply Hk. eapply sublist_subseteq; eassumption.
Qed.

Section Main.
Context `{StrLower} `{RecursionLimit}.

Lemma for_each_values (items : list pyval) (st st' : gset pystr * list dict) :
  for_each SecureSession.dedup_value_step items st = Ok st' →
  ∃ store, items = map PDict store
           ∧ for_each SecureSession.dedup_step store st = Ok st'.
Proof.
  revert st. induction items as [|v items IH]; intros st.
  - intros [= <-]. exists []. split; reflexivity.
  - cbn [for_each]. destruct v as [| | | | | |d]; try discriminate.
    cbn [SecureSession.dedup_value_step].
    destruct (SecureSession.dedup_step st d) as [st1|] eqn:Hd; [|discriminate].
    cbn [mbind result_bind]. intros (store & -> & Hs)%IH.
    exists (d :: store). split; [reflexivity|]. cbn [for_each]. rewrite Hd. exact Hs.
Qed.

Lemma for_each_values_map (store : list dict) (st : gset pystr * list dict) :
  for_each SecureSession.dedup_value_step (map PDict store) st
  = for_each SecureSession.dedup_step store st.
Proof.
  revert st. induction store as [|d store IH]; intros st; [reflexivity|].
  cbn [map for_each SecureSession.dedup_value_step].
  destruct (SecureSession.dedup_step st d); [apply IH|reflexivity].
Qed.

(** On a store that is a list of records, [main] is the merge into it. *)
Lemma main_update_store (data_file : option pystr)
    (messages : list SecureSession.message) (store : list dict) :
  SecureSession.load_existing_data data_file = PList (map PDict store) →
  SecureSession.main data_file messages
  = match SecureSession.fetched_messages messages with
    | [] => Ok None
    | new_messages =>
        stored ← SecureSession.update_store store new_messages; Ok (Some stored)
    end.
Proof.
  intros Hload. unfold SecureSession.main. rewrite Hload.
  destruct (SecureSession.fetched_messages messages) as [|m new]; [reflexivity|].
  cbn [SecureSession.iterate mbind result_bind].
  rewrite for_each_values_map.
  unfold SecureSession.update_store, SecureSession.deduplicate_messages.
  destruct (for_each SecureSession.dedup_step store (∅, [])) as [st|]; [|reflexivity].
  cbn [mbind result_bind].
  destruct (for_each SecureSession.dedup_step (m :: new) st); reflexivity.
Qed.

Lemma dedup_step_unique (P : dict → Prop) (msgs : list dict)
    (st st' : gset pystr * list dict) :
  for_each SecureSession.dedup_step msgs st = Ok st' →
  Forall P st.2 → Forall P msgs → Forall P st'.2.
Proof.
  destruct st as [seen unique]. rewrite for_each_dedup.
  destruct (first_raise msgs); [discriminate|]. intros [= <-] Hu Hm. cbn [snd] in *.
  apply Forall_app. split; [exact Hu|].
  eapply Forall_sublist; [apply first_seen_sublist|exact Hm].
Qed.

Lemma fetched_record_bounded (depth : nat) (m : SecureSession.message) (t : pystr) :
  bounded (S depth) (PDict (fetched_record m t)).
Proof.
  apply bounded_dict.
  - vm_compute. repeat constructor; rewrite ?not_elem_of_cons; repeat split;
      try discriminate; apply not_elem_of_nil.
  - repeat constructor; cbn; lia.
Qed.

Lemma iterate_bounded (v : pyval) (items : list pyval) (d : dict) :
  bounded recursion_limit v → SecureSession.iterate v = Ok items →
  PDict d ∈ items → bounded (recursion_limit - 1) (PDict d).
Proof.
  intros [Hwf Hh] Hit Hin. destruct v as [| | | |s|l|l]; try discriminate.
  - injection Hit as <-. apply list_elem_of_fmap in Hin as (c & [=] & _).
  - injection Hit as <-.
    destruct recursion_limit as [|limit]; [cbn in Hh; lia|].
    apply height_list in Hh. apply well_formed_list in Hwf.
    rewrite Forall_forall in Hh, Hwf.
    replace (S limit - 1)%nat with limit by lia. split; auto.
  - injection Hit as <-. apply list_elem_of_fmap in Hin as (c & [=] & _).
Qed.

Lemma load_existing_data_bounded (data_file : option pystr) :
  bounded recursion_limit (SecureSession.load_existing_data data_file)
  ∨ SecureSession.load_existing_data data_file = PList [].
Proof.
  unfold SecureSession.load_existing_data.
  destruct data_file as [content|]; [|right; reflexivity].
  destruct (Json.loads content) as [data|] eqn:Hl; [|right; reflexivity].
  destruct (SecureSession.has_len data); [|right; reflexivity].
  left. eapply loads_bounded, Hl.
Qed.

End Main.

(** X10. What one run of [main] leaves in [data.json], the next run reads
    back, for a store without floats. When the write went through, the
    next run merges its new messages into exactly the list that was
    stored; when it raised, the file is empty and the next run starts
    from the empty store. *)
Theorem written_store_read_back `{StrLower} `{RecursionLimit} `{EncoderStack}
    (data_file : option pystr)
    (messages : list SecureSession.message) (stored : list dict) (text : pystr) :
  (2 ≤ recursion_limit)%nat →
  SecureSession.main data_file messages = Ok (Some stored) →
  SecureSession.written_text stored = Some text →
  SecureSession.load_existing_data (Some text)
  = PList (map PDict (if text is [] then [] else stored))
  ∧ ∀ later,
      SecureSession.main (Some text) later
      = match SecureSession.fetched_messages later with
        | [] => Ok None
        | new_messages =>
            stored' ← SecureSession.update_store
                        (if text is [] then [] else stored) new_messages;
            Ok (Some stored')
        end.
Proof.
  intros Hlimit Hmain Htext.
  assert (SecureSession.load_existing_data (Some text)
          = PList (map PDict (if text is [] then [] else stored)))
    as Hload; [|split; [exact Hload|intros later; apply main_update_store, Hload]].
  apply store_read_back; [lia| |exact Htext].
  unfold SecureSession.main in Hmain.
  destruct (fetched_messages_kept messages) as (kept & Hkept & _).
  destruct (SecureSession.fetched_messages messages) as [|m new] eqn:Hnew;
    [discriminate|].
  destruct (SecureSession.iterate _) as [items|] eqn:Hit; [|discriminate].
  cbn [mbind result_bind] in Hmain.
  destruct (for_each SecureSession.dedup_value_step items (∅, [])) as [st|] eqn:Hst;
    [|discriminate].
  cbn [mbind result_bind] in Hmain.
  destruct (for_each SecureSession.dedup_step (m :: new) st) as [st'|] eqn:Hst';
    [|discriminate].
  injection Hmain as <-.
  eapply Forall_sublist; [apply save_data_sublist|].
  eapply dedup_step_unique; [exact Hst'| |].
  - apply for_each_values in Hst as (store & -> & Hst).
    eapply dedup_step_unique; [exact Hst|constructor|].
    apply Forall_forall. intros d Hd.
    destruct (load_existing_data_bounded data_file) as [Hb|Hempty].
    + eapply iterate_bounded; [exact Hb|exact Hit|].
      apply list_elem_of_fmap. eauto.
    + rewrite Hempty in Hit. injection Hit as Hit.
      destruct store; [apply elem_of_nil in Hd; contradiction|discriminate].
  - rewrite Hkept. apply Forall_map, Forall_forall. intros [m' t] _.
    replace (recursion_limit - 1)%nat with (S (recursion_limit - 2)) by lia.
    apply fetched_record_bounded.
Qed.

Lemma written_store_read_back_witness :
  @SecureSession.load_existing_data 1000%nat (Some sample_run_text)
  = PList (map PDict (if sample_run_text is [] then [] else sample_run_stored))
  ∧ ∀ later,
      @SecureSession.main ascii_lower 1000%nat (Some sample_run_text) later
      = match @SecureSession.fetched_messages ascii_lower 1000%nat later with
        | [] => Ok None
        | new_messages =>
            stored' ← @SecureSession.update_store ascii_lower
                        (if sample_run_text is [] then [] else sample_run_stored)
                        new_messages;
            Ok (Some stored')
        end.
Proof.
  apply (@written_store_read_back ascii_lower 1000%nat ample_stack None
           [leak_message] sample_run_stored sample_run_text).
  - vm_compute. lia.
  - vm_compute. reflexivity.
  - vm_compute. reflexivity.
Defined.

(** A store with a lone surrogate, which [json.loads] reads from the
    escape: the run merges the new message into it, the write raises, and
    [data.json] is left empty. *)
Example surrogate_store_emptied :
  match @SecureSession.main ascii_lower 1000%nat (Some surrogate_file)
          [leak_message] with
  | Ok (Some stored) =>
      length stored = 2%nat
      ∧ @SecureSession.written_text ample_stack stored = Some []
      ∧ @SecureSession.load_existing_data 1000%nat (Some []) = PList []
  | _ => False
  end.
Proof. vm_compute. repeat split. Qed.

(** A file with an [int] of more digits than [int] converts is read as no
    store: the run writes the new message alone. *)
Example long_int_store_dropped :
  @Json.loads 1000%nat long_int_file = Raise ValueError
  ∧ @SecureSession.main ascii_lower 1000%nat (Some long_int_file) [leak_message]
    = @SecureSession.main ascii_lower 1000%nat None [leak_message]
  ∧ @SecureSession.written_text ample_stack
      [[(py "Content", PStr (py "Database leak one"));
        (py "message_id", PInt (10 ^ 4300))]]
    = Some [].
Proof. repeat split; vm_compute; reflexivity. Qed.

(** X11. What [main] does when [data.json] does not hold a list, given that
    messages were fetched. A text that [json.loads] raises on, which is a
    text that is no JSON, that nests deeper than the recursion limit or
    that has an [int] of too many digits, and the JSON of a number or a
    literal count as no file: [save_data] is given the new messages only.
    A JSON object or string that is not empty makes [main] raise
    [AttributeError], and nothing is written. *)
Theorem main_store_not_a_list `{StrLower} `{RecursionLimit}
    (content : pystr) (messages : list SecureSession.message) :
  SecureSession.fetched_messages messages ≠ [] →
  (∀ e, Json.loads content = Raise e →
     SecureSession.main (Some content) messages = SecureSession.main None messages)
  ∧ (∀ v, Json.loads content = Ok v → SecureSession.has_len v = false →
       SecureSession.main (Some content) messages = SecureSession.main None messages)
  ∧ (∀ k v items, Json.loads content = Ok (PDict ((k, v) :: items)) →
       SecureSession.main (Some content) messages = Raise AttributeError)
  ∧ (∀ c s, Json.loads content = Ok (PStr (c :: s)) →
       SecureSession.main (Some content) messages = Raise AttributeError)
  ∧ SecureSession.main None messages
    = (stored ← SecureSession.update_store [] (SecureSession.fetched_messages messages);
       Ok (Some stored)).
Proof.
  intros Hnew. unfold SecureSession.main, SecureSession.load_existing_data.
  destruct (SecureSession.fetched_messages messages) as [|m new]; [contradiction|].
  repeat split.
  - intros e ->. reflexivity.
  - intros v -> ->. reflexivity.
  - intros k v items ->. reflexivity.
  - intros c s ->. reflexivity.
  - unfold SecureSession.update_store. cbv iota.
    unfold SecureSession.deduplicate_messages. set (batch := m :: new).
    cbn [SecureSession.iterate mbind result_bind for_each].
    destruct (for_each SecureSession.dedup_step batch (∅, [])); reflexivity.
Qed.

Lemma main_store_not_a_list_witness :
  @SecureSession.main ascii_lower 1000%nat (Some (py "{not json")) [leak_message]
  = @SecureSession.main ascii_lower 1000%nat None [leak_message].
Proof.
  refine (proj1 (@main_store_not_a_list ascii_lower 1000%nat (py "{not json")
                   [leak_message] _) JSONDecodeError _).
  - vm_compute. intros [=].
  - vm_compute. reflexivity.
Defined.

(** ** The retry loop *)

(** [_fetch_messages] raises nothing. *)
Lemma _fetch_messages_returns `{StrLower} `{RecursionLimit}
    (is_github_actions : bool) (self : SecureSession.config)
    (world : SecureSession.attempt) :
  ∃ all_messages,
    SecureSession._fetch_messages is_github_actions self world = Ok all_messages
    ∧ (all_messages = []
       ∨ all_messages = SecureSession.fetched_messages (SecureSession.yielded world)).
Proof.
  unfold SecureSession._fetch_messages.
  destruct (is_github_actions && _); [eauto|].
  destruct (SecureSession.fetch_attempt _ _ _) as [all_messages|e] eqn:Hattempt;
    [|eauto].
  exists all_messages. split; [reflexivity|].
  unfold SecureSession.fetch_attempt in Hattempt.
  destruct (is_github_actions && _); [left; congruence|].
  destruct (SecureSession.client world); [|discriminate].
  destruct (SecureSession.connected world); [|discriminate].
  cbn [mbind result_bind] in Hattempt.
  destruct (if is_github_actions then _ else _) as [authorized|]; [|discriminate].
  cbn [mbind result_bind] in Hattempt.
  destruct (negb authorized); [left; congruence|].
  destruct (SecureSession.entity world); [|left; congruence].
  unfold SecureSession.fetched_messages.
  destruct (for_each _ _ _) as [fetched|]; [|discriminate].
  cbn [mbind result_bind] in Hattempt.
  destruct (SecureSession.iteration world); [|discriminate].
  destruct (SecureSession.disconnected world); [|discriminate].
  right. cbn in Hattempt. congruence.
Qed.

(** X8. [fetch_messages_with_retry] makes one attempt at most: whatever the
    client does, [_fetch_messages] returns, the empty list after any
    exception, so that no [except] clause of the retry loop is ever
    entered and what the client would do in a later attempt plays no part.
    The result is the empty list, or the validated records of the messages
    that the first attempt was given. *)
Theorem fetch_messages_never_retried `{StrLower} `{RecursionLimit}
    (is_github_actions : bool) (self : SecureSession.config)
    (worlds : nat → SecureSession.attempt) :
  SecureSession.fetch_messages_with_retry is_github_actions self worlds
  = (if (0 <? SecureSession.retry_attempts self)%Z
     then match SecureSession._fetch_messages is_github_actions self (worlds 0%nat) with
          | Ok all_messages => all_messages
          | Raise _ => []
          end
     else [])
  ∧ (SecureSession.fetch_messages_with_retry is_github_actions self worlds = []
     ∨ SecureSession.fetch_messages_with_retry is_github_actions self worlds
       = SecureSession.fetched_messages (SecureSession.yielded (worlds 0%nat)))
  ∧ (∀ worlds', worlds' 0%nat = worlds 0%nat →
       SecureSession.fetch_messages_with_retry is_github_actions self worlds'
       = SecureSession.fetch_messages_with_retry is_github_actions self worlds).
Proof.
  assert (∀ w, SecureSession.fetch_messages_with_retry is_github_actions self w
    = if (0 <? SecureSession.retry_attempts self)%Z
      then match SecureSession._fetch_messages is_github_actions self (w 0%nat) with
           | Ok all_messages => all_messages
           | Raise _ => []
           end
      else []) as Hfirst.
  { intros w. unfold SecureSession.fetch_messages_with_retry.
    destruct (Z.ltb_spec 0 (SecureSession.retry_attempts self)) as [Hpos|Hneg].
    - destruct (Z.to_nat (SecureSession.retry_attempts self)) as [|turns] eqn:Hturns;
        [lia|].
      cbn [SecureSession.retry_loop].
      destruct (_fetch_messages_returns is_github_actions self (w 0%nat))
        as (all_messages & -> & _).
      reflexivity.
    - replace (Z.to_nat (SecureSession.retry_attempts self)) with 0%nat by lia.
      reflexivity. }
  split; [apply Hfirst|]. split.
  - rewrite Hfirst. destruct (0 <? _)%Z; [|left; reflexivity].
    destruct (_fetch_messages_returns is_github_actions self (worlds 0%nat))
      as (all_messages & -> & Hall).
    exact Hall.
  - intros worlds' Hsame. rewrite !Hfirst, Hsame. reflexivity.
Qed.

(** ** The constructor of [BreachEntry] *)

Lemma truncate_prefix (n : nat) (s : pystr) : truncate n s `prefix_of` s.
Proof.
  unfold truncate, slice_to. destruct (n <? length s)%nat; [apply prefix_take|reflexivity].
Qed.

Lemma filter_id {A : Type} (p : A → bool) (l : list A) :
  Forall (λ x, p x = true) l → List.filter p l = l.
Proof.
  induction 1 as [|x l Hx _ IH]; [reflexivity|].
  cbn [List.filter]. rewrite Hx, IH. reflexivity.
Qed.

Lemma filter_Forall {A : Type} (p : A → bool) (l : list A) :
  Forall (λ x, p x = true) (List.filter p l).
Proof.
  induction l as [|x l IH]; [constructor|].
  cbn [List.filter]. destruct (p x) eqn:Hx; [constructor; assumption|exact IH].
Qed.

Lemma allowed_type_idem (breach_type : pystr) :
  let sanitized :=
    if existsb (str_eqb breach_type) ALLOWED_BREACH_TYPES
    then breach_type else py "Other" in
  existsb (str_eqb sanitized) ALLOWED_BREACH_TYPES = true.
Proof.
  cbv zeta. destruct (existsb (str_eqb breach_type) ALLOWED_BREACH_TYPES) eqn:He;
    [exact He|reflexivity].
Qed.

Lemma post_init_fields (self entry : SecureSession.BreachEntry.t) :
  SecureSession.BreachEntry.post_init self = Ok entry →
  SecureSession.BreachEntry.source entry `prefix_of` SecureSession.BreachEntry.source self
  ∧ (length (SecureSession.BreachEntry.source entry) ≤ MAX_SOURCE_LENGTH)%nat
  ∧ SecureSession.BreachEntry.content entry `prefix_of` SecureSession.BreachEntry.content self
  ∧ (length (SecureSession.BreachEntry.content entry) ≤ MAX_CONTENT_LENGTH)%nat
  ∧ (length (SecureSession.BreachEntry.author entry) ≤ 100)%nat
  ∧ Forall (λ c, c ∉ [60; 62; 34; 39]) (SecureSession.BreachEntry.author entry)
  ∧ SecureSession.BreachEntry.breach_type entry ∈ ALLOWED_BREACH_TYPES
  ∧ (SecureSession.BreachEntry.breach_type self ∈ ALLOWED_BREACH_TYPES →
     SecureSession.BreachEntry.breach_type entry = SecureSession.BreachEntry.breach_type self)
  ∧ (SecureSession.BreachEntry.breach_type self ∉ ALLOWED_BREACH_TYPES →
     SecureSession.BreachEntry.breach_type entry = py "Other")
  ∧ (∃ h, SecureSession.BreachEntry.hash_id entry = Some h ∧ h ≠ []
          ∧ match SecureSession.BreachEntry.hash_id self with
            | Some (c :: given) => h = c :: given
            | _ => ∃ digest,
                     SecureSession.BreachEntry.content_hash (SecureSession.BreachEntry.content self) = Ok digest
                     ∧ h = SecureSession.BreachEntry.source self ++ py "_" ++ digest
            end)
  ∧ SecureSession.BreachEntry.detection_date entry = SecureSession.BreachEntry.detection_date self
  ∧ SecureSession.BreachEntry.message_id entry = SecureSession.BreachEntry.message_id self
  ∧ SecureSession.BreachEntry.timestamp entry = SecureSession.BreachEntry.timestamp self.
Proof.
  intros Hpost.
  assert (∃ h, h ≠ []
               ∧ match SecureSession.BreachEntry.hash_id self with
                 | Some (c :: given) => h = c :: given
                 | _ => ∃ digest,
                     SecureSession.BreachEntry.content_hash (SecureSession.BreachEntry.content self) = Ok digest
                     ∧ h = SecureSession.BreachEntry.source self ++ py "_" ++ digest
                 end
               ∧ entry = SecureSession.BreachEntry.validate_and_sanitize
                   {| SecureSession.BreachEntry.source := SecureSession.BreachEntry.source self;
                      SecureSession.BreachEntry.content := SecureSession.BreachEntry.content self;
                      SecureSession.BreachEntry.author := SecureSession.BreachEntry.author self;
                      SecureSession.BreachEntry.detection_date := SecureSession.BreachEntry.detection_date self;
                      SecureSession.BreachEntry.breach_type := SecureSession.BreachEntry.breach_type self;
                      SecureSession.BreachEntry.message_id := SecureSession.BreachEntry.message_id self;
                      SecureSession.BreachEntry.timestamp := SecureSession.BreachEntry.timestamp self;
                      SecureSession.BreachEntry.hash_id := Some h |}) as (h & Hne & Hh & ->).
  { unfold SecureSession.BreachEntry.post_init in Hpost.
    destruct (SecureSession.BreachEntry.hash_id self) as [[|c given]|].
    - destruct (SecureSession.BreachEntry.content_hash _) as [digest|]; [|discriminate].
      cbn [mbind result_bind] in Hpost. injection Hpost as <-.
      eexists. split; [|split; [eauto|reflexivity]].
      destruct (SecureSession.BreachEntry.source self); discriminate.
    - cbn [mbind result_bind] in Hpost. injection Hpost as <-.
      eexists. split; [|split; [reflexivity|reflexivity]]. discriminate.
    - destruct (SecureSession.BreachEntry.content_hash _) as [digest|]; [|discriminate].
      cbn [mbind result_bind] in Hpost. injection Hpost as <-.
      eexists. split; [|split; [eauto|reflexivity]].
      destruct (SecureSession.BreachEntry.source self); discriminate. }
  cbn [SecureSession.BreachEntry.validate_and_sanitize SecureSession.BreachEntry.source SecureSession.BreachEntry.content
       SecureSession.BreachEntry.author SecureSession.BreachEntry.breach_type SecureSession.BreachEntry.hash_id
       SecureSession.BreachEntry.detection_date SecureSession.BreachEntry.message_id SecureSession.BreachEntry.timestamp].
  split; [apply truncate_prefix|]. split; [apply truncate_length|].
  split; [apply truncate_prefix|]. split; [apply truncate_length|].
  split; [unfold slice_to; rewrite length_take; lia|].
  split; [apply Forall_take, re_sub_class_Forall|].
  split; [apply existsb_str_eqb, allowed_type_idem|].
  split; [intros Hin%existsb_str_eqb; rewrite Hin; reflexivity|].
  split.
  { intros Hnin. destruct (existsb _ _) eqn:He; [|reflexivity].
    apply existsb_str_eqb in He. contradiction. }
  split; [|auto].
  exists h. auto.
Qed.

(** X12. The constructor of [BreachEntry] leaves an entry within the limits: at
    most 500 characters of source, 2000 of content and 100 of author, none
    of the four deleted characters in the author, an allowed breach type
    and a hash id that is not empty. The hash id that is computed is the
    source as given, an underscore and the hash of the content as given,
    both before they are cut. The other fields are kept. *)
Theorem post_init_sanitized (self entry : SecureSession.BreachEntry.t) :
  SecureSession.BreachEntry.post_init self = Ok entry →
  SecureSession.BreachEntry.source entry `prefix_of` SecureSession.BreachEntry.source self
  ∧ (length (SecureSession.BreachEntry.source entry) ≤ MAX_SOURCE_LENGTH)%nat
  ∧ SecureSession.BreachEntry.content entry `prefix_of` SecureSession.BreachEntry.content self
  ∧ (length (SecureSession.BreachEntry.content entry) ≤ MAX_CONTENT_LENGTH)%nat
  ∧ (length (SecureSession.BreachEntry.author entry) ≤ 100)%nat
  ∧ Forall (λ c, c ∉ [60; 62; 34; 39]) (SecureSession.BreachEntry.author entry)
  ∧ SecureSession.BreachEntry.breach_type entry ∈ ALLOWED_BREACH_TYPES
  ∧ (SecureSession.BreachEntry.breach_type self ∈ ALLOWED_BREACH_TYPES →
     SecureSession.BreachEntry.breach_type entry = SecureSession.BreachEntry.breach_type self)
  ∧ (SecureSession.BreachEntry.breach_type self ∉ ALLOWED_BREACH_TYPES →
     SecureSession.BreachEntry.breach_type entry = py "Other")
  ∧ (∃ h, SecureSession.BreachEntry.hash_id entry = Some h ∧ h ≠ []
          ∧ match SecureSession.BreachEntry.hash_id self with
            | Some (c :: given) => h = c :: given
            | _ => ∃ digest,
                     SecureSession.BreachEntry.content_hash (SecureSession.BreachEntry.content self) = Ok digest
                     ∧ h = SecureSession.BreachEntry.source self ++ py "_" ++ digest
            end)
  ∧ SecureSession.BreachEntry.detection_date entry = SecureSession.BreachEntry.detection_date self
  ∧ SecureSession.BreachEntry.message_id entry = SecureSession.BreachEntry.message_id self
  ∧ SecureSession.BreachEntry.timestamp entry = SecureSession.BreachEntry.timestamp self.
Proof. apply post_init_fields. Qed.

Lemma post_init_sanitized_witness :

  SecureSession.BreachEntry.source sample_entry_built `prefix_of` SecureSession.BreachEntry.source sample_entry
  ∧ (length (SecureSession.BreachEntry.source sample_entry_built) ≤ MAX_SOURCE_LENGTH)%nat
  ∧ SecureSession.BreachEntry.content sample_entry_built `prefix_of` SecureSession.BreachEntry.content sample_entry
  ∧ (length (SecureSession.BreachEntry.content sample_entry_built) ≤ MAX_CONTENT_LENGTH)%nat
  ∧ (length (SecureSession.BreachEntry.author sample_entry_built) ≤ 100)%nat
  ∧ Forall (λ c, c ∉ [60; 62; 34; 39]) (SecureSession.BreachEntry.author sample_entry_built)
  ∧ SecureSession.BreachEntry.breach_type sample_entry_built ∈ ALLOWED_BREACH_TYPES
  ∧ (SecureSession.BreachEntry.breach_type sample_entry ∈ ALLOWED_BREACH_TYPES →
     SecureSession.BreachEntry.breach_type sample_entry_built = SecureSession.BreachEntry.breach_type sample_entry)
  ∧ (SecureSession.BreachEntry.breach_type sample_entry ∉ ALLOWED_BREACH_TYPES →
     SecureSession.BreachEntry.breach_type sample_entry_built = py "Other")
  ∧ (∃ h, SecureSession.BreachEntry.hash_id sample_entry_built = Some h ∧ h ≠ []
          ∧ match SecureSession.BreachEntry.hash_id sample_entry with
            | Some (c :: given) => h = c :: given
            | _ => ∃ digest,
                     SecureSession.BreachEntry.content_hash (SecureSession.BreachEntry.content sample_entry) = Ok digest
                     ∧ h = SecureSession.BreachEntry.source sample_entry ++ py "_" ++ digest
            end)
  ∧ SecureSession.BreachEntry.detection_date sample_entry_built = SecureSession.BreachEntry.detection_date sample_entry
  ∧ SecureSession.BreachEntry.message_id sample_entry_built = SecureSession.BreachEntry.message_id sample_entry
  ∧ SecureSession.BreachEntry.timestamp sample_entry_built = SecureSession.BreachEntry.timestamp sample_entry.
Proof. apply (post_init_sanitized sample_entry sample_entry_built). reflexivity. Defined.

(** X13. Constructing an entry again from the fields of a constructed entry
    changes nothing. *)
Theorem post_init_idempotent (self entry : SecureSession.BreachEntry.t) :
  SecureSession.BreachEntry.post_init self = Ok entry →
  SecureSession.BreachEntry.post_init entry = Ok entry.
Proof.
  intros Hpost.
  pose proof (post_init_fields self entry Hpost)
    as (_ & Hs & _ & Hc & Ha & Hchars & Ht & _ & _ & (h & Hh & Hne & _) & _).
  destruct entry as [source content author date breach_type id stamp hash].
  cbn [SecureSession.BreachEntry.source SecureSession.BreachEntry.content SecureSession.BreachEntry.author
       SecureSession.BreachEntry.breach_type SecureSession.BreachEntry.hash_id] in *.
  subst hash. destruct h as [|c h]; [contradiction|].
  unfold SecureSession.BreachEntry.post_init, SecureSession.BreachEntry.validate_and_sanitize.
  cbn [SecureSession.BreachEntry.source SecureSession.BreachEntry.content SecureSession.BreachEntry.author
       SecureSession.BreachEntry.breach_type SecureSession.BreachEntry.hash_id SecureSession.BreachEntry.detection_date
       SecureSession.BreachEntry.message_id SecureSession.BreachEntry.timestamp mbind result_bind].
  rewrite !truncate_short by assumption.
  apply existsb_str_eqb in Ht. rewrite Ht.
  unfold slice_to, re_sub_class. rewrite filter_id, take_ge; [reflexivity|exact Ha|].
  eapply Forall_impl; [exact Hchars|]. intros x Hx.
  apply negb_true_iff. destruct (existsb (N.eqb x) _) eqn:He; [|reflexivity].
  apply existsb_exists in He as (y & Hy%list_elem_of_In & ->%N.eqb_eq). contradiction.
Qed.

Lemma post_init_idempotent_witness :
  SecureSession.BreachEntry.post_init sample_entry_built = Ok sample_entry_built.
Proof. apply (post_init_idempotent sample_entry sample_entry_built). reflexivity. Defined.

(** ** [Config.validate] *)

Lemma span_spec (p : N → bool) (s : pystr) :
  s = (span p s).1 ++ (span p s).2
  ∧ Forall (λ c, p c = true) (span p s).1
  ∧ match (span p s).2 with [] => True | c :: _ => p c = false end.
Proof.
  induction s as [|c s (Hs & Hall & Hrest)]; [repeat split; constructor|].
  cbn [span]. destruct (p c) eqn:Hc; cbn [fst snd].
  - split; [cbn [app]; congruence|]. split; [constructor; assumption|exact Hrest].
  - repeat split; [constructor|exact Hc].
Qed.

Lemma span_app (p : N → bool) (w rest : pystr) :
  Forall (λ c, p c = true) w →
  match rest with [] => True | c :: _ => p c = false end →
  span p (w ++ rest) = (w, rest).
Proof.
  intros Hw Hrest. induction Hw as [|c w Hc _ IH]; cbn [app span].
  - destruct rest as [|c rest]; [reflexivity|]. cbn [span]. rewrite Hrest. reflexivity.
  - rewrite Hc, IH. reflexivity.
Qed.

Lemma at_end_spec (s : pystr) : at_end s = true ↔ s = [] ∨ s = [10].
Proof.
  destruct s as [|c [|d s]]; cbn [at_end].
  - split; auto.
  - rewrite N.eqb_eq. split; [intros ->; auto|intros [|[= ->]]; [discriminate|reflexivity]].
  - split; [discriminate|intros [|]; discriminate].
Qed.

(** What [re.match] accepts for the pattern of a channel name. *)
Lemma match_word_spec (s : pystr) :
  match_word s = true
  ↔ ∃ w, w ≠ [] ∧ Forall (λ c, is_word_char c = true) w ∧ (s = w ∨ s = w ++ [10]).
Proof.
  unfold match_word. split.
  - destruct (span_spec is_word_char s) as (Hs & Hall & _).
    destruct (span is_word_char s) as [[|c w] rest]; cbn [fst snd] in *;
      [discriminate|].
    intros [-> | ->]%at_end_spec; exists (c :: w).
    + rewrite app_nil_r in Hs. split; [discriminate|]. split; [exact Hall|auto].
    + split; [discriminate|]. split; [exact Hall|auto].
  - intros (w & Hne & Hall & [-> | ->]).
    + rewrite <- (app_nil_r w), span_app by (exact Hall || exact I).
      destruct w; [contradiction|reflexivity].
    + rewrite span_app by (exact Hall || reflexivity).
      destruct w; [contradiction|reflexivity].
Qed.

(** X14. [Config.validate] accepts exactly the settings with an [API_ID] that
    is not empty and is all digits, an [API_HASH] of 32 characters, of any
    kind, and a channel name of word characters, which one newline may
    follow. *)
Theorem validate_accepts `{StrIsDigit} (self : SecureSession.config) :
  SecureSession.validate self = true
  ↔ ∃ id hash name,
      SecureSession.api_id self = Some id ∧ id ≠ [] ∧ str_isdigit id = true
      ∧ SecureSession.api_hash self = Some hash ∧ length hash = 32%nat
      ∧ name ≠ [] ∧ Forall (λ c, is_word_char c = true) name
      ∧ (SecureSession.channel self = name
         ∨ SecureSession.channel self = name ++ [10]).
Proof.
  unfold SecureSession.validate. split.
  - destruct (SecureSession.api_id self) as [[|c id]|]; try discriminate.
    destruct (SecureSession.api_hash self) as [[|h hash]|]; try discriminate.
    destruct (str_isdigit (c :: id)) eqn:Hd; cbn [negb]; [|discriminate].
    destruct (Nat.eqb_spec (length (h :: hash)) 32) as [Hlen|]; cbn [negb];
      [|discriminate].
    intros (name & Hne & Hall & Hname)%match_word_spec.
    exists (c :: id), (h :: hash), name.
    split; [reflexivity|]. split; [discriminate|]. split; [exact Hd|].
    split; [reflexivity|]. split; [exact Hlen|]. auto.
  - intros (id & hash & name & -> & Hid & Hd & -> & Hlen & Hname).
    destruct id as [|c id]; [contradiction|].
    destruct hash as [|h hash]; [discriminate|].
    rewrite Hd. cbn [negb]. rewrite Hlen. cbn [Nat.eqb negb].
    apply match_word_spec. exists name. exact Hname.
Qed.

(** ** The session file

    Decoding undoes the standard encoding, three bytes at a time; the
    arithmetic on one group is checked on all its values. *)

Lemma below_spec (n : nat) (x : N) : x < N.of_nat n → x ∈ below n.
Proof.
  intros Hx. unfold below. apply list_elem_of_fmap. exists (N.to_nat x).
  split; [lia|]. apply list_elem_of_In, in_seq. lia.
Qed.

Lemma forallb_below (n : nat) (P : N → bool) (x : N) :
  forallb P (below n) = true → x < N.of_nat n → P x = true.
Proof.
  intros Hall Hx. rewrite forallb_forall in Hall.
  apply Hall, list_elem_of_In, below_spec, Hx.
Qed.

Lemma b64_char_value (v : N) :
  v < 64 → b64_value (b64_char v) = Some v ∧ b64_char v ≠ 61 ∧ b64_char v < 128
           ∧ is_base64_char (b64_char v) = true.
Proof.
  intros Hv.
  assert (forallb (λ v, (if b64_value (b64_char v) is Some w then w =? v else false)
                        && negb (b64_char v =? 61) && (b64_char v <? 128)
                        && is_base64_char (b64_char v)) (below 64) = true)
    as Hall by (vm_compute; reflexivity).
  apply (forallb_below 64 _ v) in Hall; [|exact Hv].
  apply andb_true_iff in Hall as [[[H1 H2]%andb_true_iff H3]%andb_true_iff H4].
  destruct (b64_value (b64_char v)) as [w|]; [|discriminate].
  apply N.eqb_eq in H1 as ->. apply negb_true_iff, N.eqb_neq in H2.
  apply N.ltb_lt in H3. auto.
Qed.

Lemma first_byte (b q : N) :
  b < 256 → q < 16 →
  N.lor (N.shiftl (b / 4) 2) (N.shiftr ((b mod 4) * 16 + q) 4) = b
  ∧ N.land ((b mod 4) * 16 + q) 15 = q.
Proof.
  intros Hb Hq.
  assert (forallb (λ b, forallb (λ q,
            (N.lor (N.shiftl (b / 4) 2) (N.shiftr ((b mod 4) * 16 + q) 4) =? b)
            && (N.land ((b mod 4) * 16 + q) 15 =? q)) (below 16)) (below 256) = true)
    as Hall by (vm_compute; reflexivity).
  apply (forallb_below 256 _ b) in Hall; [|exact Hb].
  apply (forallb_below 16 _ q) in Hall; [|exact Hq].
  apply andb_true_iff in Hall as [H1%N.eqb_eq H2%N.eqb_eq]. auto.
Qed.

Lemma second_byte (q r t : N) :
  q < 16 → r < 16 → t < 4 →
  N.lor (N.shiftl q 4) (N.shiftr (r * 4 + t) 2) = q * 16 + r
  ∧ N.land (r * 4 + t) 3 = t.
Proof.
  intros Hq Hr Ht.
  assert (forallb (λ q, forallb (λ r, forallb (λ t,
            (N.lor (N.shiftl q 4) (N.shiftr (r * 4 + t) 2) =? q * 16 + r)
            && (N.land (r * 4 + t) 3 =? t)) (below 4)) (below 16)) (below 16) = true)
    as Hall by (vm_compute; reflexivity).
  apply (forallb_below 16 _ q) in Hall; [|exact Hq].
  apply (forallb_below 16 _ r) in Hall; [|exact Hr].
  apply (forallb_below 4 _ t) in Hall; [|exact Ht].
  apply andb_true_iff in Hall as [H1%N.eqb_eq H2%N.eqb_eq]. auto.
Qed.

Lemma third_byte (t u : N) :
  t < 4 → u < 64 → N.lor (N.shiftl t 6) u = t * 64 + u.
Proof.
  intros Ht Hu.
  assert (forallb (λ t, forallb (λ u, N.lor (N.shiftl t 6) u =? t * 64 + u)
                          (below 64)) (below 4) = true)
    as Hall by (vm_compute; reflexivity).
  apply (forallb_below 4 _ t) in Hall; [|exact Ht].
  apply (forallb_below 64 _ u) in Hall; [|exact Hu].
  apply N.eqb_eq, Hall.
Qed.

(** Induction on a list three items at a time. *)
Lemma triples_ind {A : Type} (P : list A → Prop) :
  P [] → (∀ a, P [a]) → (∀ a b, P [a; b]) →
  (∀ a b c l, P l → P (a :: b :: c :: l)) → ∀ l, P l.
Proof.
  intros H0 H1 H2 H3. fix IH 1.
  intros [|a [|b [|c l]]]; [exact H0|apply H1|apply H2|apply H3, IH].
Qed.

(** The bounds of the parts that a byte is split into. *)
Lemma byte_parts (b : N) :
  b < 256 →
  b / 4 < 64 ∧ b mod 4 < 4 ∧ b / 16 < 16 ∧ b mod 16 < 16
  ∧ b / 64 < 4 ∧ b mod 64 < 64
  ∧ b = (b / 16) * 16 + b mod 16 ∧ b = (b / 64) * 64 + b mod 64.
Proof.
  intros Hb.
  pose proof (N.div_mod b 4 ltac:(lia)). pose proof (N.mod_lt b 4 ltac:(lia)).
  pose proof (N.div_mod b 16 ltac:(lia)). pose proof (N.mod_lt b 16 ltac:(lia)).
  pose proof (N.div_mod b 64 ltac:(lia)). pose proof (N.mod_lt b 64 ltac:(lia)).
  repeat match goal with H : context [?x mod ?y] |- _ =>
    revert H end.
  generalize (b mod 4) (b / 4) (b mod 16) (b / 16) (b mod 64) (b / 64).
  intros. lia.
Qed.

Lemma a2b_data (v : N) (s : pystr) (quad_pos : nat) (leftchar : N) (pads : nat)
    (bin_data : list N) :
  v < 64 →
  a2b_base64 (b64_char v :: s) quad_pos leftchar pads bin_data
  = match quad_pos with
    | 0%nat => a2b_base64 s 1 v 0 bin_data
    | 1%nat =>
        a2b_base64 s 2 (N.land v 0x0F) 0
          (bin_data ++ [N.lor (N.shiftl leftchar 2) (N.shiftr v 4)])
    | 2%nat =>
        a2b_base64 s 3 (N.land v 0x03) 0
          (bin_data ++ [N.lor (N.shiftl leftchar 4) (N.shiftr v 2)])
    | _ => a2b_base64 s 0 0 0 (bin_data ++ [N.lor (N.shiftl leftchar 6) v])
    end.
Proof.
  intros (Hv & Hpad & _)%b64_char_value. cbn [a2b_base64].
  destruct (N.eqb_spec (b64_char v) 61); [contradiction|]. rewrite Hv. reflexivity.
Qed.

(** Decoding the encoding of bytes gives the bytes back, after whatever
    was decoded before. *)
Lemma a2b_encode (data : list N) :
  Forall (λ b, b < 256) data →
  ∀ tail bin_data, tail = [] ∨ tail = [10] →
    a2b_base64 (b64encode data ++ tail) 0 0 0 bin_data = Some (bin_data ++ data).
Proof.
  induction data as [|b1|b1 b2|b1 b2 b3 data IH] using triples_ind;
    intros Hall tail bin_data Htail.
  - rewrite app_nil_r. destruct Htail as [-> | ->]; reflexivity.
  - apply Forall_cons in Hall as [Hb1 _].
    destruct (byte_parts b1 Hb1) as (H1 & H2 & _).
    cbn [b64encode app]. rewrite !a2b_data by lia.
    rewrite <- (N.add_0_r (b1 mod 4 * 16)).
    destruct (first_byte b1 0 Hb1 ltac:(lia)) as [-> ->]. reflexivity.
  - apply Forall_cons in Hall as [Hb1 [Hb2 _]%Forall_cons].
    destruct (byte_parts b1 Hb1) as (H1 & H2 & _).
    destruct (byte_parts b2 Hb2) as (_ & _ & H3 & H4 & _ & _ & H5 & _).
    cbn [b64encode app]. rewrite !a2b_data by lia.
    destruct (first_byte b1 (b2 / 16) Hb1 H3) as [-> ->].
    rewrite <- (N.add_0_r (b2 mod 16 * 4)).
    destruct (second_byte (b2 / 16) (b2 mod 16) 0 H3 H4 ltac:(lia)) as [-> _].
    rewrite <- H5. cbn [a2b_base64 N.eqb Pos.eqb]. rewrite <- app_assoc. reflexivity.
  - apply Forall_cons in Hall as [Hb1 [Hb2 [Hb3 Hall]%Forall_cons]%Forall_cons].
    destruct (byte_parts b1 Hb1) as (H1 & H2 & _).
    destruct (byte_parts b2 Hb2) as (_ & _ & H3 & H4 & _ & _ & H5 & _).
    destruct (byte_parts b3 Hb3) as (_ & _ & _ & _ & H6 & H7 & _ & H8).
    cbn [b64encode app]. rewrite !a2b_data by lia.
    destruct (first_byte b1 (b2 / 16) Hb1 H3) as [-> ->].
    destruct (second_byte (b2 / 16) (b2 mod 16) (b3 / 64) H3 H4 H6) as [-> ->].
    rewrite (third_byte (b3 / 64) (b3 mod 64) H6 H7), <- H5, <- H8.
    rewrite (IH Hall tail _ Htail), <- !app_assoc. reflexivity.
Qed.

(** An encoding is characters of the alphabet, then at most two [=]. *)
Lemma b64encode_shape (data : list N) :
  Forall (λ b, b < 256) data →
  ∃ body pad, b64encode data = body ++ pad
    ∧ Forall (λ c, is_base64_char c = true ∧ c < 128) body
    ∧ (pad = [] ∨ pad = [61] ∨ pad = [61; 61])
    ∧ (data ≠ [] → body ≠ []).
Proof.
  assert (∀ v, v < 64 → is_base64_char (b64_char v) = true ∧ b64_char v < 128) as Hchar
    by (intros v (_ & _ & H1 & H2)%b64_char_value; auto).
  induction data as [|b1|b1 b2|b1 b2 b3 data IH] using triples_ind; intros Hall.
  - exists [], []. repeat split; auto.
  - apply Forall_cons in Hall as [Hb1 _].
    destruct (byte_parts b1 Hb1) as (H1 & H2 & _).
    eexists [_; _], [61; 61]. split; [reflexivity|].
    split; [repeat constructor; apply Hchar; lia|]. split; [auto|discriminate].
  - apply Forall_cons in Hall as [Hb1 [Hb2 _]%Forall_cons].
    destruct (byte_parts b1 Hb1) as (H1 & H2 & _).
    destruct (byte_parts b2 Hb2) as (_ & _ & H3 & H4 & _).
    eexists [_; _; _], [61]. split; [reflexivity|].
    split; [repeat constructor; apply Hchar; lia|]. split; [auto|discriminate].
  - apply Forall_cons in Hall as [Hb1 [Hb2 [Hb3 Hall]%Forall_cons]%Forall_cons].
    destruct (byte_parts b1 Hb1) as (H1 & H2 & _).
    destruct (byte_parts b2 Hb2) as (_ & _ & H3 & H4 & _).
    destruct (byte_parts b3 Hb3) as (_ & _ & _ & _ & H6 & H7 & _).
    destruct (IH Hall) as (body & pad & Heq & Hbody & Hpad & _).
    eexists (_ :: _ :: _ :: _ :: body), pad. cbn [b64encode app]. rewrite Heq.
    split; [reflexivity|].
    split; [repeat (constructor; [apply Hchar; lia|]); exact Hbody|].
    split; [exact Hpad|discriminate].
Qed.

(** X15. A session that is the standard base64 of bytes, with or without a
    newline after it, is written to the session file byte for byte, with
    the SHA-256 of those bytes as its checksum; the history script writes
    the same bytes. Of an empty or missing session nothing is written. *)
Theorem session_file_round_trip (data tail : list N) :
  Forall (λ b, b < 256) data → data ≠ [] → tail = [] ∨ tail = [10] →
  SecureSession.create_session_file (Some (b64encode data ++ tail))
  = Some (data, Sha256.hexdigest data)
  ∧ EntireHistory.create_session_file (Some (b64encode data ++ tail)) = Some data
  ∧ SecureSession.create_session_file (Some []) = None
  ∧ SecureSession.create_session_file None = None.
Proof.
  intros Hall Hne Htail.
  destruct (b64encode_shape data Hall) as (body & pad & Heq & Hbody & Hpad & Hnil).
  specialize (Hnil Hne).
  assert (match_base64 (b64encode data ++ tail) = true) as Hmatch.
  { unfold match_base64. rewrite Heq, <- app_assoc, span_app.
    - cbn [snd]. destruct Hpad as [-> | [-> | ->]], Htail as [-> | ->]; reflexivity.
    - eapply Forall_impl; [exact Hbody|]. intros c [Hc _]. exact Hc.
    - destruct Hpad as [-> | [-> | ->]], Htail as [-> | ->]; exact I || reflexivity. }
  assert (b64decode (b64encode data ++ tail) = Some data) as Hdecode.
  { unfold b64decode. rewrite (a2b_encode data Hall tail [] Htail).
    assert (forallb (λ c, c <? 128) (b64encode data ++ tail) = true) as ->;
      [|reflexivity].
    apply forallb_forall. intros c. rewrite Heq, !in_app_iff.
    intros [[Hc|Hc]|Hc].
    - rewrite Forall_forall in Hbody. apply list_elem_of_In, Hbody in Hc.
      apply N.ltb_lt, Hc.
    - destruct Hpad as [-> | [-> | ->]]; cbn in Hc; intuition (subst; reflexivity).
    - destruct Htail as [-> | ->]; cbn in Hc; intuition (subst; reflexivity). }
  assert (∃ c s, b64encode data ++ tail = c :: s) as (c & s & Hcons).
  { rewrite Heq. destruct body as [|c body]; [contradiction|]. cbn [app]. eauto. }
  unfold SecureSession.create_session_file, EntireHistory.create_session_file.
  rewrite Hcons, <- Hcons, Hmatch, Hdecode.
  split; [reflexivity|]. split; [reflexivity|].
  split; reflexivity.
Qed.

Lemma session_file_round_trip_witness :
  SecureSession.create_session_file (Some (b64encode sample_session ++ []))
  = Some (sample_session, Sha256.hexdigest sample_session)
  ∧ EntireHistory.create_session_file (Some (b64encode sample_session ++ []))
    = Some sample_session
  ∧ SecureSession.create_session_file (Some []) = None
  ∧ SecureSession.create_session_file None = None.
Proof.
  apply (session_file_round_trip sample_session []).
  - apply Forall_forall. intros b Hb%list_elem_of_In.
    vm_compute in Hb. vm_compute. intuition (subst; reflexivity).
  - discriminate.
  - left. reflexivity.
Defined.

(** ** The history script *)

(** *** What counts as a JSON message *)

Lemma is_ws_space (c : N) : Json.is_ws c = true → is_space c = true.
Proof.
  unfold Json.is_ws. rewrite !orb_true_iff, !N.eqb_eq.
  intros [[[->| ->]| ->]| ->]; reflexivity.
Qed.

Lemma lstrip_idem (s : pystr) : lstrip (lstrip s) = lstrip s.
Proof.
  induction s as [|c s IH]; [reflexivity|].
  cbn [lstrip]. destruct (is_space c) eqn:Hc; [exact IH|].
  cbn [lstrip]. rewrite Hc. reflexivity.
Qed.

Lemma lstrip_snoc (l : pystr) (c : N) :
  is_space c = false → ∃ w, lstrip (l ++ [c]) = w ++ [c].
Proof.
  intros Hc. induction l as [|a l [w IH]]; cbn [app lstrip].
  - rewrite Hc. exists []. reflexivity.
  - destruct (is_space a); [eauto|]. exists (a :: l). reflexivity.
Qed.

Lemma strip_trimmed (x : pystr) :
  lstrip (strip x) = strip x ∧ lstrip (rev (strip x)) = rev (strip x).
Proof.
  unfold strip, rstrip. split.
  - pose proof (lstrip_idem x) as Hz. destruct (lstrip x) as [|c z] eqn:Hx;
      [reflexivity|].
    cbn [lstrip] in Hz. destruct (is_space c) eqn:Hc.
    { exfalso. clear Hx. pose proof (f_equal (@length N) Hz) as Hlen.
      cbn [length] in Hlen.
      assert (∀ s, (length (lstrip s) ≤ length s)%nat) as Hle.
      { induction s as [|a s IH]; cbn [lstrip]; [lia|].
        destruct (is_space a); cbn [length]; lia. }
      specialize (Hle z). lia. }
    cbn [rev]. destruct (lstrip_snoc (rev z) c Hc) as [w ->].
    rewrite rev_app_distr. cbn [rev app lstrip]. rewrite Hc. reflexivity.
  - rewrite rev_involutive. apply lstrip_idem.
Qed.

Lemma skip_ws_lstrip (s : pystr) : lstrip s = s → Json.skip_ws s = s.
Proof.
  destruct s as [|c s]; [reflexivity|]. cbn [lstrip Json.skip_ws].
  destruct (Json.is_ws c) eqn:Hw; [|reflexivity].
  rewrite (is_ws_space c Hw). intros Hs.
  assert (∀ s, (length (lstrip s) ≤ length s)%nat) as Hle.
  { induction s0 as [|a s0 IH]; cbn [lstrip]; [lia|].
    destruct (is_space a); cbn [length]; lia. }
  pose proof (f_equal (@length N) Hs) as Hlen. cbn [length] in Hlen.
  specialize (Hle s). lia.
Qed.

Lemma skip_ws_all (ws s : pystr) :
  Forall (λ c, Json.is_ws c = true) ws → Json.skip_ws (ws ++ s) = Json.skip_ws s.
Proof.
  induction 1 as [|c ws Hc _ IH]; [reflexivity|].
  cbn [app Json.skip_ws]. rewrite Hc. exact IH.
Qed.

Lemma skip_ws_nil (s : pystr) :
  Json.skip_ws s = [] → Forall (λ c, Json.is_ws c = true) s.
Proof.
  destruct (skip_ws_decomp s) as (ws & Hs & Hws). intros Hnil.
  rewrite Hnil, app_nil_r in Hs. subst. exact Hws.
Qed.

Lemma trailing_ws_nil (x rest : pystr) :
  lstrip (rev (x ++ rest)) = rev (x ++ rest) →
  Forall (λ c, Json.is_ws c = true) rest → rest = [].
Proof.
  intros Hrev Hws. destruct rest as [|c rest _] using rev_ind; [reflexivity|].
  exfalso. rewrite app_assoc, rev_app_distr in Hrev. cbn [rev app lstrip] in Hrev.
  apply Forall_app in Hws as [_ Hc]. apply Forall_singleton, is_ws_space in Hc.
  rewrite Hc in Hrev.
  assert (∀ s, (length (lstrip s) ≤ length s)%nat) as Hle.
  { induction s as [|a s IH]; cbn [lstrip]; [lia|].
    destruct (is_space a); cbn [length]; lia. }
  pose proof (f_equal (@length N) Hrev) as Hlen. cbn [length] in Hlen.
  specialize (Hle (rev (x ++ rest))). lia.
Qed.

Section History.
Context `{RecursionLimit}.

Lemma loads_braces (ws : pystr) :
  (1 ≤ recursion_limit)%nat → Forall (λ c, Json.is_ws c = true) ws →
  Json.loads (123 :: ws ++ [125]) = Ok (PDict []).
Proof.
  intros Hlimit Hws. unfold Json.loads.
  change (startswith [65279] (123 :: ws ++ [125])) with false. cbv iota.
  rewrite skip_ws_value by reflexivity.
  destruct recursion_limit as [|limit]; [lia|].
  generalize (length (123 :: ws ++ [125])). intros n.
  replace (2 * n + 2)%nat with (S (2 * n + 1)) by lia.
  rewrite scan_once_object, skip_ws_all by exact Hws.
  reflexivity.
Qed.

Lemma loads_dict_shape (s : pystr) (d : dict) :
  Forall (λ c, c ≠ 34) s → Json.loads s = Ok (PDict d) →
  ∃ ws rest, Json.skip_ws s = 123 :: ws ++ 125 :: rest
             ∧ Forall (λ c, Json.is_ws c = true) ws
             ∧ Forall (λ c, Json.is_ws c = true) rest.
Proof.
  intros Hs. unfold Json.loads.
  destruct (startswith [65279] s); [discriminate|].
  destruct (Json.scan_once _ _ _) as [[v rest]|] eqn:Hr; [|discriminate].
  cbn [mbind result_bind fst snd].
  destruct (Json.skip_ws rest) eqn:Hrest; [|discriminate].
  intros [= ->].
  apply scan_once_empty_dict in Hr as [_ (ws & Hsk & Hws)];
    [|apply skip_ws_Forall; assumption].
  exists ws, rest. split; [exact Hsk|]. split; [exact Hws|apply skip_ws_nil, Hrest].
Qed.

End History.

(** X16. [is_json_message] accepts a message exactly when its cleaned text
    is a pair of braces with nothing but JSON whitespace between them. *)
Theorem is_json_message_braces `{RecursionLimit} (text : pyval) :
  (1 ≤ recursion_limit)%nat →
  EntireHistory.is_json_message text = true
  ↔ ∃ ws, clean_text text = 123 :: ws ++ [125]
          ∧ Forall (λ c, Json.is_ws c = true) ws.
Proof.
  intros Hlimit. unfold EntireHistory.is_json_message.
  cbn [EntireHistory.is_json_attempts]. split.
  - destruct (Json.loads (clean_text text)) as [v|e] eqn:Hl;
      [|destruct e; discriminate].
    pose proof (loads_unquoted _ _ (clean_text_unquoted text) Hl) as Hkey.
    destruct v as [| | | | | |d]; try contradiction; try discriminate.
    intros _.
    apply (loads_dict_shape _ _ (clean_text_unquoted text)) in Hl
      as (ws & rest & Hsk & Hws & Hrest).
    assert (lstrip (clean_text text) = clean_text text
            ∧ lstrip (rev (clean_text text)) = rev (clean_text text)) as [Hl Hr].
    { destruct text; try (split; reflexivity). apply strip_trimmed. }
    rewrite (skip_ws_lstrip _ Hl) in Hsk. rewrite Hsk in Hr.
    replace (123 :: ws ++ 125 :: rest) with ((123 :: ws ++ [125]) ++ rest) in Hr
      by (cbn [app]; rewrite <- app_assoc; reflexivity).
    apply trailing_ws_nil in Hr; [|exact Hrest]. subst rest.
    exists ws. split; [exact Hsk|exact Hws].
  - intros (ws & -> & Hws). rewrite loads_braces by assumption. reflexivity.
Qed.

Lemma is_json_message_braces_witness :
  @EntireHistory.is_json_message 1000%nat (PStr (py "{ }")) = true
  ↔ ∃ ws, clean_text (PStr (py "{ }")) = 123 :: ws ++ [125]
          ∧ Forall (λ c, Json.is_ws c = true) ws.
Proof. apply (@is_json_message_braces 1000%nat (PStr (py "{ }"))). vm_compute. lia. Defined.

Section HistoryFetch.
Context `{StrLower} `{RecursionLimit}.

Lemma history_fetch_step (all_messages : list dict) (m : SecureSession.message) :
  (∀ s, Forall (λ c, c < 128) s → str_lower s = ascii_lower s) →
  EntireHistory.fetch_step all_messages m = Ok all_messages.
Proof.
  intros Hlower. unfold EntireHistory.fetch_step.
  destruct (SecureSession.text m) as [[|c t]|]; try reflexivity.
  rewrite (parse_json_message_falsy _ Hlower).
  destruct (EntireHistory.is_json_message _); reflexivity.
Qed.

End HistoryFetch.

(** X17. The history script fetches nothing: whatever the messages of the
    channel, its loop appends no record, [fetch_entire_history] returns
    the empty list and [main] does not call [save_data]; given that
    [str.lower] is the ASCII one on ASCII text. *)
Theorem history_fetches_nothing `{StrLower} `{RecursionLimit}
    (messages : list SecureSession.message) :
  (∀ s, Forall (λ c, c < 128) s → str_lower s = ascii_lower s) →
  for_each EntireHistory.fetch_step messages [] = Ok []
  ∧ EntireHistory.fetched_messages messages = []
  ∧ EntireHistory.main messages = None.
Proof.
  intros Hlower.
  assert (for_each EntireHistory.fetch_step messages [] = Ok []) as Hloop.
  { induction messages as [|m messages IH]; [reflexivity|].
    cbn [for_each]. rewrite history_fetch_step by exact Hlower. exact IH. }
  assert (EntireHistory.fetched_messages messages = []) as Hnone
    by (unfold EntireHistory.fetched_messages; rewrite Hloop; reflexivity).
  split; [exact Hloop|]. split; [exact Hnone|].
  unfold EntireHistory.main. rewrite Hnone. reflexivity.
Qed.

Lemma history_fetches_nothing_witness :
  for_each (@EntireHistory.fetch_step ascii_lower 1000%nat)
    [leak_message; braces_message] [] = Ok []
  ∧ @EntireHistory.fetched_messages ascii_lower 1000%nat
      [leak_message; braces_message] = []
  ∧ @EntireHistory.main ascii_lower 1000%nat [leak_message; braces_message] = None.
Proof.
  apply (@history_fetches_nothing ascii_lower 1000%nat [leak_message; braces_message]).
  reflexivity.
Defined.

(** *** What the history script saves *)

Lemma str_ltb_irrefl (a : pystr) : str_ltb a a = false.
Proof.
  induction a as [|x a IH]; [reflexivity|].
  cbn [str_ltb]. rewrite N.ltb_irrefl, N.eqb_refl, IH. reflexivity.
Qed.

Lemma str_ltb_trans (a b c : pystr) :
  str_ltb a b = true → str_ltb b c = true → str_ltb a c = true.
Proof.
  revert b c. induction a as [|x a IH]; intros [|y b] [|z c]; cbn [str_ltb];
    try discriminate; try reflexivity.
  rewrite !orb_true_iff, !andb_true_iff, !N.ltb_lt, !N.eqb_eq.
  intros [Hxy|[-> Hab]] [Hyz|[-> Hbc]]; try (left; lia).
  right. split; [reflexivity|]. eapply IH; eassumption.
Qed.

Section Sort.
Context {K : Type} (ltb : K → K → bool).
Hypothesis ltb_irrefl : ∀ a, ltb a a = false.
Hypothesis ltb_trans : ∀ a b c, ltb a b = true → ltb b c = true → ltb a c = true.

Lemma ltb_asym (a b : K) : ltb a b = true → ltb b a = false.
Proof.
  intros Hab. destruct (ltb b a) eqn:Hba; [|reflexivity].
  pose proof (ltb_trans _ _ _ Hab Hba) as Haa.
  rewrite ltb_irrefl in Haa. discriminate.
Qed.

Lemma insert_newest_Permutation (x : K * dict) (sorted : list (K * dict)) :
  EntireHistory.insert_newest ltb x sorted ≡ₚ x :: sorted.
Proof.
  induction sorted as [|y sorted IH]; cbn [EntireHistory.insert_newest];
    [reflexivity|].
  destruct (ltb y.1 x.1); [reflexivity|].
  rewrite IH. apply Permutation_swap.
Qed.

Lemma sort_newest_first_Permutation (keyed : list (K * dict)) :
  EntireHistory.sort_newest_first ltb keyed ≡ₚ keyed.
Proof.
  unfold EntireHistory.sort_newest_first.
  assert (∀ sorted, fold_left (λ sorted x, EntireHistory.insert_newest ltb x sorted)
                      keyed sorted ≡ₚ sorted ++ keyed) as Hfold.
  { induction keyed as [|x keyed IH]; intros sorted; cbn [fold_left].
    - rewrite app_nil_r. reflexivity.
    - rewrite IH, insert_newest_Permutation.
      rewrite (Permutation_middle sorted keyed x). reflexivity. }
  apply (Hfold []).
Qed.

Lemma insert_newest_sorted (x : K * dict) (sorted : list (K * dict)) :
  StronglySorted (λ a b, ltb a.1 b.1 = false) sorted →
  StronglySorted (λ a b, ltb a.1 b.1 = false)
                 (EntireHistory.insert_newest ltb x sorted).
Proof.
  induction 1 as [|y sorted Hsorted IH Hy]; cbn [EntireHistory.insert_newest].
  - repeat constructor.
  - destruct (ltb y.1 x.1) eqn:Hyx.
    + constructor; [constructor; assumption|].
      constructor; [apply ltb_asym, Hyx|].
      eapply Forall_impl; [exact Hy|]. intros z Hyz.
      destruct (ltb x.1 z.1) eqn:Hxz; [|reflexivity].
      cbv beta in Hyz. rewrite (ltb_trans _ _ _ Hyx Hxz) in Hyz. discriminate.
    + constructor; [exact IH|].
      rewrite insert_newest_Permutation. constructor; assumption.
Qed.

Lemma sort_newest_first_sorted (keyed : list (K * dict)) :
  StronglySorted (λ a b, ltb a.1 b.1 = false)
                 (EntireHistory.sort_newest_first ltb keyed).
Proof.
  unfold EntireHistory.sort_newest_first.
  assert (∀ sorted, StronglySorted (λ a b, ltb a.1 b.1 = false) sorted →
    StronglySorted (λ a b, ltb a.1 b.1 = false)
      (fold_left (λ sorted x, EntireHistory.insert_newest ltb x sorted) keyed sorted))
    as Hfold.
  { induction keyed as [|x keyed IH]; intros sorted Hsorted; cbn [fold_left];
      [exact Hsorted|].
    apply IH, insert_newest_sorted, Hsorted. }
  apply Hfold. constructor.
Qed.

Lemma keyed_messages (key : pyval → option K) (unique_messages : list dict)
    (keyed : list (K * dict)) :
  EntireHistory.keyed key unique_messages = Some keyed →
  map snd keyed = unique_messages
  ∧ Forall (λ p, key (EntireHistory.timestamp_of p.2) = Some p.1) keyed.
Proof.
  unfold EntireHistory.keyed.
  revert keyed. induction unique_messages as [|msg rest IH]; intros keyed Hk.
  - injection Hk as <-. split; constructor.
  - cbn [mapM] in Hk.
    destruct (key (EntireHistory.timestamp_of msg)) as [k|] eqn:Hkey; [|discriminate].
    cbn [mbind option_bind] in Hk.
    destruct (mapM _ rest) as [keyed'|]; [|discriminate].
    destruct (IH keyed' eq_refl) as [Hsnd Hall].
    injection Hk as <-. cbn [map snd]. rewrite Hsnd.
    split; [reflexivity|]. constructor; [exact Hkey|exact Hall].
Qed.

(** Sorting the messages by keys that [key] reads gives the same messages,
    none of which has a lesser key than one after it. *)
Lemma sort_keyed (key : pyval → option K) (unique_messages : list dict)
    (keyed : list (K * dict)) :
  EntireHistory.keyed key unique_messages = Some keyed →
  (∀ a b k l, key a = Some k → key b = Some l → key_ltb a b = ltb k l) →
  map snd (EntireHistory.sort_newest_first ltb keyed) ≡ₚ unique_messages
  ∧ StronglySorted not_older (map snd (EntireHistory.sort_newest_first ltb keyed)).
Proof.
  intros [Hsnd Hkeys]%keyed_messages Hltb.
  pose proof (sort_newest_first_Permutation keyed) as Hperm.
  split; [rewrite Hperm, Hsnd; reflexivity|].
  rewrite <- Hperm in Hkeys.
  pose proof (sort_newest_first_sorted keyed) as Hsorted.
  clear Hperm Hsnd.
  induction Hsorted as [|p sorted Hsorted IH Hp]; [constructor|].
  apply Forall_cons in Hkeys as [Hkp Hkeys].
  cbn [map]. constructor; [apply IH, Hkeys|].
  apply Forall_fmap. rewrite Forall_forall in Hp, Hkeys |- *.
  intros q Hq. unfold not_older. cbn [compose].
  rewrite (Hltb _ _ _ _ Hkp (Hkeys q Hq)). apply Hp, Hq.
Qed.

End Sort.

Lemma key_ltb_str (a b : pyval) (s t : pystr) :
  EntireHistory.str_key a = Some s → EntireHistory.str_key b = Some t →
  key_ltb a b = str_ltb s t.
Proof. unfold key_ltb. intros -> ->. reflexivity. Qed.

Lemma key_ltb_int (a b : pyval) (m n : Z) :
  EntireHistory.int_key a = Some m → EntireHistory.int_key b = Some n →
  key_ltb a b = (m <? n)%Z.
Proof.
  unfold key_ltb. intros Ha Hb. rewrite Ha, Hb.
  destruct a, b; try discriminate; reflexivity.
Qed.

(** The first loop of [save_data] appends the first message of each hash
    id that was not seen before. *)
Lemma unique_by_hash_id_picked (messages : list dict) :
  ∀ seen_hashes unique_messages out,
    EntireHistory.unique_by_hash_id messages seen_hashes unique_messages
    = Some (Ok out) →
    ∃ picked, out = unique_messages ++ picked
      ∧ picked `sublist_of` messages
      ∧ Forall (λ msg, ∃ h, EntireHistory.hash_id_key msg = Some (Ok (Some h))
                            ∧ h ∉ seen_hashes) picked
      ∧ NoDup (map EntireHistory.hash_id_key picked)
      ∧ (∀ before msg after h,
           messages = before ++ msg :: after →
           EntireHistory.hash_id_key msg = Some (Ok (Some h)) →
           h ∉ seen_hashes →
           Forall (λ b, EntireHistory.hash_id_key b ≠ Some (Ok (Some h))) before →
           msg ∈ picked).
Proof.
  induction messages as [|msg0 messages IH]; intros seen unique out Hout;
    cbn [EntireHistory.unique_by_hash_id] in Hout.
  - exists []. rewrite app_nil_r. repeat split; try constructor; [congruence|].
    intros [|? ?] ? ? ? ?; discriminate.
  - destruct (EntireHistory.hash_id_key msg0) as [[[h0|]|e]|] eqn:Hkey;
      try discriminate.
    + destruct (decide (h0 ∈ seen)) as [Hseen|Hfresh].
      * destruct (IH _ _ _ Hout) as (picked & -> & Hsub & Hall & Hnodup & Hfirst).
        exists picked. repeat split; auto using sublist_cons.
        intros [|b before] msg after h Heq Hh Hnew Hbefore;
          injection Heq as <- ->.
        -- congruence.
        -- apply Forall_cons in Hbefore as [_ Hbefore]. eauto.
      * destruct (IH _ _ _ Hout) as (picked & -> & Hsub & Hall & Hnodup & Hfirst).
        exists (msg0 :: picked). rewrite <- app_assoc. repeat split.
        -- apply sublist_skip, Hsub.
        -- constructor; [eauto|]. eapply Forall_impl; [exact Hall|].
           intros m (h & Hm & Hh). exists h. split; [exact Hm|].
           rewrite not_elem_of_union in Hh. apply Hh.
        -- cbn [map]. constructor; [|exact Hnodup].
           intros (m & Hm & Hin)%list_elem_of_fmap.
           rewrite Forall_forall in Hall.
           destruct (Hall m Hin) as (h & Hh & Hnot).
           assert (h = h0) as -> by congruence.
           rewrite not_elem_of_union, not_elem_of_singleton in Hnot.
           destruct Hnot as [Hnot _]. contradiction.
        -- intros [|b before] msg after h Heq Hh Hnew Hbefore;
             injection Heq as <- ->.
           ++ left.
           ++ apply Forall_cons in Hbefore as [Hb Hbefore]. right.
              eapply Hfirst; eauto.
              rewrite not_elem_of_union, not_elem_of_singleton.
              split; [congruence|exact Hnew].
    + destruct (IH _ _ _ Hout) as (picked & -> & Hsub & Hall & Hnodup & Hfirst).
      exists picked. repeat split; auto using sublist_cons.
      intros [|b before] msg after h Heq Hh Hnew Hbefore;
        injection Heq as <- ->.
      * congruence.
      * apply Forall_cons in Hbefore as [_ Hbefore]. eauto.
Qed.

(** What the sort returns is the messages it was given, newest first. *)
Lemma sort_by_timestamp_sorted (unique_messages out : list dict) :
  EntireHistory.sort_by_timestamp unique_messages = Some (Ok out) →
  out ≡ₚ unique_messages ∧ StronglySorted not_older out.
Proof.
  unfold EntireHistory.sort_by_timestamp.
  destruct unique_messages as [|m1 [|m2 rest]].
  - intros [= <-]. split; [reflexivity|constructor].
  - intros [= <-]. split; [reflexivity|repeat constructor].
  - destruct (existsb _ _); [discriminate|].
    destruct (EntireHistory.keyed EntireHistory.str_key _) as [by_str|] eqn:Hstr.
    + intros [= <-].
      apply (sort_keyed str_ltb str_ltb_irrefl str_ltb_trans _ _ _ Hstr).
      intros a b k l. apply key_ltb_str.
    + destruct (EntireHistory.keyed EntireHistory.int_key _) as [by_int|] eqn:Hint;
        [|discriminate].
      intros [= <-].
      apply (sort_keyed Z.ltb Z.ltb_irrefl) with (key := EntireHistory.int_key).
      * intros a b c Hab%Z.ltb_lt Hbc%Z.ltb_lt. apply Z.ltb_lt. lia.
      * exact Hint.
      * intros a b k l. apply key_ltb_int.
Qed.

(** X18. The list that the history script's [save_data] hands to
    [json.dump]: of each truthy [hash_id], which is a string that is not
    empty or a number that is not zero, the first message that carries it
    and no other, all of them, however many; messages without one are left
    out; and the list is in the order of the timestamps, the greatest
    first. *)
Theorem history_save_data (messages out : list dict) :
  EntireHistory.save_data messages = Some (Ok out) →
  (∀ msg, msg ∈ out →
     msg ∈ messages ∧ ∃ h, EntireHistory.hash_id_key msg = Some (Ok (Some h)))
  ∧ NoDup (map EntireHistory.hash_id_key out)
  ∧ (∀ before msg after h,
       messages = before ++ msg :: after →
       EntireHistory.hash_id_key msg = Some (Ok (Some h)) →
       Forall (λ b, EntireHistory.hash_id_key b ≠ Some (Ok (Some h))) before →
       msg ∈ out)
  ∧ StronglySorted not_older out.
Proof.
  unfold EntireHistory.save_data. intros Hsave.
  destruct (EntireHistory.unique_by_hash_id messages ∅ []) as [[unique|]|] eqn:Hu;
    try discriminate.
  destruct (unique_by_hash_id_picked _ _ _ _ Hu)
    as (picked & Heq & Hsub & Hall & Hnodup & Hfirst).
  cbn [app] in Heq. subst picked.
  apply sort_by_timestamp_sorted in Hsave as [Hperm Hsorted].
  split; [|split; [|split]].
  - intros msg Hin. rewrite Hperm in Hin. split.
    + eapply sublist_subseteq; [exact Hsub|exact Hin].
    + rewrite Forall_forall in Hall. destruct (Hall msg Hin) as (h & Hh & _). eauto.
  - rewrite Hperm. exact Hnodup.
  - intros before msg after h Hm Hh Hbefore. rewrite Hperm.
    eapply Hfirst; eauto. apply not_elem_of_empty.
  - exact Hsorted.
Qed.

Lemma history_save_data_witness :
  (∀ msg, msg ∈ sample_history_saved →
     msg ∈ sample_history ∧ ∃ h, EntireHistory.hash_id_key msg = Some (Ok (Some h)))
  ∧ NoDup (map EntireHistory.hash_id_key sample_history_saved)
  ∧ (∀ before msg after h,
       sample_history = before ++ msg :: after →
       EntireHistory.hash_id_key msg = Some (Ok (Some h)) →
       Forall (λ b, EntireHistory.hash_id_key b ≠ Some (Ok (Some h))) before →
       msg ∈ sample_history_saved)
  ∧ StronglySorted not_older sample_history_saved.
Proof. apply (history_save_data sample_history sample_history_saved). reflexivity. Defined.

(** *** The keyword that is listed twice *)

Lemma indicator_score_app (a b : list pystr) (s : pystr) :
  indicator_score (a ++ b) s = (indicator_score a s + indicator_score b s)%nat.
Proof. unfold indicator_score. rewrite List.filter_app, length_app. reflexivity. Qed.

(** X5. The history script lists [database] twice among its breach keywords,
    and counts it twice: the breach score of a text is the number of
    distinct keywords in it, and one more when [database] is among them.
    So a text with [database] in it is relevant even against one spam
    keyword, whatever else it says. *)
Theorem database_weighs_double `{StrLower} (content : pystr) :
  NoDup (remove_dups EntireHistory.BREACH_INDICATORS)
  ∧ indicator_score EntireHistory.BREACH_INDICATORS (str_lower content)
    = (indicator_score (remove_dups EntireHistory.BREACH_INDICATORS)
         (str_lower content)
       + (if contains (py "database") (str_lower content) then 1 else 0))%nat
  ∧ (content ≠ [] → contains (py "database") (str_lower content) = true →
     (indicator_score EntireHistory.SPAM_INDICATORS (str_lower content) ≤ 1)%nat →
     EntireHistory.is_relevant_breach content = true).
Proof.
  set (s := str_lower content).
  set (a := take 6 EntireHistory.BREACH_INDICATORS).
  set (b := take 11 (drop 7 EntireHistory.BREACH_INDICATORS)).
  set (c := drop 19 EntireHistory.BREACH_INDICATORS).
  assert (indicator_score [py "database"] s
          = if contains (py "database") s then 1%nat else 0%nat) as Hone
    by (unfold indicator_score; cbn [List.filter];
        destruct (contains (py "database") s); reflexivity).
  assert (indicator_score EntireHistory.BREACH_INDICATORS s
          = (indicator_score a s + indicator_score [py "database"] s
             + indicator_score b s + indicator_score [py "database"] s
             + indicator_score c s)%nat) as Hall.
  { change EntireHistory.BREACH_INDICATORS
      with (a ++ [py "database"] ++ b ++ [py "database"] ++ c) at 1.
    rewrite !indicator_score_app. lia. }
  assert (indicator_score (remove_dups EntireHistory.BREACH_INDICATORS) s
          = (indicator_score a s + indicator_score b s
             + indicator_score [py "database"] s + indicator_score c s)%nat)
    as Hdistinct.
  { replace (remove_dups EntireHistory.BREACH_INDICATORS)
      with (a ++ b ++ [py "database"] ++ c) by (vm_compute; reflexivity).
    rewrite !indicator_score_app. lia. }
  split; [apply NoDup_remove_dups|]. split.
  - rewrite Hall, Hdistinct, Hone. lia.
  - intros Hne Hdb Hspam. unfold EntireHistory.is_relevant_breach, relevance.
    destruct content as [|x rest]; [contradiction|].
    cbv zeta. change (str_lower (x :: rest)) with s. rewrite Hall, Hone, Hdb.
    apply andb_true_iff. split; apply Nat.ltb_lt; lia.
Qed.

